(** * Streaming AES-256-CBC + HMAC-SHA-256 encrypter (workers/src/encrypt.ts)

    A shallow embedding of the [Encrypter] class and of [streamEncrypt].

    JavaScript numbers that hold lengths and offsets are integers of [Z];
    a [Uint8Array] is a [list byte]; the asynchronous code is sequential
    (every call is awaited), so it is written in a state-and-exception monad
    over a [World] that holds the encrypter object, the source stream and the
    destination stream. *)

From Stdlib Require Import ZArith NArith List Bool Lia ZifyNat.
From Stdlib.Strings Require Import Byte.
Import ListNotations.
Local Open Scope Z_scope.

(** ** Bytes and typed arrays *)

Definition len (a : list byte) : Z := Z.of_nat (length a).

(** Index normalisation of [TypedArray.prototype.subarray]: a negative index
    counts from the end, and both ends are clamped to the array. *)
Definition relativeIndex (length i : Z) : Z :=
  if i <? 0 then Z.max (length + i) 0 else Z.min i length.

(** [a.subarray(begin, end)] *)
Definition subarray (a : list byte) (begin end_ : Z) : list byte :=
  let from := relativeIndex (len a) begin in
  let to := relativeIndex (len a) end_ in
  firstn (Z.to_nat (Z.max (to - from) 0)) (skipn (Z.to_nat from) a).

(** [a.subarray(begin)] *)
Definition subarrayFrom (a : list byte) (begin : Z) : list byte :=
  subarray a begin (len a).

(** [target.set(src, offset)]: [None] is the RangeError of a source that does
    not fit. *)
Definition set (target src : list byte) (offset : Z) : option (list byte) :=
  if (offset <? 0) || (len target <? offset + len src) then None
  else Some (firstn (Z.to_nat offset) target ++ src
             ++ skipn (Z.to_nat (offset + len src)) target).

(** Little-endian bytes of a number, [n] of them: the fixed-width output of a
    primitive that returns a block or a digest. *)
Definition byteOfN (n : N) : byte :=
  match Byte.of_N (n mod 256) with Some b => b | None => Byte.x00 end.

Fixpoint bytesOfN (n : nat) (x : N) : list byte :=
  match n with
  | O => []
  | S n' => byteOfN x :: bytesOfN n' (x / 256)
  end.

Fixpoint NOfBytes (a : list byte) : N :=
  match a with
  | [] => 0%N
  | b :: a' => (Byte.to_N b + 256 * NOfBytes a')%N
  end.

(** ** Errors *)

Inductive aligned := NonFinalBlock | BufferSize.

Inductive error :=
| InvalidParameter            (* 'invalid iv length ...' *)
| AlignmentError (what : aligned)
    (* 'All but final block must be multiple of block size (16)',
       'bufferSize must be a multiple of AES-CBC-256 blockSize (16)' *)
| IntegrityError              (* 'Unexpected AES output length ...' *)
| LengthOverflow              (* 'plaintext length too large...' *)
| RangeError                  (* typed-array allocation or set out of range *)
| TypeError                   (* locked stream, write or close after close,
                                 close of an errored stream, no data *)
| DataError                   (* importKey: bad raw key length *)
| OperationError              (* subtle.encrypt: bad iv length *)
| HashFinalized               (* Hmac used after digest() *)
| SinkFailure                 (* the destination rejected a write or close *)
| SourceFailure.              (* the source stream errored *)

Inductive outcome (A : Type) :=
| Returned (a : A)
| Thrown (e : error)
| Diverged.

Arguments Returned {A} a.
Arguments Thrown {A} e.
Arguments Diverged {A}.

(** ** The objects of a run *)

(** [crypto.Hmac]: the key, the bytes fed so far, and whether [digest()] was
    called. *)
Record Hmac := mkHmac {
  hmacKey : list byte;
  message : list byte;
  finalized : bool
}.

Record CryptoKey := mkCryptoKey { rawKey : list byte }.

Record Encrypter := mkEncrypter {
  hmac : Hmac;
  iv : list byte;
  aesKey : CryptoKey
}.

(** The source stream: the chunks it still has to deliver, whether it errors
    instead of ending, and how many reads were made on it. *)
Record Source := mkSource {
  pending : list (list byte);
  failsAtEnd : bool;
  reads : nat
}.

Inductive streamState := Writable | Errored | Closed.

(** The destination stream.  [chunks] are the accepted writes, in order, each
    with the bytes the chunk held when it was written; [budget] is the number
    of further writes the underlying sink accepts before it fails ([None]:
    it never fails). *)
Record Sink := mkSink {
  chunks : list (list byte);
  state : streamState;
  locked : bool;
  closeCalls : nat;
  budget : option nat;
  closeFails : bool
}.

Record World := mkWorld {
  encrypter : Encrypter;
  source : Source;
  dst : Sink;
  subtleCalls : nat       (* calls of subtle.encrypt made so far *)
}.

Definition written (s : Sink) : list byte := concat (chunks s).

(** ** The monad of the asynchronous code *)

Definition M (A : Type) : Type := World -> outcome A * World.

Definition ret {A} (a : A) : M A := fun w => (Returned a, w).
Definition throw {A} (e : error) : M A := fun w => (Thrown e, w).
Definition diverge {A} : M A := fun w => (Diverged, w).

Definition bind {A B} (m : M A) (k : A -> M B) : M B :=
  fun w =>
    match m w with
    | (Returned a, w') => k a w'
    | (Thrown e, w') => (Thrown e, w')
    | (Diverged, w') => (Diverged, w')
    end.

(** [try { body } finally { fin }]: [fin] runs after [body] returned or threw,
    and an exception of [fin] replaces the outcome of [body]. *)
Definition tryFinally {A} (body : M A) (fin : M unit) : M A :=
  fun w =>
    match body w with
    | (Diverged, w') => (Diverged, w')
    | (r, w') =>
        match fin w' with
        | (Returned _, w'') => (r, w'')
        | (Thrown e, w'') => (Thrown e, w'')
        | (Diverged, w'') => (Diverged, w'')
        end
    end.

Declare Scope js_scope.
Delimit Scope js_scope with js.
Notation "x <- m ;; k" := (bind m (fun x => k))
  (at level 100, m at next level, right associativity) : js_scope.
Notation "m ;; k" := (bind m (fun _ => k))
  (at level 100, right associativity) : js_scope.
Local Open Scope js_scope.

Definition getEncrypter : M Encrypter := fun w => (Returned (encrypter w), w).

Definition putEncrypter (e : Encrypter) : M unit :=
  fun w => (Returned tt, mkWorld e (source w) (dst w) (subtleCalls w)).

Definition getSource : M Source := fun w => (Returned (source w), w).

Definition getSink : M Sink := fun w => (Returned (dst w), w).

Definition putSink (s : Sink) : M unit :=
  fun w => (Returned tt, mkWorld (encrypter w) (source w) s (subtleCalls w)).

(** ** Streams *)

(** [dst.getWriter()] *)
Definition getWriter : M unit :=
  s <- getSink ;;
  if locked s then throw TypeError
  else putSink (mkSink (chunks s) (state s) true (closeCalls s) (budget s)
                  (closeFails s)).

(** [await writer.write(chunk)] *)
Definition write (chunk : list byte) : M unit :=
  s <- getSink ;;
  match state s with
  | Errored => throw SinkFailure
  | Closed => throw TypeError
  | Writable =>
      match budget s with
      | Some O =>
          putSink (mkSink (chunks s) Errored (locked s) (closeCalls s)
                     (budget s) (closeFails s)) ;;
          throw SinkFailure
      | Some (S n) =>
          putSink (mkSink (chunks s ++ [chunk]) Writable (locked s)
                     (closeCalls s) (Some n) (closeFails s))
      | None =>
          putSink (mkSink (chunks s ++ [chunk]) Writable (locked s)
                     (closeCalls s) None (closeFails s))
      end
  end.

(** [await writer.close()] *)
Definition close : M unit :=
  s <- getSink ;;
  let called st :=
    mkSink (chunks s) st (locked s) (S (closeCalls s)) (budget s)
      (closeFails s) in
  match state s with
  | Errored => putSink (called Errored) ;; throw TypeError
  | Closed => putSink (called Closed) ;; throw TypeError
  | Writable =>
      if closeFails s then putSink (called Errored) ;; throw SinkFailure
      else putSink (called Closed)
  end.

(** One step of the asynchronous iterator of the source: the next chunk, or
    [None] at the end of the stream. *)
Definition next : M (option (list byte)) :=
  fun w =>
    let s := source w in
    match pending s with
    | chunk :: rest =>
        (Returned (Some chunk),
         mkWorld (encrypter w) (mkSource rest (failsAtEnd s) (S (reads s)))
           (dst w) (subtleCalls w))
    | [] =>
        let w' := mkWorld (encrypter w)
                    (mkSource [] (failsAtEnd s) (S (reads s)))
                    (dst w) (subtleCalls w) in
        if failsAtEnd s then (Thrown SourceFailure, w') else (Returned None, w')
    end.

(** ** The platform *)

(** What the code takes from the runtime: the one-shot
    [subtle.encrypt({name: 'AES-CBC', iv}, key, data)], HMAC-SHA-256 as a
    256-bit number per key and message, and the largest typed array the
    runtime allocates. *)
Class Platform := {
  aesCbc : list byte -> list byte -> list byte -> list byte;
  hmacSha256 : list byte -> list byte -> N;
  maxByteLength : Z
}.

(** A JavaScript number as far as [streamEncrypt] tells numbers apart. *)
Inductive number :=
| Int (z : Z)
| NotInteger      (* a finite non-integer, or an infinity *)
| NaN.

Definition MAX_SAFE_INTEGER : Z := 2 ^ 53 - 1.

Definition MAX_PLAINTEXT_LENGTH : Z := MAX_SAFE_INTEGER - 32 - 16 - 16.

(** [Math.ceil(a / b)] for integers [a] and [b > 0], the quotient taken
    exactly. *)
Definition ceilDiv (a b : Z) : Z := - ((- a) / b).

Section Code.

Context {platform : Platform}.

(** [new Uint8Array(length)] *)
Definition newUint8Array (length : Z) : M (list byte) :=
  if (length <? 0) || (maxByteLength <? length) then throw RangeError
  else ret (repeat Byte.x00 (Z.to_nat length)).

(** [await subtle.encrypt({ name: 'AES-CBC', iv }, key, data)] *)
Definition subtleEncrypt (iv : list byte) (key : CryptoKey)
    (data : option (list byte)) : M (list byte) :=
  fun w =>
    let w' := mkWorld (encrypter w) (source w) (dst w) (S (subtleCalls w)) in
    match data with
    | None => (Thrown TypeError, w')
    | Some plaintext =>
        if len iv =? 16 then (Returned (aesCbc (rawKey key) iv plaintext), w')
        else (Thrown OperationError, w')
    end.

(** [subtle.importKey('raw', aesKey, 'AES-CBC', false, ['encrypt'])] *)
Definition importKey (aesKey : list byte) : outcome CryptoKey :=
  if (len aesKey =? 16) || (len aesKey =? 24) || (len aesKey =? 32)
  then Returned (mkCryptoKey aesKey) else Thrown DataError.

(** [crypto.createHmac('sha256', hmacKey)] *)
Definition createHmac (hmacKey : list byte) : Hmac := mkHmac hmacKey [] false.

(** [this.hmac.update(data)] *)
Definition hmacUpdate (data : list byte) : M unit :=
  e <- getEncrypter ;;
  let h := hmac e in
  if finalized h then throw HashFinalized
  else putEncrypter
         (mkEncrypter (mkHmac (hmacKey h) (message h ++ data) false) (iv e)
            (aesKey e)).

(** [this.hmac.digest()] *)
Definition hmacDigest : M (list byte) :=
  e <- getEncrypter ;;
  let h := hmac e in
  if finalized h then throw HashFinalized
  else
    putEncrypter
      (mkEncrypter (mkHmac (hmacKey h) (message h) true) (iv e) (aesKey e)) ;;
    ret (bytesOfN 32 (hmacSha256 (hmacKey h) (message h))).

(** [this.iv.set(src)] *)
Definition ivSet (src : list byte) : M unit :=
  e <- getEncrypter ;;
  match set (iv e) src 0 with
  | None => throw RangeError
  | Some iv' => putEncrypter (mkEncrypter (hmac e) iv' (aesKey e))
  end.

(** ** class Encrypter *)

(** [constructor(iv, hmac, aesKey)] *)
Definition Encrypter_new (iv_ : list byte) (hmac_ : Hmac) (aesKey_ : CryptoKey)
    : outcome Encrypter :=
  if negb (len iv_ =? 16) then Thrown InvalidParameter
  else
    match set (repeat Byte.x00 16) iv_ 0 with
    | None => Thrown RangeError
    | Some iv' => Returned (mkEncrypter hmac_ iv' aesKey_)
    end.

(** [static async create(iv, hmacKey, aesKey)] *)
Definition Encrypter_create (iv_ hmacKey_ aesKey_ : list byte)
    : outcome Encrypter :=
  let h := createHmac hmacKey_ in
  match importKey aesKey_ with
  | Returned k => Encrypter_new iv_ h k
  | Thrown e => Thrown e
  | Diverged => Diverged
  end.

(** [encryptedLength(plaintextLength)] *)
Definition encryptedLength (e : Encrypter) (plaintextLength : Z) : outcome Z :=
  if plaintextLength >? MAX_PLAINTEXT_LENGTH then Thrown LengthOverflow
  else
    let numBlocks := ceilDiv (plaintextLength + 1) 16 in
    Returned (len (iv e) + (numBlocks * 16) + 32).

(** [async init(dst)] *)
Definition init : M unit :=
  e <- getEncrypter ;;
  write (iv e) ;;
  hmacUpdate (iv e).

(** [async encrypt(dst, plaintext)] *)
Definition encrypt (plaintext : list byte) : M unit :=
  if negb (Z.rem (len plaintext) 16 =? 0) then
    throw (AlignmentError NonFinalBlock)
  else
    e <- getEncrypter ;;
    encrypted <- subtleEncrypt (iv e) (aesKey e) (Some plaintext) ;;
    if negb (len encrypted =? len plaintext + 16) then throw IntegrityError
    else
      let encrypted := subarray encrypted 0 (len encrypted - 16) in
      ivSet (subarrayFrom encrypted (len encrypted - 16)) ;;
      write encrypted ;;
      hmacUpdate encrypted.

(** [async finish(dst, plaintext)] *)
Definition finish (plaintext : option (list byte)) : M unit :=
  e <- getEncrypter ;;
  encrypted <- subtleEncrypt (iv e) (aesKey e) plaintext ;;
  write encrypted ;;
  hmacUpdate encrypted ;;
  tag <- hmacDigest ;;
  write tag.

(** ** streamEncrypt *)

(** [bufferSize || 1024 * 1024], for an argument that may be left out. *)
Definition orDefault (bufferSize : option number) : number :=
  match bufferSize with
  | None | Some NaN | Some (Int 0) => Int (1024 * 1024)
  | Some n => n
  end.

(** The [do ... while (chunk !== null)] loop over one source chunk.  Every
    turn but the last one consumes at least one byte of the chunk when the
    buffer is not empty, so [fuel] turns are enough for a chunk of fewer than
    [fuel] bytes; the loop that runs out of fuel does not return. *)
Fixpoint doWhile (fuel : nat) (chunk plaintext : list byte) (offset : Z)
    : M (list byte * Z) :=
  match fuel with
  | O => diverge
  | S fuel' =>
      let amtToCopy := Z.min (len plaintext - offset) (len chunk) in
      match set plaintext (subarray chunk 0 amtToCopy) offset with
      | None => throw RangeError
      | Some plaintext =>
          let offset := offset + amtToCopy in
          offset <- (if offset =? len plaintext
                     then encrypt plaintext ;; ret 0
                     else ret offset) ;;
          if amtToCopy <? len chunk
          then doWhile fuel' (subarrayFrom chunk amtToCopy) plaintext offset
          else ret (plaintext, offset)
      end
  end.

(** [for await (const sourceChunk of source) { ... }] *)
Fixpoint forAwait (fuel : nat) (plaintext : list byte) (offset : Z)
    : M (list byte * Z) :=
  match fuel with
  | O => diverge
  | S fuel' =>
      r <- next ;;
      match r with
      | None => ret (plaintext, offset)
      | Some sourceChunk =>
          st <- doWhile (S (length sourceChunk)) sourceChunk plaintext offset ;;
          forAwait fuel' (fst st) (snd st)
      end
  end.

(** [n % 16 !== 0] *)
Definition notMultipleOf16 (n : number) : bool :=
  match n with
  | Int z => negb (Z.rem z 16 =? 0)
  | NotInteger => true      (* the remainder is not an integer, or is NaN *)
  | NaN => true             (* NaN !== 0 *)
  end.

(** The block of the [try] statement of [streamEncrypt]. *)
Definition tryBlock (bufferSize : number) : M unit :=
  (* write the IV *)
  init ;;
  (* we'll buffer up to 1MiB before encrypting and flushing *)
  plaintext <- (match bufferSize with
                | Int length => newUint8Array length
                | _ => throw RangeError   (* has failed the test before *)
                end) ;;
  src <- getSource ;;
  st <- forAwait (S (length (pending src))) plaintext 0 ;;
  (* write whatever is left and the hmac *)
  finish (Some (subarray (fst st) 0 (snd st))).

Definition streamEncrypt (bufferSize : option number) : M unit :=
  let bufferSize := orDefault bufferSize in
  if notMultipleOf16 bufferSize then throw (AlignmentError BufferSize)
  else
    getWriter ;;
    tryFinally (tryBlock bufferSize) close.

(** ** Sessions

    The order of calls that the class asks of its caller: [init], then the
    non-final buffers, then [finish] with what is left. *)

Fixpoint encryptAll (plaintexts : list (list byte)) : M unit :=
  match plaintexts with
  | [] => ret tt
  | plaintext :: rest => encrypt plaintext ;; encryptAll rest
  end.

Definition session (plaintexts : list (list byte)) (tail : list byte)
    : M unit :=
  init ;;
  encryptAll plaintexts ;;
  finish (Some tail).

End Code.

(** ** AES-256-CBC with PKCS#7 padding, one-shot

    The one-shot primitive of the runtime, over a block cipher that is left
    open: [blockCipher key x] is the encryption of the 128-bit block [x]. *)

Section AesCbc.

Variable blockCipher : list byte -> N -> N.

Definition encryptBlock (key prev block : list byte) : list byte :=
  bytesOfN 16 (blockCipher key (N.lxor (NOfBytes prev) (NOfBytes block))).

(** The state of a CBC encryption in progress: the chaining value, the bytes
    of the block being filled, and the ciphertext produced so far. *)
Definition cbcState : Type := list byte * list byte * list byte.

Definition cbcAbsorb (key : list byte) (st : cbcState) (b : byte) : cbcState :=
  let '(prev, cur, out) := st in
  let cur' := cur ++ [b] in
  if Nat.eqb (length cur') 16
  then let c := encryptBlock key prev cur' in (c, [], out ++ c)
  else (prev, cur', out).

Definition cbcRun (key iv_ data : list byte) : cbcState :=
  fold_left (cbcAbsorb key) data (iv_, [], []).

Definition chainOf (st : cbcState) : list byte := fst (fst st).
Definition outOf (st : cbcState) : list byte := snd st.

(** PKCS#7: between 1 and 16 bytes, each holding their number. *)
Definition pkcs7 (data : list byte) : list byte :=
  let n := (16 - length data mod 16)%nat in
  repeat (byteOfN (N.of_nat n)) n.

Definition aesCbcEncrypt (key iv_ plaintext : list byte) : list byte :=
  outOf (cbcRun key iv_ (plaintext ++ pkcs7 plaintext)).

End AesCbc.

(** The platform whose one-shot primitive is CBC over [blockCipher]. *)
Definition cbcPlatform (blockCipher : list byte -> N -> N)
    (hmacSha256_ : list byte -> list byte -> N) (maxByteLength_ : Z)
    : Platform :=
  {| aesCbc := aesCbcEncrypt blockCipher;
     hmacSha256 := hmacSha256_;
     maxByteLength := maxByteLength_ |}.

(** * Properties *)

Ltac Zify.zify_post_hook ::= Z.to_euclidean_division_equations.

#[local] Arguments Nat.modulo : simpl never.
#[local] Arguments Nat.div : simpl never.
#[local] Arguments bytesOfN : simpl never.

(** ** Typed arrays *)

Lemma len_nonneg (a : list byte) : 0 <= len a.
Proof. unfold len; lia. Qed.

Lemma len_app (a b : list byte) : len (a ++ b) = len a + len b.
Proof. unfold len; rewrite length_app; lia. Qed.

Lemma len_nil : len [] = 0.
Proof. reflexivity. Qed.

(** A whole number of 16-byte blocks. *)
Definition aligned16 (data : list byte) : Prop := (length data mod 16 = 0)%nat.

Lemma rem_aligned (data : list byte) :
  Z.rem (len data) 16 = 0 <-> aligned16 data.
Proof.
  unfold aligned16, len.
  rewrite Z.rem_mod_nonneg by lia. lia.
Qed.

Lemma subarray_prefix (a : list byte) (n : Z) :
  0 <= n <= len a -> subarray a 0 n = firstn (Z.to_nat n) a.
Proof.
  intros Hn. unfold subarray, relativeIndex.
  assert (H0 : (0 <? 0) = false) by reflexivity. rewrite H0.
  destruct (n <? 0) eqn:E; [apply Z.ltb_lt in E; lia|].
  pose proof (len_nonneg a).
  replace (Z.min 0 (len a)) with 0 by lia.
  replace (Z.max (Z.min n (len a) - 0) 0) with n by lia.
  reflexivity.
Qed.

Lemma subarrayFrom_suffix (a : list byte) (n : Z) :
  0 <= n <= len a -> subarrayFrom a n = skipn (Z.to_nat n) a.
Proof.
  intros Hn. unfold subarrayFrom, subarray, relativeIndex.
  destruct (n <? 0) eqn:E; [apply Z.ltb_lt in E; lia|].
  destruct (len a <? 0) eqn:E'; [apply Z.ltb_lt in E'; lia|].
  replace (Z.min n (len a)) with n by lia.
  replace (Z.min (len a) (len a)) with (len a) by lia.
  apply firstn_all2. rewrite length_skipn. unfold len in *. lia.
Qed.

Lemma set_fits (target src : list byte) (offset : Z) :
  0 <= offset -> offset + len src <= len target ->
  set target src offset
  = Some (firstn (Z.to_nat offset) target ++ src
          ++ skipn (Z.to_nat (offset + len src)) target).
Proof.
  intros H0 H1. unfold set.
  destruct (offset <? 0) eqn:E; [apply Z.ltb_lt in E; lia|].
  destruct (len target <? offset + len src) eqn:E';
    [apply Z.ltb_lt in E'; lia|].
  reflexivity.
Qed.

Lemma set_whole (target src : list byte) :
  len src = len target -> set target src 0 = Some src.
Proof.
  intros H. rewrite set_fits by lia. simpl.
  rewrite skipn_all2 by (unfold len in *; lia).
  now rewrite app_nil_r.
Qed.

Lemma len_firstn (a : list byte) (n : Z) :
  0 <= n <= len a -> len (firstn (Z.to_nat n) a) = n.
Proof. intros H. unfold len in *. rewrite length_firstn. lia. Qed.

Lemma len_skipn (a : list byte) (n : Z) :
  0 <= n <= len a -> len (skipn (Z.to_nat n) a) = len a - n.
Proof. intros H. unfold len in *. rewrite length_skipn. lia. Qed.

Lemma len_set (target src result : list byte) (offset : Z) :
  set target src offset = Some result -> len result = len target.
Proof.
  unfold set. intros H.
  destruct (offset <? 0) eqn:E; [discriminate|].
  destruct (len target <? offset + len src) eqn:E'; [discriminate|].
  apply Z.ltb_ge in E, E'. simpl in H. injection H as <-.
  pose proof (len_nonneg src).
  rewrite !len_app, len_firstn, len_skipn; lia.
Qed.

(** Copying [src] into the staging buffer at [offset] extends the staged
    bytes by [src]. *)
Lemma set_staged (target src : list byte) (offset : Z) :
  0 <= offset -> offset + len src <= len target ->
  exists result,
    set target src offset = Some result /\
    len result = len target /\
    firstn (Z.to_nat (offset + len src)) result
    = firstn (Z.to_nat offset) target ++ src /\
    (offset + len src = len target ->
     result = firstn (Z.to_nat offset) target ++ src).
Proof.
  intros H0 H1. pose proof (len_nonneg src) as Hs.
  eexists. split; [now apply set_fits|].
  split; [rewrite !len_app, len_firstn, len_skipn; lia|].
  split.
  - rewrite app_assoc, firstn_app.
    replace (Z.to_nat (offset + len src)
             - length (firstn (Z.to_nat offset) target ++ src))%nat
      with 0%nat
      by (rewrite length_app, length_firstn; unfold len in *; lia).
    rewrite firstn_all2
      by (rewrite length_app, length_firstn; unfold len in *; lia).
    simpl. apply app_nil_r.
  - intros Hfull. rewrite skipn_all2 by (unfold len in *; lia).
    now rewrite app_nil_r.
Qed.

Lemma skipn_last {A} (l t : list A) :
  skipn (length (l ++ t) - length t) (l ++ t) = t.
Proof.
  rewrite length_app, skipn_app.
  replace (length l + length t - length t)%nat with (length l) by lia.
  rewrite skipn_all, Nat.sub_diag. reflexivity.
Qed.

Lemma length_bytesOfN (n : nat) (x : N) : length (bytesOfN n x) = n.
Proof. revert x; induction n; intros; simpl; [reflexivity | now rewrite IHn]. Qed.

(** ** CBC chaining *)

Section CbcFacts.

Variable blockCipher : list byte -> N -> N.
Variable key : list byte.

Local Abbreviation absorb := (cbcAbsorb blockCipher key).
Local Abbreviation run := (cbcRun blockCipher key).

Lemma length_encryptBlock (prev block : list byte) :
  length (encryptBlock blockCipher key prev block) = 16%nat.
Proof. apply length_bytesOfN. Qed.

(** The ciphertext already produced is only ever extended. *)
Lemma absorb_out_prefix (data prev cur out : list byte) :
  fold_left absorb data (prev, cur, out)
  = let st := fold_left absorb data (prev, cur, []) in
    (fst (fst st), snd (fst st), out ++ snd st).
Proof.
  revert prev cur out.
  induction data as [|b data IH]; intros prev cur out; simpl.
  - now rewrite app_nil_r.
  - destruct (Nat.eqb (length (cur ++ [b])) 16).
    + rewrite IH.
      rewrite (IH _ _ (encryptBlock blockCipher key prev (cur ++ [b]))).
      cbv zeta. simpl. now rewrite <- app_assoc.
    + apply IH.
Qed.

(** Bytes that do not complete a block are only staged. *)
Lemma absorb_partial (data prev cur out : list byte) :
  (length cur + length data < 16)%nat ->
  fold_left absorb data (prev, cur, out) = (prev, cur ++ data, out).
Proof.
  revert cur. induction data as [|b data IH]; intros cur H; simpl in *.
  - now rewrite app_nil_r.
  - destruct (Nat.eqb (length (cur ++ [b])) 16) eqn:E.
    + apply Nat.eqb_eq in E. rewrite length_app in E. simpl in E. lia.
    + rewrite IH by (rewrite length_app; simpl; lia).
      now rewrite <- app_assoc.
Qed.

(** Bytes that complete a block exactly are encrypted as that block. *)
Lemma absorb_block (data prev cur out : list byte) :
  data <> [] -> (length cur + length data = 16)%nat ->
  fold_left absorb data (prev, cur, out)
  = (encryptBlock blockCipher key prev (cur ++ data), [],
     out ++ encryptBlock blockCipher key prev (cur ++ data)).
Proof.
  revert cur. induction data as [|b data IH]; intros cur Hne H;
    [congruence|]. simpl in *.
  destruct data as [|b' data].
  - simpl.
    assert (E : Nat.eqb (length (cur ++ [b])) 16 = true)
      by (apply Nat.eqb_eq; rewrite length_app; simpl in *; lia).
    now rewrite E.
  - assert (E : Nat.eqb (length (cur ++ [b])) 16 = false)
      by (apply Nat.eqb_neq; rewrite length_app; simpl in *; lia).
    rewrite E, IH; [|discriminate|rewrite length_app; simpl in *; lia].
    now rewrite <- app_assoc.
Qed.

(** Where a run stands after [data]: the block being filled holds the bytes
    past the last block boundary, and the chaining value is the last block of
    the initialisation vector followed by the ciphertext. *)
Lemma run_shape (iv_ data : list byte) :
  length iv_ = 16%nat ->
  let st := run iv_ data in
  length (snd (fst st)) = (length data mod 16)%nat /\
  (length (outOf st) + length (snd (fst st)) = length data)%nat /\
  length (chainOf st) = 16%nat /\
  chainOf st = skipn (length (outOf st)) (iv_ ++ outOf st).
Proof.
  intros Hiv. unfold cbcRun, chainOf, outOf.
  induction data as [|b data IH] using rev_ind; simpl.
  - repeat split; try assumption. now rewrite app_nil_r.
  - rewrite fold_left_app. simpl.
    destruct (fold_left absorb data (iv_, [], [])) as [[prev cur] out].
    simpl in IH. destruct IH as (Hc & Ho & Hp & Hs). simpl.
    destruct (Nat.eqb (length (cur ++ [b])) 16) eqn:E; simpl;
      [apply Nat.eqb_eq in E | apply Nat.eqb_neq in E];
      rewrite ?length_app, ?length_encryptBlock in *; simpl in *.
    + repeat split; try lia.
      rewrite app_assoc, skipn_app.
      rewrite skipn_all2 by (rewrite length_app; lia).
      rewrite length_app.
      replace (length out + 16 - (length iv_ + length out))%nat with 0%nat
        by lia.
      reflexivity.
    + repeat split; try lia. assumption.
Qed.

Lemma run_aligned (iv_ data : list byte) :
  length iv_ = 16%nat -> aligned16 data ->
  run iv_ data = (chainOf (run iv_ data), [], outOf (run iv_ data)) /\
  length (outOf (run iv_ data)) = length data /\
  length (chainOf (run iv_ data)) = 16%nat.
Proof.
  intros Hiv Ha. pose proof (run_shape iv_ data Hiv) as H. cbv zeta in H.
  destruct (run iv_ data) as [[prev cur] out]. unfold chainOf, outOf in *.
  simpl in *. destruct H as (Hc & Ho & Hp & _).
  unfold aligned16 in Ha. rewrite Ha in Hc.
  destruct cur; [|discriminate]. simpl in Ho.
  repeat split; [lia | assumption].
Qed.

(** Encrypting [X ++ Y], with [X] a whole number of blocks, is encrypting
    [X] and then [Y] under the chaining value that [X] leaves. *)
Lemma run_app_aligned (iv_ X Y : list byte) :
  length iv_ = 16%nat -> aligned16 X ->
  run iv_ (X ++ Y)
  = let st := run (chainOf (run iv_ X)) Y in
    (fst (fst st), snd (fst st), outOf (run iv_ X) ++ snd st).
Proof.
  intros Hiv Ha. destruct (run_aligned iv_ X Hiv Ha) as (Hr & _ & _).
  unfold cbcRun at 1. rewrite fold_left_app. fold (run iv_ X).
  rewrite Hr. apply absorb_out_prefix.
Qed.

Lemma pkcs7_app_aligned (X t : list byte) :
  aligned16 X -> pkcs7 (X ++ t) = pkcs7 t.
Proof.
  unfold aligned16, pkcs7. intros Ha. rewrite length_app.
  replace ((length X + length t) mod 16)%nat with (length t mod 16)%nat by lia.
  reflexivity.
Qed.

Lemma aesCbc_app_aligned (iv_ X t : list byte) :
  length iv_ = 16%nat -> aligned16 X ->
  aesCbcEncrypt blockCipher key iv_ (X ++ t)
  = outOf (run iv_ X)
    ++ aesCbcEncrypt blockCipher key (chainOf (run iv_ X)) t.
Proof.
  intros Hiv Ha. unfold aesCbcEncrypt.
  rewrite pkcs7_app_aligned by assumption.
  rewrite <- app_assoc, run_app_aligned by assumption.
  reflexivity.
Qed.

(** The padding block that the one-shot primitive appends to whole blocks. *)
Definition paddingBlock : list byte := repeat x10 16.

Lemma aesCbc_aligned (iv_ X : list byte) :
  length iv_ = 16%nat -> aligned16 X ->
  aesCbcEncrypt blockCipher key iv_ X
  = outOf (run iv_ X)
    ++ encryptBlock blockCipher key (chainOf (run iv_ X)) paddingBlock.
Proof.
  intros Hiv Ha.
  rewrite <- (app_nil_r X) at 1.
  rewrite aesCbc_app_aligned by assumption.
  reflexivity.
Qed.

Lemma length_aesCbc (iv_ plaintext : list byte) :
  length iv_ = 16%nat ->
  length (aesCbcEncrypt blockCipher key iv_ plaintext)
  = (16 * (length plaintext / 16 + 1))%nat.
Proof.
  intros Hiv. unfold aesCbcEncrypt.
  pose proof (run_shape iv_ (plaintext ++ pkcs7 plaintext) Hiv) as H.
  cbv zeta in H. destruct H as (Hc & Ho & _ & _).
  rewrite length_app in *. unfold pkcs7 in *. rewrite repeat_length in *.
  lia.
Qed.

Lemma chain_last (iv_ X : list byte) :
  length iv_ = 16%nat -> aligned16 X -> X <> [] ->
  chainOf (run iv_ X) = skipn (length X - 16) (outOf (run iv_ X)).
Proof.
  intros Hiv Ha Hne.
  destruct (run_aligned iv_ X Hiv Ha) as (_ & Hlen & _).
  pose proof (run_shape iv_ X Hiv) as H. cbv zeta in H.
  destruct H as (_ & _ & _ & Hs). rewrite Hs, Hlen, skipn_app.
  assert (16 <= length X)%nat
    by (destruct X; [congruence | unfold aligned16 in Ha; simpl in *; lia]).
  rewrite skipn_all2 by lia. rewrite Hiv. reflexivity.
Qed.

End CbcFacts.

(** ** Effects of the calls

    The world after a call that returned, written with four updates. *)

(** The sink has accepted [chunk]. *)
Definition wrote (chunk : list byte) (w : World) : World :=
  let s := dst w in
  mkWorld (encrypter w) (source w)
    (mkSink (chunks s ++ [chunk]) (state s) (locked s) (closeCalls s)
       (budget s) (closeFails s))
    (subtleCalls w).

(** The HMAC has been fed [data]. *)
Definition fed (data : list byte) (w : World) : World :=
  let e := encrypter w in
  let h := hmac e in
  mkWorld
    (mkEncrypter (mkHmac (hmacKey h) (message h ++ data) (finalized h)) (iv e)
       (aesKey e))
    (source w) (dst w) (subtleCalls w).

(** The chaining value has been replaced. *)
Definition chained (iv' : list byte) (w : World) : World :=
  let e := encrypter w in
  mkWorld (mkEncrypter (hmac e) iv' (aesKey e)) (source w) (dst w)
    (subtleCalls w).

(** The one-shot primitive has been called once more. *)
Definition called (w : World) : World :=
  mkWorld (encrypter w) (source w) (dst w) (S (subtleCalls w)).

(** [encrypted.subarray(encrypted.length - 16)] *)
Definition lastBlock (encrypted : list byte) : list byte :=
  subarrayFrom encrypted (len encrypted - 16).

(** What [target.set(src)] leaves in [target] when [src] fits. *)
Definition overwrite (target src : list byte) : list byte :=
  src ++ skipn (length src) target.

Lemma length_lastBlock (a : list byte) : (length (lastBlock a) <= 16)%nat.
Proof.
  unfold lastBlock, subarrayFrom, subarray, relativeIndex.
  pose proof (len_nonneg a) as Hn.
  destruct (len a <? 0) eqn:E; [apply Z.ltb_lt in E; lia|].
  rewrite length_firstn, length_skipn.
  destruct (len a - 16 <? 0) eqn:E'; unfold len in *;
    [apply Z.ltb_lt in E' | apply Z.ltb_ge in E']; lia.
Qed.

Lemma lastBlock_nil : lastBlock [] = [].
Proof. reflexivity. Qed.

Lemma lastBlock_skipn (a : list byte) :
  (16 <= length a)%nat -> lastBlock a = skipn (length a - 16) a.
Proof.
  intros H. unfold lastBlock. rewrite subarrayFrom_suffix by (unfold len; lia).
  f_equal. unfold len. lia.
Qed.

Lemma set_overwrite (target src : list byte) :
  len src <= len target -> set target src 0 = Some (overwrite target src).
Proof.
  intros H. pose proof (len_nonneg src).
  rewrite set_fits by lia. unfold overwrite. simpl.
  do 3 f_equal. unfold len. lia.
Qed.

Lemma overwrite_whole (target src : list byte) :
  length src = length target -> overwrite target src = src.
Proof.
  intros H. unfold overwrite. rewrite skipn_all2 by lia. apply app_nil_r.
Qed.

Lemma overwrite_nil (target : list byte) : overwrite target [] = target.
Proof. reflexivity. Qed.

Section Calls.

Context {platform : Platform}.

Ltac world w :=
  destruct w as [[[? ? ?] ? ?] [? ? ?] [? ? ? ? ? ?] ?]; simpl in *; subst.

Lemma write_healthy (chunk : list byte) (w : World) :
  state (dst w) = Writable -> budget (dst w) = None ->
  write chunk w = (Returned tt, wrote chunk w).
Proof. intros Hs Hb. world w. reflexivity. Qed.

Lemma hmacUpdate_live (data : list byte) (w : World) :
  finalized (hmac (encrypter w)) = false ->
  hmacUpdate data w = (Returned tt, fed data w).
Proof. intros Hf. world w. reflexivity. Qed.

Lemma ivSet_fits (src : list byte) (w : World) :
  len src <= len (iv (encrypter w)) ->
  ivSet src w = (Returned tt, chained (overwrite (iv (encrypter w)) src) w).
Proof.
  intros H. unfold ivSet, bind, getEncrypter.
  rewrite set_overwrite by assumption. reflexivity.
Qed.

(** The ciphertext that a non-final call emits for [plaintext]. *)
Definition truncated (e : Encrypter) (plaintext : list byte) : list byte :=
  firstn (length plaintext) (aesCbc (rawKey (aesKey e)) (iv e) plaintext).

(** The world after a non-final call that returned. *)
Definition encrypted (plaintext : list byte) (w : World) : World :=
  let e := encrypter w in
  let ct := truncated e plaintext in
  fed ct (wrote ct (chained (overwrite (iv e) (lastBlock ct)) (called w))).

Lemma encrypt_healthy (plaintext : list byte) (w : World) :
  let e := encrypter w in
  aligned16 plaintext ->
  len (iv e) = 16 ->
  len (aesCbc (rawKey (aesKey e)) (iv e) plaintext) = len plaintext + 16 ->
  finalized (hmac e) = false ->
  state (dst w) = Writable -> budget (dst w) = None ->
  encrypt plaintext w = (Returned tt, encrypted plaintext w).
Proof.
  intros e Ha Hiv Hraw Hf Hs Hb. subst e.
  unfold encrypt. apply rem_aligned in Ha. rewrite Ha. clear Ha. simpl.
  unfold bind at 1. unfold getEncrypter.
  unfold bind at 1. unfold subtleEncrypt. rewrite Hiv. simpl.
  rewrite Hraw, Z.eqb_refl. simpl.
  replace (len plaintext + 16 - 16) with (len plaintext) by lia.
  rewrite subarray_prefix by (pose proof (len_nonneg plaintext); lia).
  assert (Hl : Z.to_nat (len plaintext) = length plaintext)
    by apply Nat2Z.id.
  rewrite Hl.
  fold (truncated (encrypter w) plaintext).
  fold (lastBlock (truncated (encrypter w) plaintext)).
  unfold bind at 1. rewrite ivSet_fits.
  2:{ cbn [encrypter]. rewrite Hiv. unfold len.
      pose proof (length_lastBlock (truncated (encrypter w) plaintext)). lia. }
  unfold bind at 1. rewrite write_healthy by assumption.
  rewrite hmacUpdate_live by assumption. reflexivity.
Qed.

(** The HMAC has been finalised. *)
Definition digested (w : World) : World :=
  let e := encrypter w in
  let h := hmac e in
  mkWorld (mkEncrypter (mkHmac (hmacKey h) (message h) true) (iv e) (aesKey e))
    (source w) (dst w) (subtleCalls w).

(** The tag over what the HMAC of [e] has been fed. *)
Definition tagOf (e : Encrypter) : list byte :=
  bytesOfN 32 (hmacSha256 (hmacKey (hmac e)) (message (hmac e))).

Lemma hmacDigest_live (w : World) :
  finalized (hmac (encrypter w)) = false ->
  hmacDigest w = (Returned (tagOf (encrypter w)), digested w).
Proof. intros Hf. world w. reflexivity. Qed.

Lemma init_healthy (w : World) :
  finalized (hmac (encrypter w)) = false ->
  state (dst w) = Writable -> budget (dst w) = None ->
  init w
  = (Returned tt, fed (iv (encrypter w)) (wrote (iv (encrypter w)) w)).
Proof. intros Hf Hs Hb. world w. reflexivity. Qed.

(** The world after [finish] returned. *)
Definition finished (tail : list byte) (w : World) : World :=
  let e := encrypter w in
  let ct := aesCbc (rawKey (aesKey e)) (iv e) tail in
  let w1 := fed ct (wrote ct (called w)) in
  wrote (tagOf (encrypter w1)) (digested w1).

Lemma finish_healthy (tail : list byte) (w : World) :
  len (iv (encrypter w)) = 16 ->
  finalized (hmac (encrypter w)) = false ->
  state (dst w) = Writable -> budget (dst w) = None ->
  finish (Some tail) w = (Returned tt, finished tail w).
Proof.
  intros Hiv Hf Hs Hb. world w.
  unfold finish, bind, getEncrypter, subtleEncrypt. simpl.
  rewrite Hiv. reflexivity.
Qed.

(** *** What a call that returned has done *)

Lemma bind_returned {A B} (m : M A) (k : A -> M B) (w w' : World) (b : B) :
  bind m k w = (Returned b, w') ->
  exists a w1, m w = (Returned a, w1) /\ k a w1 = (Returned b, w').
Proof.
  unfold bind. destruct (m w) as [[a| |] w1]; intros H;
    [eauto | discriminate | discriminate].
Qed.

Lemma write_returned (chunk : list byte) (w w' : World) (r : unit) :
  write chunk w = (Returned r, w') ->
  encrypter w' = encrypter w /\ chunks (dst w') = chunks (dst w) ++ [chunk].
Proof.
  intros H. world w. unfold write, bind, getSink in H. simpl in H.
  destruct state0; try discriminate.
  destruct budget0 as [[|n]|]; simpl in H; try discriminate;
    injection H as _ <-; auto.
Qed.

Lemma hmacUpdate_returned (data : list byte) (w w' : World) (r : unit) :
  hmacUpdate data w = (Returned r, w') ->
  finalized (hmac (encrypter w)) = false /\ w' = fed data w.
Proof.
  intros H. world w. unfold hmacUpdate, bind, getEncrypter in H. simpl in H.
  destruct finalized0; try discriminate. injection H as _ <-. auto.
Qed.

Lemma init_returned (w w' : World) (r : unit) :
  init w = (Returned r, w') ->
  encrypter w' = encrypter (fed (iv (encrypter w)) w) /\
  chunks (dst w') = chunks (dst w) ++ [iv (encrypter w)].
Proof.
  unfold init. intros H.
  apply bind_returned in H as (e & w1 & He & H).
  injection He as <- <-.
  apply bind_returned in H as (? & w2 & Hw & H).
  apply write_returned in Hw as (He & Hc).
  apply hmacUpdate_returned in H as (_ & ->).
  simpl. rewrite He, Hc. auto.
Qed.

Lemma encrypt_returned (plaintext : list byte) (w w' : World) (r : unit) :
  encrypt plaintext w = (Returned r, w') ->
  let e := encrypter w in
  aligned16 plaintext /\
  len (iv e) = 16 /\
  len (aesCbc (rawKey (aesKey e)) (iv e) plaintext) = len plaintext + 16 /\
  encrypter w' = encrypter (encrypted plaintext w) /\
  chunks (dst w') = chunks (dst w) ++ [truncated e plaintext].
Proof.
  unfold encrypt. intros H.
  destruct (Z.rem (len plaintext) 16 =? 0) eqn:Ha; [|discriminate].
  apply Z.eqb_eq, rem_aligned in Ha. simpl in H.
  apply bind_returned in H as (e & w1 & He & H). injection He as <- <-.
  apply bind_returned in H as (raw & w2 & Hraw & H).
  unfold subtleEncrypt in Hraw.
  destruct (len (iv (encrypter w)) =? 16) eqn:Hiv; [|discriminate].
  apply Z.eqb_eq in Hiv. injection Hraw as <- <-.
  destruct (len (aesCbc _ _ plaintext) =? len plaintext + 16) eqn:Hl;
    [|discriminate].
  apply Z.eqb_eq in Hl. simpl in H.
  rewrite Hl in H.
  replace (len plaintext + 16 - 16) with (len plaintext) in H by lia.
  rewrite subarray_prefix in H by (pose proof (len_nonneg plaintext); lia).
  assert (Hn : Z.to_nat (len plaintext) = length plaintext)
    by apply Nat2Z.id.
  rewrite Hn in H.
  fold (truncated (encrypter w) plaintext) in H.
  fold (lastBlock (truncated (encrypter w) plaintext)) in H.
  apply bind_returned in H as (? & w3 & Hset & H).
  rewrite ivSet_fits in Hset.
  2:{ cbn [encrypter]. rewrite Hiv. unfold len.
      pose proof (length_lastBlock (truncated (encrypter w) plaintext)). lia. }
  injection Hset as _ <-.
  apply bind_returned in H as (? & w4 & Hw & H).
  apply write_returned in Hw as (He & Hc).
  apply hmacUpdate_returned in H as (_ & ->).
  cbv zeta. repeat split; try assumption.
  simpl. rewrite He. reflexivity.
Qed.

Lemma hmacDigest_returned (w w' : World) (tag : list byte) :
  hmacDigest w = (Returned tag, w') ->
  tag = tagOf (encrypter w) /\ w' = digested w.
Proof.
  intros H. world w. unfold hmacDigest, bind, getEncrypter in H. simpl in H.
  destruct finalized0; try discriminate. injection H as <- <-. auto.
Qed.

Lemma finish_returned (tail : list byte) (w w' : World) (r : unit) :
  finish (Some tail) w = (Returned r, w') ->
  let e := encrypter w in
  let ct := aesCbc (rawKey (aesKey e)) (iv e) tail in
  len (iv e) = 16 /\
  chunks (dst w')
  = chunks (dst w) ++ [ct; tagOf (encrypter (fed ct w))].
Proof.
  unfold finish. intros H.
  apply bind_returned in H as (e & w1 & He & H). injection He as <- <-.
  apply bind_returned in H as (raw & w2 & Hraw & H).
  unfold subtleEncrypt in Hraw.
  destruct (len (iv (encrypter w)) =? 16) eqn:Hiv; [|discriminate].
  apply Z.eqb_eq in Hiv. injection Hraw as <- <-.
  apply bind_returned in H as (? & w3 & Hw & H).
  apply write_returned in Hw as (He & Hc).
  apply bind_returned in H as (? & w4 & Hu & H).
  apply hmacUpdate_returned in Hu as (_ & ->).
  apply bind_returned in H as (tag & w5 & Hd & H).
  apply hmacDigest_returned in Hd as (-> & ->).
  apply write_returned in H as (_ & Hc').
  cbv zeta. split; [assumption|].
  rewrite Hc'. simpl. rewrite Hc, He. simpl. rewrite <- app_assoc.
  reflexivity.
Qed.

(** *** The non-final call *)

(** C10: a non-final call whose plaintext is not a whole number of 16-byte
    blocks throws the alignment error and leaves the world as it was: nothing
    is written, the chaining value and the HMAC are untouched, and the cipher
    primitive has not been called. *)
Theorem encrypt_unaligned_atomic (plaintext : list byte) (w : World) :
  Z.rem (len plaintext) 16 <> 0 ->
  encrypt plaintext w = (Thrown (AlignmentError NonFinalBlock), w).
Proof.
  intros H. unfold encrypt.
  destruct (Z.rem (len plaintext) 16 =? 0) eqn:E.
  - apply Z.eqb_eq in E. contradiction.
  - reflexivity.
Qed.

Lemma encrypt_sink (plaintext : list byte) (w : World) :
  let e := encrypter w in
  let raw := aesCbc (rawKey (aesKey e)) (iv e) plaintext in
  aligned16 plaintext -> len (iv e) = 16 -> len raw = len plaintext + 16 ->
  dst (snd (encrypt plaintext w))
  = dst (snd (write (firstn (length plaintext) raw) w)).
Proof.
  intros e raw Ha Hiv Hraw. subst e raw.
  unfold encrypt. apply rem_aligned in Ha. rewrite Ha. clear Ha. simpl.
  unfold bind at 1. unfold getEncrypter.
  unfold bind at 1. unfold subtleEncrypt. rewrite Hiv. simpl.
  rewrite Hraw, Z.eqb_refl. simpl.
  replace (len plaintext + 16 - 16) with (len plaintext) by lia.
  rewrite subarray_prefix by (pose proof (len_nonneg plaintext); lia).
  assert (Hl : Z.to_nat (len plaintext) = length plaintext)
    by apply Nat2Z.id.
  rewrite Hl.
  fold (truncated (encrypter w) plaintext).
  fold (lastBlock (truncated (encrypter w) plaintext)).
  unfold bind at 1. rewrite ivSet_fits.
  2:{ cbn [encrypter]. rewrite Hiv. unfold len.
      pose proof (length_lastBlock (truncated (encrypter w) plaintext)). lia. }
  generalize (truncated (encrypter w) plaintext) as ct.
  generalize (overwrite (iv (encrypter w))) as f.
  clear. intros f ct.
  destruct w as [[[hk msg fin] i k] src [ch st lk cc bd cf] n].
  destruct st, bd as [[|b]|], fin; reflexivity.
Qed.

(** C3: a non-final call throws the alignment error on a plaintext that is
    not a whole number of blocks; otherwise it throws the integrity error
    unless the one-shot primitive returned 16 bytes more than the plaintext;
    otherwise the one write it makes to the sink is the output of the
    primitive without its last 16 bytes. *)
Theorem encrypt_nonfinal (plaintext : list byte) (w : World) :
  let e := encrypter w in
  let raw := aesCbc (rawKey (aesKey e)) (iv e) plaintext in
  let ct := firstn (length plaintext) raw in
  len (iv e) = 16 ->
  (Z.rem (len plaintext) 16 <> 0 ->
   fst (encrypt plaintext w) = Thrown (AlignmentError NonFinalBlock)) /\
  (Z.rem (len plaintext) 16 = 0 -> len raw <> len plaintext + 16 ->
   fst (encrypt plaintext w) = Thrown IntegrityError) /\
  (Z.rem (len plaintext) 16 = 0 -> len raw = len plaintext + 16 ->
   raw = ct ++ skipn (length plaintext) raw /\
   length ct = length plaintext /\
   length (skipn (length plaintext) raw) = 16%nat /\
   dst (snd (encrypt plaintext w)) = dst (snd (write ct w)) /\
   (finalized (hmac e) = false ->
    state (dst w) = Writable -> budget (dst w) = None ->
    fst (encrypt plaintext w) = Returned tt /\
    chunks (dst (snd (encrypt plaintext w))) = chunks (dst w) ++ [ct])).
Proof.
  intros e raw ct Hiv. repeat split.
  - intros H. unfold encrypt.
    destruct (Z.rem (len plaintext) 16 =? 0) eqn:E; [|reflexivity].
    apply Z.eqb_eq in E. contradiction.
  - intros Ha Hraw. unfold encrypt. rewrite Ha. simpl.
    unfold bind at 1. unfold getEncrypter.
    unfold bind at 1. unfold subtleEncrypt. fold e. rewrite Hiv. simpl.
    fold raw. destruct (len raw =? len plaintext + 16) eqn:E.
    + apply Z.eqb_eq in E. contradiction.
    + reflexivity.
  - symmetry. apply firstn_skipn.
  - subst ct. rewrite length_firstn. unfold len in *. lia.
  - rewrite length_skipn. unfold len in *. lia.
  - apply encrypt_sink; try assumption. now apply rem_aligned.
  - rewrite encrypt_healthy; try assumption; [reflexivity | now apply rem_aligned].
  - rewrite encrypt_healthy; try assumption; [reflexivity | now apply rem_aligned].
Qed.

(** *** Sessions *)

(** The chunks that the non-final calls of a session emit, and the chaining
    value they leave. *)
Fixpoint emittedBy (key iv_ : list byte) (plaintexts : list (list byte))
    : list (list byte) * list byte :=
  match plaintexts with
  | [] => ([], iv_)
  | plaintext :: rest =>
      let ct := firstn (length plaintext) (aesCbc key iv_ plaintext) in
      let res := emittedBy key (overwrite iv_ (lastBlock ct)) rest in
      (ct :: fst res, snd res)
  end.

Lemma length_emittedBy (key : list byte) (plaintexts : list (list byte)) :
  forall iv_, length (fst (emittedBy key iv_ plaintexts)) = length plaintexts.
Proof.
  induction plaintexts as [|p rest IH]; intros iv_; simpl;
    [reflexivity | now rewrite IH].
Qed.

Lemma encryptAll_returned (plaintexts : list (list byte)) :
  forall (w w' : World) (r : unit),
  encryptAll plaintexts w = (Returned r, w') ->
  let e := encrypter w in
  let res := emittedBy (rawKey (aesKey e)) (iv e) plaintexts in
  Forall aligned16 plaintexts /\
  (plaintexts <> [] -> len (iv e) = 16) /\
  chunks (dst w') = chunks (dst w) ++ fst res /\
  encrypter w'
  = mkEncrypter
      (mkHmac (hmacKey (hmac e)) (message (hmac e) ++ concat (fst res))
         (finalized (hmac e)))
      (snd res) (aesKey e).
Proof.
  induction plaintexts as [|p rest IH]; intros w w' r H; simpl in H.
  - injection H as _ <-. simpl. rewrite !app_nil_r.
    split; [constructor|]. split; [congruence|]. split; [reflexivity|].
    destruct (encrypter w) as [[? ? ?] ? ?]. reflexivity.
  - apply bind_returned in H as (? & w1 & Hp & H).
    apply encrypt_returned in Hp as (Ha & Hiv & Hraw & He & Hc).
    apply IH in H as (Hall & _ & Hc' & He').
    rewrite He in He', Hc'. rewrite Hc in Hc'. simpl in He', Hc'.
    cbv zeta. simpl.
    split; [constructor; assumption|]. split; [intros _; assumption|]. split.
    + rewrite Hc', <- app_assoc. reflexivity.
    + rewrite He'. unfold truncated. rewrite <- app_assoc. reflexivity.
Qed.

Lemma session_returned (plaintexts : list (list byte)) (tail : list byte)
    (w w' : World) (r : unit) :
  session plaintexts tail w = (Returned r, w') ->
  let e := encrypter w in
  let res := emittedBy (rawKey (aesKey e)) (iv e) plaintexts in
  let cts := fst res ++ [aesCbc (rawKey (aesKey e)) (snd res) tail] in
  Forall aligned16 plaintexts /\
  len (snd res) = 16 /\
  chunks (dst w')
  = chunks (dst w) ++ [iv e] ++ cts
    ++ [bytesOfN 32
          (hmacSha256 (hmacKey (hmac e))
             (message (hmac e) ++ iv e ++ concat cts))].
Proof.
  unfold session. intros H.
  apply bind_returned in H as (? & w1 & Hi & H).
  apply init_returned in Hi as (He1 & Hc1).
  apply bind_returned in H as (? & w2 & Hall & H).
  apply encryptAll_returned in Hall as (Ha & _ & Hc2 & He2).
  apply finish_returned in H as (Hiv & Hc3).
  rewrite He1 in He2, Hc2. simpl in He2, Hc2.
  unfold tagOf in Hc3. simpl in Hc3.
  rewrite He2 in Hc3, Hiv. simpl in Hc3, Hiv.
  cbv zeta. split; [assumption|]. split; [assumption|].
  rewrite Hc3, Hc2, Hc1. simpl.
  rewrite concat_app. simpl. rewrite app_nil_r, <- !app_assoc. reflexivity.
Qed.

Lemma create_returned (iv_ hmacKey_ aesKey_ : list byte) (e : Encrypter) :
  Encrypter_create iv_ hmacKey_ aesKey_ = Returned e ->
  len iv_ = 16 /\
  e = mkEncrypter (mkHmac hmacKey_ [] false) iv_ (mkCryptoKey aesKey_).
Proof.
  unfold Encrypter_create, importKey, Encrypter_new. intros H.
  destruct ((len aesKey_ =? 16) || (len aesKey_ =? 24) || (len aesKey_ =? 32));
    [|discriminate].
  destruct (len iv_ =? 16) eqn:E; [|discriminate]. simpl in H.
  apply Z.eqb_eq in E. rewrite set_whole in H by (rewrite E; reflexivity).
  injection H as <-. auto.
Qed.

(** C5: in a session of an encrypter made by [create] that ran to the end,
    the last write is the 32-byte HMAC-SHA-256, under the MAC key, of the
    initialisation vector followed by every ciphertext chunk that the session
    wrote, in the order of the writes; those are all the writes of the session
    before the tag. *)
Theorem session_tag (iv_ hmacKey_ aesKey_ : list byte) (e : Encrypter)
    (plaintexts : list (list byte)) (tail : list byte) (w w' : World) :
  Encrypter_create iv_ hmacKey_ aesKey_ = Returned e ->
  encrypter w = e ->
  session plaintexts tail w = (Returned tt, w') ->
  exists (cts : list (list byte)) (tag : list byte),
    chunks (dst w') = chunks (dst w) ++ [iv_] ++ cts ++ [tag] /\
    length cts = S (length plaintexts) /\
    tag = bytesOfN 32 (hmacSha256 hmacKey_ (iv_ ++ concat cts)) /\
    length tag = 32%nat /\
    skipn (length (written (dst w')) - 32) (written (dst w')) = tag.
Proof.
  intros Hc He H. apply create_returned in Hc as (Hiv & ->).
  apply session_returned in H as (_ & _ & Hch).
  rewrite He in Hch. simpl in Hch.
  eexists. eexists. split; [exact Hch|].
  split; [rewrite length_app, length_emittedBy; simpl; lia|].
  split; [reflexivity|]. split; [apply length_bytesOfN|].
  unfold written. rewrite Hch.
  change (iv_ :: ?l) with ([iv_] ++ l). rewrite !app_assoc, concat_app.
  cbn [concat]. rewrite app_nil_r.
  match goal with |- skipn (_ - 32) (_ ++ ?t) = _ =>
    rewrite <- (length_bytesOfN 32 (hmacSha256 hmacKey_
                  (iv_ ++ concat (fst (emittedBy aesKey_ iv_ plaintexts)
                     ++ [aesCbc aesKey_
                           (snd (emittedBy aesKey_ iv_ plaintexts)) tail]))))
      at 1
  end.
  apply skipn_last.
Qed.

(** *** The buffer size *)

(** C7: when the buffer size, after the default has been applied, is not a
    multiple of 16, [streamEncrypt] throws the alignment error and the world
    is as it was: no read was made on the source, no writer was acquired and
    nothing, not even the initialisation vector, was written.  Every integer
    argument that is not a multiple of 16, and every argument that is not an
    integer, is such a buffer size. *)
Theorem streamEncrypt_bufferSize_rejected (w : World) :
  (forall bufferSize,
     notMultipleOf16 (orDefault bufferSize) = true ->
     streamEncrypt bufferSize w = (Thrown (AlignmentError BufferSize), w)) /\
  (forall z, Z.rem z 16 <> 0 ->
     streamEncrypt (Some (Int z)) w = (Thrown (AlignmentError BufferSize), w)) /\
  streamEncrypt (Some NotInteger) w = (Thrown (AlignmentError BufferSize), w).
Proof.
  assert (G : forall bufferSize,
             notMultipleOf16 (orDefault bufferSize) = true ->
             streamEncrypt bufferSize w
             = (Thrown (AlignmentError BufferSize), w)).
  { intros b H. unfold streamEncrypt. cbv zeta. now rewrite H. }
  split; [|split].
  - exact G.
  - intros z Hz. apply G.
    destruct z; simpl; try (exfalso; apply Hz; reflexivity);
      apply negb_true_iff, Z.eqb_neq; exact Hz.
  - apply G. reflexivity.
Qed.

End Calls.

(** ** The length law *)

Lemma MAX_PLAINTEXT_LENGTH_value :
  MAX_PLAINTEXT_LENGTH = 9007199254740927 /\
  MAX_PLAINTEXT_LENGTH = MAX_SAFE_INTEGER - 64.
Proof. split; reflexivity. Qed.

Lemma ceilDiv16_spec (a : Z) :
  16 * (ceilDiv a 16 - 1) < a <= 16 * ceilDiv a 16.
Proof. unfold ceilDiv. lia. Qed.

Lemma ceilDiv16_succ (L : Z) : ceilDiv (L + 1) 16 = L / 16 + 1.
Proof. unfold ceilDiv. lia. Qed.

Lemma encryptedLength_returns (e : Encrypter) (L : Z) :
  len (iv e) = 16 -> L <= MAX_SAFE_INTEGER - 64 ->
  encryptedLength e L = Returned (16 + 16 * ceilDiv (L + 1) 16 + 32).
Proof.
  intros Hiv HL. unfold encryptedLength. rewrite Hiv.
  destruct MAX_PLAINTEXT_LENGTH_value as (_ & Hv). rewrite Hv.
  destruct (Z.gtb_spec L (MAX_SAFE_INTEGER - 64)); [lia|].
  f_equal. lia.
Qed.

(** C6: [encryptedLength] throws the overflow error exactly for a length
    above [MAX_SAFE_INTEGER - 64], whatever the formula would give; for every
    other length it returns [16 + 16 * ceil((L + 1) / 16) + 32], and for a
    length from 0 every number that the formula goes through is a safe
    integer. *)
Theorem encryptedLength_guard (e : Encrypter) (L : Z) :
  len (iv e) = 16 ->
  (encryptedLength e L = Thrown LengthOverflow
   <-> L > MAX_SAFE_INTEGER - 32 - 16 - 16) /\
  (L <= MAX_SAFE_INTEGER - 64 ->
   encryptedLength e L = Returned (16 + 16 * ceilDiv (L + 1) 16 + 32)) /\
  (0 <= L <= MAX_SAFE_INTEGER - 64 ->
   let numBlocks := ceilDiv (L + 1) 16 in
   16 * (numBlocks - 1) < L + 1 <= 16 * numBlocks /\
   0 <= L + 1 <= MAX_SAFE_INTEGER /\
   0 <= numBlocks <= MAX_SAFE_INTEGER /\
   0 <= numBlocks * 16 <= MAX_SAFE_INTEGER /\
   0 <= len (iv e) + numBlocks * 16 <= MAX_SAFE_INTEGER /\
   0 <= len (iv e) + numBlocks * 16 + 32 <= MAX_SAFE_INTEGER).
Proof.
  intros Hiv. unfold encryptedLength. rewrite Hiv.
  destruct MAX_PLAINTEXT_LENGTH_value as (Hv & _).
  assert (Hs : MAX_SAFE_INTEGER = 9007199254740991) by reflexivity.
  rewrite Hv, Hs.
  destruct (L >? 9007199254740927) eqn:E.
  - apply Z.gtb_lt in E. repeat split; try lia.
  - assert (L <= 9007199254740927)
      by (destruct (Z.gtb_spec L 9007199254740927); [discriminate | lia]).
    pose proof (ceilDiv16_spec (L + 1)).
    repeat split; try lia; try discriminate.
    intros _. f_equal. lia.
Qed.

(** ** Sessions over CBC *)

Lemma aligned16_concat (plaintexts : list (list byte)) :
  Forall aligned16 plaintexts -> aligned16 (concat plaintexts).
Proof.
  unfold aligned16. induction 1 as [|p rest Hp _ IH]; simpl.
  - reflexivity.
  - rewrite length_app. lia.
Qed.

Section CbcSessions.

Variable blockCipher : list byte -> N -> N.
Variable hmacFn : list byte -> list byte -> N.
Variable maxLen : Z.

Local Abbreviation cbc := (cbcPlatform blockCipher hmacFn maxLen).
Local Abbreviation run := (cbcRun blockCipher).

Lemma cbc_raw_len (key iv_ plaintext : list byte) :
  length iv_ = 16%nat -> aligned16 plaintext ->
  len (aesCbcEncrypt blockCipher key iv_ plaintext) = len plaintext + 16.
Proof.
  intros Hiv Ha. unfold len, aligned16 in *.
  rewrite length_aesCbc by assumption. lia.
Qed.

Lemma cbc_truncated (key iv_ plaintext : list byte) :
  length iv_ = 16%nat -> aligned16 plaintext ->
  firstn (length plaintext) (aesCbcEncrypt blockCipher key iv_ plaintext)
  = outOf (run key iv_ plaintext).
Proof.
  intros Hiv Ha. rewrite aesCbc_aligned by assumption.
  destruct (run_aligned blockCipher key iv_ plaintext Hiv Ha) as (_ & Hl & _).
  rewrite firstn_app, <- Hl, firstn_all, Nat.sub_diag.
  simpl. apply app_nil_r.
Qed.

Lemma cbc_next_iv (key iv_ plaintext : list byte) :
  length iv_ = 16%nat -> aligned16 plaintext ->
  overwrite iv_ (lastBlock (outOf (run key iv_ plaintext)))
  = chainOf (run key iv_ plaintext).
Proof.
  intros Hiv Ha.
  destruct (run_aligned blockCipher key iv_ plaintext Hiv Ha) as (_ & Hl & Hc).
  destruct plaintext as [|b rest] eqn:E.
  - reflexivity.
  - rewrite <- E in *.
    assert (Hne : plaintext <> []) by (rewrite E; discriminate).
    assert (16 <= length plaintext)%nat
      by (unfold aligned16 in Ha; rewrite E in *; simpl in *; lia).
    rewrite lastBlock_skipn by lia.
    rewrite Hl, <- chain_last by assumption.
    apply overwrite_whole. lia.
Qed.

Lemma emittedBy_cbc (key : list byte) (plaintexts : list (list byte)) :
  Forall aligned16 plaintexts ->
  forall iv_, length iv_ = 16%nat ->
  let res := emittedBy (platform := cbc) key iv_ plaintexts in
  concat (fst res) = outOf (run key iv_ (concat plaintexts)) /\
  snd res = chainOf (run key iv_ (concat plaintexts)).
Proof.
  induction 1 as [|p rest Hp _ IH]; intros iv_ Hiv; simpl.
  - split; reflexivity.
  - rewrite cbc_truncated, cbc_next_iv by assumption.
    destruct (run_aligned blockCipher key iv_ p Hiv Hp) as (_ & _ & Hc).
    destruct (IH _ Hc) as (IHo & IHc).
    rewrite run_app_aligned by assumption.
    cbv zeta. unfold outOf at 2, chainOf at 2. simpl.
    rewrite IHo, IHc. split; reflexivity.
Qed.

Lemma session_cbc (plaintexts : list (list byte)) (tail : list byte)
    (w w' : World) :
  length (iv (encrypter w)) = 16%nat ->
  session (platform := cbc) plaintexts tail w = (Returned tt, w') ->
  let e := encrypter w in
  exists cts,
    chunks (dst w')
    = chunks (dst w) ++ [iv e] ++ cts
      ++ [bytesOfN 32
            (hmacFn (hmacKey (hmac e))
               (message (hmac e) ++ iv e ++ concat cts))] /\
    length cts = S (length plaintexts) /\
    concat cts
    = aesCbcEncrypt blockCipher (rawKey (aesKey e)) (iv e)
        (concat plaintexts ++ tail).
Proof.
  intros Hiv H. apply session_returned in H as (Ha & _ & Hch).
  cbv zeta. eexists. split; [exact Hch|].
  split; [rewrite length_app, length_emittedBy; simpl; lia|].
  destruct (emittedBy_cbc (rawKey (aesKey (encrypter w))) plaintexts Ha
              (iv (encrypter w)) Hiv) as (Ho & Hc).
  rewrite concat_app, Ho, Hc. cbn [concat]. rewrite app_nil_r.
  symmetry. apply aesCbc_app_aligned; [assumption|].
  now apply aligned16_concat.
Qed.

(** C4, as amended: the chaining value of an encrypter made by [create] is
    the caller's initialisation vector; a non-final call that returned has
    written one chunk of ciphertext, as long as its plaintext, and the
    chaining value is then the last 16 bytes of that chunk when the plaintext
    was not empty, and is unchanged when it was empty; and the ciphertext
    chunks of a session that ran to the end, put together, are the one-shot
    AES-CBC encryption, under the caller's initialisation vector, of the
    plaintexts put together. *)
Theorem chaining_value_invariant :
  (forall iv_ hmacKey_ aesKey_ e,
     Encrypter_create iv_ hmacKey_ aesKey_ = Returned e ->
     iv e = iv_ /\ length (iv e) = 16%nat) /\
  (forall plaintext w w',
     encrypt (platform := cbc) plaintext w = (Returned tt, w') ->
     exists ct,
       chunks (dst w') = chunks (dst w) ++ [ct] /\
       length ct = length plaintext /\
       length (iv (encrypter w')) = 16%nat /\
       (plaintext <> [] -> iv (encrypter w') = skipn (length ct - 16) ct) /\
       (plaintext = [] -> iv (encrypter w') = iv (encrypter w))) /\
  (forall iv_ hmacKey_ aesKey_ e plaintexts tail w w',
     Encrypter_create iv_ hmacKey_ aesKey_ = Returned e ->
     encrypter w = e ->
     session (platform := cbc) plaintexts tail w = (Returned tt, w') ->
     exists cts tag,
       chunks (dst w') = chunks (dst w) ++ [iv_] ++ cts ++ [tag] /\
       length cts = S (length plaintexts) /\
       concat cts
       = aesCbcEncrypt blockCipher aesKey_ iv_ (concat plaintexts ++ tail)).
Proof.
  split; [|split].
  - intros iv_ hk ak e H. apply create_returned in H as (Hiv & ->).
    simpl. unfold len in Hiv. split; [reflexivity | lia].
  - intros p w w' H.
    apply encrypt_returned in H as (Ha & Hiv & Hraw & He & Hc).
    eexists. split; [exact Hc|].
    match type of Hc with _ = _ ++ [?c] => set (ct := c) in * end.
    assert (Hl : length ct = length p).
    { subst ct. unfold truncated. rewrite length_firstn. unfold len in Hraw.
      simpl in *. lia. }
    assert (Hiv' : length (iv (encrypter w)) = 16%nat)
      by (unfold len in Hiv; lia).
    rewrite He. cbn [encrypted fed wrote chained called encrypter iv].
    fold ct.
    pose proof (length_lastBlock ct) as Hb.
    split; [exact Hl|]. split; [|split].
    + unfold overwrite. rewrite length_app, length_skipn. lia.
    + intros Hne.
      assert (16 <= length p)%nat
        by (destruct p; [congruence | unfold aligned16 in Ha; simpl in *; lia]).
      rewrite lastBlock_skipn by lia.
      apply overwrite_whole. rewrite length_skipn. lia.
    + intros ->. subst ct. unfold truncated. reflexivity.
  - intros iv_ hk ak e ps t w w' Hc He H.
    apply create_returned in Hc as (Hiv & ->).
    apply session_cbc in H; [|rewrite He; unfold len in Hiv; simpl; lia].
    rewrite He in H. simpl in H. destruct H as (cts & Hch & Hl & Hcc).
    exists cts. eexists. split; [exact Hch|]. split; assumption.
Qed.

End CbcSessions.

(** ** Every path of [streamEncrypt]

    Whatever the source, the sink and the primitive do, a call stops, never
    closes the sink but in its [finally], and never takes back a write. *)

(** The sink in [w'] holds the writes it held in [w], and as many calls of
    [close]. *)
Definition grown (w w' : World) : Prop :=
  closeCalls (dst w') = closeCalls (dst w) /\
  exists more, chunks (dst w') = chunks (dst w) ++ more.

(** The same, and the source has not been read. *)
Definition steady (w w' : World) : Prop :=
  source w' = source w /\ grown w w'.

(** [m] stops, and relates the world it leaves to the one it found by [R]. *)
Definition total {A} (R : World -> World -> Prop) (m : M A) : Prop :=
  forall w, fst (m w) <> Diverged /\ R w (snd (m w)).

Lemma grown_refl (w : World) : grown w w.
Proof. split; [reflexivity | exists []; now rewrite app_nil_r]. Qed.

Lemma grown_trans (w1 w2 w3 : World) : grown w1 w2 -> grown w2 w3 -> grown w1 w3.
Proof.
  intros (Hc & m & Hm) (Hc' & m' & Hm'). split; [congruence|].
  exists (m ++ m'). now rewrite Hm', Hm, app_assoc.
Qed.

Lemma steady_refl (w : World) : steady w w.
Proof. split; [reflexivity | apply grown_refl]. Qed.

Lemma steady_trans (w1 w2 w3 : World) :
  steady w1 w2 -> steady w2 w3 -> steady w1 w3.
Proof.
  intros (Hs & Hg) (Hs' & Hg'). split; [congruence|].
  eapply grown_trans; eassumption.
Qed.

Lemma grown_same (w w' : World) : dst w' = dst w -> grown w w'.
Proof.
  intros Hd. unfold grown. rewrite Hd.
  split; [reflexivity | exists []; now rewrite app_nil_r].
Qed.

Lemma steady_same (w w' : World) :
  source w' = source w -> dst w' = dst w -> steady w w'.
Proof.
  intros Hs Hd. split; [assumption|]. unfold grown. rewrite Hd.
  split; [reflexivity | exists []; now rewrite app_nil_r].
Qed.

Lemma steady_grown (w w' : World) : steady w w' -> grown w w'.
Proof. now intros (_ & H). Qed.

Section Paths.

Context {platform : Platform}.

Variable R : World -> World -> Prop.
Hypothesis R_refl : forall w, R w w.
Hypothesis R_trans : forall w1 w2 w3, R w1 w2 -> R w2 w3 -> R w1 w3.

Lemma total_ret {A} (a : A) : total R (ret a).
Proof. intros w. split; [discriminate | apply R_refl]. Qed.

Lemma total_throw {A} (e : error) : total R (@throw A e).
Proof. intros w. split; [discriminate | apply R_refl]. Qed.

Lemma total_bind {A B} (m : M A) (k : A -> M B) :
  total R m -> (forall a, total R (k a)) -> total R (bind m k).
Proof.
  intros Hm Hk w. unfold bind. specialize (Hm w).
  destruct (m w) as [[a| |] w1]; simpl in Hm; destruct Hm as (Hd & Hr).
  - destruct (Hk a w1) as (Hd' & Hr'). split; [assumption|].
    eapply R_trans; eassumption.
  - split; [discriminate | assumption].
  - contradiction.
Qed.

End Paths.

Section PathsOfCalls.

Context {platform : Platform}.

Ltac world w :=
  destruct w as [[[? ? ?] ? ?] [? ? ?] [? ? ? ? ? ?] ?]; simpl in *.

Lemma total_write (chunk : list byte) : total steady (write chunk).
Proof.
  intros w. world w.
  destruct state0; [destruct budget0 as [[|n]|] | |]; simpl;
    (split; [discriminate|]); (split; [reflexivity|]);
    (split; [reflexivity|]); simpl;
    try (exists [chunk]; reflexivity); exists []; now rewrite app_nil_r.
Qed.

Lemma total_hmacUpdate (data : list byte) : total steady (hmacUpdate data).
Proof.
  intros w. world w. destruct finalized0; simpl;
    (split; [discriminate | apply steady_same; reflexivity]).
Qed.

Lemma total_hmacDigest : total steady hmacDigest.
Proof.
  intros w. world w. destruct finalized0; simpl;
    (split; [discriminate | apply steady_same; reflexivity]).
Qed.

Lemma total_ivSet (src : list byte) : total steady (ivSet src).
Proof.
  intros w. unfold ivSet, bind, getEncrypter.
  destruct (set (iv (encrypter w)) src 0); simpl;
    (split; [discriminate | apply steady_same; reflexivity]).
Qed.

Lemma total_getEncrypter : total steady getEncrypter.
Proof. intros w. split; [discriminate | apply steady_refl]. Qed.

Lemma total_subtleEncrypt (iv_ : list byte) (key : CryptoKey)
    (data : option (list byte)) :
  total steady (subtleEncrypt iv_ key data).
Proof.
  intros w. unfold subtleEncrypt.
  destruct data; [destruct (len iv_ =? 16)|]; simpl;
    (split; [discriminate | apply steady_same; reflexivity]).
Qed.

Create HintDb paths.

Local Hint Resolve steady_refl steady_trans total_write total_hmacUpdate
  total_hmacDigest total_ivSet total_getEncrypter total_subtleEncrypt
  : paths.

Ltac paths :=
  repeat first
    [ solve [auto with paths]
    | apply total_ret; apply steady_refl
    | apply total_throw; apply steady_refl
    | apply total_bind; [apply steady_trans | | intros ?] ].


Lemma total_encrypt (plaintext : list byte) : total steady (encrypt plaintext).
Proof.
  unfold encrypt.
  destruct (negb (Z.rem (len plaintext) 16 =? 0)); [paths|].
  apply total_bind; [apply steady_trans | paths |].
  intros e.
  apply total_bind; [apply steady_trans | paths |].
  intros raw. destruct (negb (len raw =? len plaintext + 16)); paths.
Qed.


(** The loop over one chunk stops within its fuel, and leaves the buffer at
    its size and the offset inside it. *)
Lemma doWhile_total (fuel : nat) :
  forall (chunk plaintext : list byte) (offset : Z) (w : World),
  (length chunk < fuel)%nat -> 0 <= offset < len plaintext ->
  let r := doWhile fuel chunk plaintext offset w in
  fst r <> Diverged /\ steady w (snd r) /\
  forall plaintext' offset',
    fst r = Returned (plaintext', offset') ->
    len plaintext' = len plaintext /\ 0 <= offset' < len plaintext'.
Proof.
  induction fuel as [|fuel IH]; intros chunk buf off w Hf Ho; [lia|].
  intros r. assert (E : r = doWhile (S fuel) chunk buf off w) by reflexivity.
  clearbody r. cbn [doWhile] in E. cbv zeta in E.
  pose proof (len_nonneg chunk) as Hc.
  set (amt := Z.min (len buf - off) (len chunk)) in E.
  assert (Ha : 0 <= amt <= len chunk /\ off + amt <= len buf) by lia.
  rewrite subarray_prefix in E by lia.
  destruct (set buf (firstn (Z.to_nat amt) chunk) off) as [buf1|] eqn:Hset.
  2:{ rewrite set_fits in Hset by (rewrite ?len_firstn; lia). discriminate. }
  apply len_set in Hset.
  unfold bind at 1 in E.
  destruct (off + amt =? len buf1) eqn:Hfull.
  - apply Z.eqb_eq in Hfull. unfold bind at 1 in E.
    destruct (total_encrypt buf1 w) as (Hd & Hs).
    destruct (encrypt buf1 w) as [[u| |] w1]; simpl in Hd, Hs;
      [| subst r; cbn; split; [discriminate|]; split; [assumption|];
         intros ? ? Hr; discriminate
       | contradiction].
    cbn [ret] in E.
    destruct (amt <? len chunk) eqn:Hmore.
    + apply Z.ltb_lt in Hmore.
      rewrite subarrayFrom_suffix in E by lia.
      specialize (IH (skipn (Z.to_nat amt) chunk) buf1 0 w1).
      cbv zeta in IH. rewrite <- E in IH.
      destruct IH as (Hd' & Hs' & Hp');
        [rewrite length_skipn; unfold len in *; lia | lia |].
      split; [assumption|]. split; [eapply steady_trans; eassumption|].
      intros b' o' Hr. rewrite <- Hset. now apply Hp'.
    + subst r. cbn. split; [discriminate|]. split; [assumption|].
      intros b' o' Hr. injection Hr as <- <-. lia.
  - apply Z.eqb_neq in Hfull. cbn [ret] in E.
    destruct (amt <? len chunk) eqn:Hmore.
    + apply Z.ltb_lt in Hmore. lia.
    + subst r. cbn. split; [discriminate|]. split; [apply steady_refl|].
      intros b' o' Hr. injection Hr as <- <-. lia.
Qed.

Lemma total_next : total grown next.
Proof.
  intros w. unfold next.
  destruct (pending (source w)); [destruct (failsAtEnd (source w))|];
    simpl; (split; [discriminate | apply grown_same; reflexivity]).
Qed.

(** The loop over the source stops within its fuel. *)
Lemma forAwait_total (fuel : nat) :
  forall (plaintext : list byte) (offset : Z) (w : World),
  (length (pending (source w)) < fuel)%nat -> 0 <= offset < len plaintext ->
  let r := forAwait fuel plaintext offset w in
  fst r <> Diverged /\ grown w (snd r) /\
  forall plaintext' offset',
    fst r = Returned (plaintext', offset') ->
    len plaintext' = len plaintext /\ 0 <= offset' < len plaintext'.
Proof.
  induction fuel as [|fuel IH]; intros buf off w Hf Ho; [lia|].
  intros r. assert (E : r = forAwait (S fuel) buf off w) by reflexivity.
  clearbody r. cbn [forAwait] in E. unfold bind at 1 in E. unfold next in E.
  destruct (pending (source w)) as [|chunk rest] eqn:Hp.
  - destruct (failsAtEnd (source w)); subst r; cbn;
      (split; [discriminate|]); (split; [apply grown_same; reflexivity|]);
      intros b' o' Hr; [discriminate|]. injection Hr as <- <-. lia.
  - set (w1 := mkWorld _ _ _ _) in E.
    unfold bind at 1 in E.
    pose proof (doWhile_total (S (length chunk)) chunk buf off w1) as Hdo.
    cbv zeta in Hdo. destruct Hdo as (Hd & Hs & Hpost); [lia | lia |].
    assert (Hg1 : grown w w1) by (subst w1; apply grown_same; reflexivity).
    destruct (doWhile (S (length chunk)) chunk buf off w1) as [[st| |] w2];
      simpl in Hd, Hs;
      [| subst r; cbn; split; [discriminate|]; split;
         [apply steady_grown in Hs; eapply grown_trans; eassumption
         | intros ? ? Hr; discriminate]
       | contradiction].
    destruct st as [buf2 off2]. destruct (Hpost buf2 off2 eq_refl) as (Hl & Ho2).
    specialize (IH buf2 off2 w2). cbv zeta in IH.
    cbn [fst snd] in E. rewrite <- E in IH.
    destruct Hs as (Hsrc & Hg).
    destruct IH as (Hd' & Hg' & Hp');
      [rewrite Hsrc; subst w1; simpl in *; lia | lia |].
    split; [assumption|]. split.
    + eapply grown_trans; [|exact Hg']. eapply grown_trans; eassumption.
    + intros b' o' Hr. rewrite <- Hl. now apply Hp'.
Qed.

Lemma orDefault_nonzero (bufferSize : option number) (z : Z) :
  orDefault bufferSize = Int z -> z <> 0.
Proof.
  destruct bufferSize as [[[| |]| |]|]; simpl; intros H; try discriminate;
    injection H as <-; discriminate.
Qed.




End PathsOfCalls.

(** ** [streamEncrypt] over CBC *)

Section CbcStream.

Variable blockCipher : list byte -> N -> N.
Variable hmacFn : list byte -> list byte -> N.
Variable maxLen : Z.

Local Abbreviation cbc := (cbcPlatform blockCipher hmacFn maxLen).
Local Abbreviation run := (cbcRun blockCipher).

(** What the session started from: the cipher key, the MAC key, the
    initialisation vector, the bytes that the HMAC had been fed and the bytes
    that the sink had accepted. *)
Variables (key hk iv0 msg0 wr0 : list byte).
Hypothesis iv0_length : length iv0 = 16%nat.

(** The world of a session that has emitted the initialisation vector and
    the ciphertext of the whole blocks [X], over a sink that takes every
    write. *)
Definition chainedAt (X : list byte) (w : World) : Prop :=
  aligned16 X /\
  encrypter w
  = mkEncrypter (mkHmac hk (msg0 ++ iv0 ++ outOf (run key iv0 X)) false)
      (chainOf (run key iv0 X)) (mkCryptoKey key) /\
  written (dst w) = wr0 ++ iv0 ++ outOf (run key iv0 X) /\
  state (dst w) = Writable /\ budget (dst w) = None.

Lemma aligned16_app (X Y : list byte) :
  aligned16 X -> aligned16 Y -> aligned16 (X ++ Y).
Proof. unfold aligned16. rewrite length_app. lia. Qed.

Lemma encrypt_chained (X plaintext : list byte) (w : World) :
  chainedAt X w -> aligned16 plaintext ->
  exists w',
    encrypt (platform := cbc) plaintext w = (Returned tt, w') /\
    chainedAt (X ++ plaintext) w' /\
    source w' = source w /\
    closeFails (dst w') = closeFails (dst w).
Proof.
  intros (HX & He & Hw & Hs & Hb) Hp.
  destruct (run_aligned blockCipher key iv0 X iv0_length HX) as (_ & _ & Hc).
  exists (encrypted (platform := cbc) plaintext w).
  split.
  { apply encrypt_healthy; try assumption; rewrite He; cbn [iv hmac finalized].
    - unfold len. lia.
    - cbn [aesKey rawKey aesCbc cbc]. now apply cbc_raw_len.
    - reflexivity. }
  assert (Hr : run key iv0 (X ++ plaintext)
               = (chainOf (run key (chainOf (run key iv0 X)) plaintext), [],
                  outOf (run key iv0 X)
                  ++ outOf (run key (chainOf (run key iv0 X)) plaintext))).
  { rewrite run_app_aligned by assumption. cbv zeta.
    destruct (run_aligned blockCipher key _ plaintext Hc Hp) as (Hr & _ & _).
    rewrite Hr. reflexivity. }
  destruct w as [e src d n].
  cbn [encrypter dst source] in *. subst e.
  unfold chainedAt, encrypted, truncated, written in *.
  cbn [iv hmac aesKey rawKey aesCbc cbc cbcPlatform fed wrote chained called
       encrypter dst source hmacKey message finalized state budget closeFails
       chunks].
  rewrite cbc_truncated, cbc_next_iv by assumption.
  rewrite Hr. unfold chainOf, outOf. cbn [fst snd].
  split; [|split; reflexivity].
  split; [now apply aligned16_app|].
  split; [now rewrite <- !app_assoc|].
  split; [|auto].
  rewrite concat_app, Hw. cbn [concat].
  unfold outOf. now rewrite app_nil_r, <- !app_assoc.
Qed.

Lemma aligned16_len (a b : list byte) :
  len a = len b -> aligned16 b -> aligned16 a.
Proof. unfold len, aligned16. intros H. replace (length a) with (length b) by lia. auto. Qed.

(** The loop over one chunk, on a sink that takes every write: the chunk is
    added to the plaintext taken so far, whole buffers are encrypted and the
    rest is staged. *)
Lemma doWhile_chained (fuel : nat) :
  forall (chunk buf : list byte) (off : Z) (w : World) (X : list byte),
  (length chunk < fuel)%nat ->
  chainedAt X w -> 0 <= off < len buf -> aligned16 buf ->
  exists buf' off' w' X',
    doWhile (platform := cbc) fuel chunk buf off w
    = (Returned (buf', off'), w') /\
    chainedAt X' w' /\
    0 <= off' < len buf' /\ len buf' = len buf /\
    X' ++ firstn (Z.to_nat off') buf'
    = X ++ firstn (Z.to_nat off) buf ++ chunk /\
    source w' = source w /\
    closeFails (dst w') = closeFails (dst w).
Proof.
  induction fuel as [|fuel IH]; intros chunk buf off w X Hf Hch Ho Hb; [lia|].
  cbn [doWhile]. cbv zeta.
  pose proof (len_nonneg chunk) as Hc.
  set (amt := Z.min (len buf - off) (len chunk)).
  assert (Ha : 0 <= amt <= len chunk /\ off + amt <= len buf) by lia.
  rewrite subarray_prefix by lia.
  assert (Hla : len (firstn (Z.to_nat amt) chunk) = amt)
    by (apply len_firstn; lia).
  destruct (set_staged buf (firstn (Z.to_nat amt) chunk) off)
    as (buf1 & Hset & Hl1 & Hst & Hfl); [lia | lia |].
  rewrite Hset, Hla in *. clear Hset.
  unfold bind at 1.
  destruct (off + amt =? len buf1) eqn:Hfull.
  - apply Z.eqb_eq in Hfull. rewrite Hl1 in Hfull.
    specialize (Hfl Hfull). unfold bind at 1.
    destruct (encrypt_chained X buf1 w Hch) as (w1 & He & Hch1 & Hs1 & Hc1);
      [now apply (aligned16_len buf1 buf)|].
    rewrite He. cbn [ret].
    destruct (amt <? len chunk) eqn:Hmore.
    + apply Z.ltb_lt in Hmore.
      rewrite subarrayFrom_suffix by lia.
      destruct (IH (skipn (Z.to_nat amt) chunk) buf1 0 w1 (X ++ buf1))
        as (buf' & off' & w' & X' & Hrun & Hch' & Ho' & Hl' & Hx & Hs' & Hc');
        [rewrite length_skipn; unfold len in *; lia | assumption | lia
        | now apply (aligned16_len buf1 buf) |].
      exists buf', off', w', X'.
      split; [assumption|]. split; [assumption|]. split; [assumption|].
      split; [lia|]. split; [|split; congruence].
      rewrite Hx, Hfl. simpl. rewrite <- !app_assoc.
      now rewrite firstn_skipn.
    + apply Z.ltb_ge in Hmore.
      exists buf1, 0, w1, (X ++ buf1).
      split; [reflexivity|]. split; [assumption|]. split; [lia|].
      split; [assumption|]. split; [|split; assumption].
      rewrite Hfl. simpl. rewrite app_nil_r.
      replace (firstn (Z.to_nat amt) chunk) with chunk
        by (symmetry; apply firstn_all2; unfold len in *; lia).
      reflexivity.
  - apply Z.eqb_neq in Hfull. rewrite Hl1 in Hfull. cbn [ret].
    destruct (amt <? len chunk) eqn:Hmore.
    + apply Z.ltb_lt in Hmore. lia.
    + apply Z.ltb_ge in Hmore.
      exists buf1, (off + amt), w, X.
      split; [reflexivity|]. split; [assumption|]. split; [lia|].
      split; [assumption|]. split; [|split; reflexivity].
      rewrite Hst.
      replace (firstn (Z.to_nat amt) chunk) with chunk
        by (symmetry; apply firstn_all2; unfold len in *; lia).
      reflexivity.
Qed.

Lemma chainedAt_same (X : list byte) (w w' : World) :
  encrypter w' = encrypter w -> dst w' = dst w ->
  chainedAt X w -> chainedAt X w'.
Proof. unfold chainedAt. intros -> ->. auto. Qed.

(** The loop over the source, on a source that ends and a sink that takes
    every write. *)
Lemma forAwait_chained (fuel : nat) :
  forall (buf : list byte) (off : Z) (w : World) (X : list byte),
  (length (pending (source w)) < fuel)%nat ->
  failsAtEnd (source w) = false ->
  chainedAt X w -> 0 <= off < len buf -> aligned16 buf ->
  exists buf' off' w' X',
    forAwait (platform := cbc) fuel buf off w = (Returned (buf', off'), w') /\
    chainedAt X' w' /\
    0 <= off' <= len buf' /\
    X' ++ firstn (Z.to_nat off') buf'
    = X ++ firstn (Z.to_nat off) buf ++ concat (pending (source w)) /\
    closeFails (dst w') = closeFails (dst w).
Proof.
  induction fuel as [|fuel IH]; intros buf off w X Hf Hend Hch Ho Hb; [lia|].
  cbn [forAwait]. unfold bind at 1. unfold next. rewrite Hend.
  destruct (pending (source w)) as [|chunk rest] eqn:Hp.
  - exists buf, off. eexists. exists X.
    split; [reflexivity|].
    split; [eapply chainedAt_same; [| |exact Hch]; reflexivity|].
    split; [lia|]. split; [|reflexivity].
    simpl. now rewrite app_nil_r.
  - set (w1 := mkWorld _ _ _ _).
    assert (Hch1 : chainedAt X w1)
      by (eapply chainedAt_same; [| |exact Hch]; reflexivity).
    destruct (doWhile_chained (S (length chunk)) chunk buf off w1 X)
      as (buf2 & off2 & w2 & X2 & Hrun & Hch2 & Ho2 & Hl2 & Hx2 & Hs2 & Hc2);
      [lia | assumption | assumption | assumption |].
    unfold bind at 1. rewrite Hrun. cbn [fst snd].
    destruct (IH buf2 off2 w2 X2)
      as (buf' & off' & w' & X' & Hrun' & Hch' & Ho' & Hx' & Hc');
      [rewrite Hs2; subst w1; simpl in *; lia
      | rewrite Hs2; subst w1; simpl; first [assumption | reflexivity]
      | assumption | assumption | now apply (aligned16_len buf2 buf) |].
    exists buf', off', w', X'.
    split; [assumption|]. split; [assumption|]. split; [assumption|].
    split; [|rewrite Hc', Hc2; reflexivity].
    rewrite Hx', app_assoc, Hx2, Hs2. subst w1. cbn [source pending concat].
    now rewrite <- !app_assoc.
Qed.

(** The bytes of a whole run: the initialisation vector, the one-shot
    ciphertext of the plaintext, and the tag over both. *)
Definition sealed (plaintext : list byte) : list byte :=
  let ciphertext := aesCbcEncrypt blockCipher key iv0 plaintext in
  iv0 ++ ciphertext ++ bytesOfN 32 (hmacFn hk (msg0 ++ iv0 ++ ciphertext)).

Lemma rem16_aligned_repeat (b : Z) :
  Z.rem b 16 = 0 -> 0 <= b -> aligned16 (repeat x00 (Z.to_nat b)).
Proof.
  intros Hr Hb. apply rem_aligned. unfold len. rewrite repeat_length.
  now rewrite Z2Nat.id.
Qed.

Lemma streamEncrypt_cbc (bufferSize : option number) (b : Z) (w : World) :
  orDefault bufferSize = Int b -> Z.rem b 16 = 0 -> 0 <= b <= maxLen ->
  encrypter w = mkEncrypter (mkHmac hk msg0 false) iv0 (mkCryptoKey key) ->
  written (dst w) = wr0 ->
  state (dst w) = Writable -> budget (dst w) = None ->
  locked (dst w) = false -> closeFails (dst w) = false ->
  failsAtEnd (source w) = false ->
  exists w',
    streamEncrypt (platform := cbc) bufferSize w = (Returned tt, w') /\
    written (dst w') = wr0 ++ sealed (concat (pending (source w))) /\
    state (dst w') = Closed.
Proof.
  intros Hb Hrem Hrange He Hw Hs Hbud Hl Hcf Hend.
  pose proof (orDefault_nonzero bufferSize b Hb) as Hnz.
  unfold streamEncrypt. cbv zeta. rewrite Hb.
  cbn [notMultipleOf16]. rewrite Hrem. cbn [Z.eqb negb].
  unfold bind at 1, getWriter, bind at 1, getSink. rewrite Hl.
  cbn [putSink]. unfold tryFinally, tryBlock.
  set (w1 := mkWorld _ _ _ _).
  unfold bind at 1. rewrite init_healthy by (subst w1; simpl; rewrite ?He; auto).
  set (w2 := fed _ _).
  assert (Hch2 : chainedAt [] w2).
  { subst w2 w1. unfold chainedAt, written in *. simpl. rewrite He. simpl.
    split; [reflexivity|]. rewrite !app_nil_r.
    split; [reflexivity|]. split; [|auto].
    rewrite concat_app, Hw. simpl. now rewrite app_nil_r. }
  unfold bind at 1, newUint8Array.
  destruct ((b <? 0) || (maxByteLength <? b)) eqn:Hz.
  { apply orb_true_iff in Hz as [Hz|Hz]; apply Z.ltb_lt in Hz; simpl in Hz; lia. }
  cbn [ret]. set (buf := repeat x00 (Z.to_nat b)).
  assert (Hlb : len buf = b)
    by (subst buf; unfold len; rewrite repeat_length; lia).
  unfold bind at 1, getSource. unfold bind at 1.
  destruct (forAwait_chained (S (length (pending (source w2)))) buf 0 w2 [])
    as (buf' & off' & w3 & X' & Hrun & Hch3 & Ho' & Hx & Hcf3);
    [lia | subst w2 w1; simpl; assumption | assumption | lia
    | subst buf; apply rem16_aligned_repeat; lia |].
  rewrite Hrun. cbn [fst snd].
  rewrite subarray_prefix by lia.
  destruct Hch3 as (HX & He3 & Hw3 & Hs3 & Hb3).
  destruct (run_aligned blockCipher key iv0 X' iv0_length HX) as (_ & _ & Hc).
  rewrite finish_healthy
    by (try assumption; rewrite He3; simpl;
        first [unfold len; lia | reflexivity]).
  set (w4 := finished _ _).
  assert (Hw4 : written (dst w4)
                = wr0 ++ sealed (concat (pending (source w)))
                /\ state (dst w4) = Writable
                /\ closeFails (dst w4) = false).
  { assert (HP : concat (pending (source w))
                 = X' ++ firstn (Z.to_nat off') buf')
      by (rewrite Hx; subst w2 w1; reflexivity).
    unfold sealed. rewrite HP, aesCbc_app_aligned by assumption.
    subst w4. destruct w3 as [e3 s3 d3 n3]. cbn [encrypter dst] in *. subst e3.
    unfold finished, tagOf, written in *.
    cbn [iv hmac aesKey rawKey aesCbc hmacSha256 cbc cbcPlatform fed wrote
         digested called encrypter dst source hmacKey message finalized state
         budget closeFails chunks].
    rewrite !concat_app, Hw3. cbn [concat].
    rewrite !app_nil_r, <- !app_assoc.
    split; [reflexivity|]. split; [assumption|].
    rewrite Hcf3. subst w2 w1. simpl. assumption. }
  destruct Hw4 as (Hw4 & Hs4 & Hcf4).
  exists (snd (close w4)).
  assert (Hclose : close w4
                   = (Returned tt,
                      mkWorld (encrypter w4) (source w4)
                        (mkSink (chunks (dst w4)) Closed (locked (dst w4))
                           (S (closeCalls (dst w4))) (budget (dst w4))
                           (closeFails (dst w4)))
                        (subtleCalls w4))).
  { unfold close, bind, getSink. rewrite Hs4, Hcf4. reflexivity. }
  rewrite Hclose. cbn [snd dst state closeCalls].
  split; [reflexivity|]. split; [exact Hw4 | reflexivity].
Qed.

End CbcStream.

(** A run in good conditions: the source ends without an error, and the
    sink is free, takes every write and closes. *)
Definition ready (w : World) : bool :=
  match state (dst w), budget (dst w) with
  | Writable, None =>
      negb (locked (dst w)) && negb (closeFails (dst w))
      && negb (failsAtEnd (source w))
  | _, _ => false
  end.

(** A buffer size that passes the test and that the runtime allocates. *)
Definition fits (maxLen : Z) (bufferSize : option number) : bool :=
  match orDefault bufferSize with
  | Int b => (Z.rem b 16 =? 0) && (0 <=? b) && (b <=? maxLen)
  | _ => false
  end.

(** An encrypter as the constructor and the calls leave it before [finish]. *)
Definition live (e : Encrypter) : bool :=
  (len (iv e) =? 16) && negb (finalized (hmac e)).

Lemma ready_spec (w : World) :
  ready w = true ->
  state (dst w) = Writable /\ budget (dst w) = None /\
  locked (dst w) = false /\ closeFails (dst w) = false /\
  failsAtEnd (source w) = false.
Proof.
  unfold ready. destruct (state (dst w)); try discriminate.
  destruct (budget (dst w)); try discriminate.
  intros H. apply andb_true_iff in H as (H & H3).
  apply andb_true_iff in H as (H1 & H2).
  apply negb_true_iff in H1, H2, H3. auto.
Qed.

Lemma fits_spec (maxLen : Z) (bufferSize : option number) :
  fits maxLen bufferSize = true ->
  exists b, orDefault bufferSize = Int b /\ Z.rem b 16 = 0 /\ 0 <= b <= maxLen.
Proof.
  unfold fits. destruct (orDefault bufferSize) as [b| |]; try discriminate.
  intros H. apply andb_true_iff in H as (H & H3).
  apply andb_true_iff in H as (H1 & H2).
  apply Z.eqb_eq in H1. apply Z.leb_le in H2, H3. eauto.
Qed.

Lemma live_spec (e : Encrypter) :
  live e = true ->
  exists hk msg iv_ k,
    e = mkEncrypter (mkHmac hk msg false) iv_ (mkCryptoKey k) /\
    length iv_ = 16%nat.
Proof.
  destruct e as [[hk msg fin] iv_ [k]]. unfold live. simpl. intros H.
  apply andb_true_iff in H as (H1 & H2).
  apply Z.eqb_eq in H1. apply negb_true_iff in H2. subst fin.
  exists hk, msg, iv_, k. split; [reflexivity | unfold len in H1; lia].
Qed.

(** What a run in good conditions does: it returns, and the bytes it has
    added to the sink are the initialisation vector, the one-shot ciphertext
    of the whole plaintext, and the tag. *)
Lemma streamEncrypt_sealed (blockCipher : list byte -> N -> N)
    (hmacFn : list byte -> list byte -> N) (maxLen : Z)
    (bufferSize : option number) (w : World) :
  live (encrypter w) = true -> ready w = true ->
  fits maxLen bufferSize = true ->
  let e := encrypter w in
  exists w',
    streamEncrypt (platform := cbcPlatform blockCipher hmacFn maxLen)
      bufferSize w = (Returned tt, w') /\
    written (dst w')
    = written (dst w)
      ++ sealed blockCipher hmacFn (rawKey (aesKey e)) (hmacKey (hmac e))
           (iv e) (message (hmac e)) (concat (pending (source w))) /\
    state (dst w') = Closed.
Proof.
  intros Hlive Hready Hfits e. subst e.
  apply live_spec in Hlive as (hk & msg & iv_ & k & He & Hiv).
  apply ready_spec in Hready as (Hs & Hb & Hl & Hcf & Hend).
  apply fits_spec in Hfits as (b & Hb1 & Hb2 & Hb3).
  rewrite He. cbn [aesKey rawKey hmac hmacKey iv message].
  eapply streamEncrypt_cbc; eauto.
Qed.

Lemma length_sealed (blockCipher : list byte -> N -> N)
    (hmacFn : list byte -> list byte -> N) (key hk iv_ msg plaintext : list byte) :
  length iv_ = 16%nat ->
  len (sealed blockCipher hmacFn key hk iv_ msg plaintext)
  = 16 + 16 * ceilDiv (len plaintext + 1) 16 + 32.
Proof.
  intros Hiv. unfold sealed. rewrite !len_app. unfold len.
  rewrite length_aesCbc, length_bytesOfN, Hiv by assumption.
  fold (len plaintext). rewrite ceilDiv16_succ. unfold len. lia.
Qed.

(** C1: over a source of [L] bytes in all, however they are cut into chunks,
    an encrypter made by [create] with a 16-byte initialisation vector, run
    in good conditions with a buffer size that passes the test, returns
    after adding to the sink exactly [encryptedLength(L)] bytes, that is
    [16 + 16 * ceil((L + 1) / 16) + 32]; for an empty source that is 64. *)
Theorem streamEncrypt_length (blockCipher : list byte -> N -> N)
    (hmacFn : list byte -> list byte -> N) (maxLen : Z)
    (iv_ hmacKey_ aesKey_ : list byte) (e : Encrypter)
    (bufferSize : option number) (w : World) :
  Encrypter_create iv_ hmacKey_ aesKey_ = Returned e ->
  encrypter w = e ->
  ready w = true ->
  fits maxLen bufferSize = true ->
  let L := len (concat (pending (source w))) in
  L <= MAX_SAFE_INTEGER - 64 ->
  exists w' out,
    streamEncrypt (platform := cbcPlatform blockCipher hmacFn maxLen)
      bufferSize w = (Returned tt, w') /\
    written (dst w') = written (dst w) ++ out /\
    encryptedLength e L = Returned (len out) /\
    len out = 16 + 16 * ceilDiv (L + 1) 16 + 32 /\
    (L = 0 -> len out = 64).
Proof.
  intros Hc He Hready Hfits L HL.
  apply create_returned in Hc as (Hiv & Hc).
  assert (Hiv' : length iv_ = 16%nat) by (unfold len in Hiv; lia).
  destruct (streamEncrypt_sealed blockCipher hmacFn maxLen bufferSize w)
    as (w' & Hrun & Hw & _); try assumption.
  { rewrite He, Hc. unfold live. simpl. rewrite Hiv. reflexivity. }
  rewrite He, Hc in Hw. cbn [aesKey rawKey hmac hmacKey iv message] in Hw.
  eexists. eexists. split; [exact Hrun|]. split; [exact Hw|].
  pose proof (length_sealed blockCipher hmacFn aesKey_ hmacKey_ iv_ []
                (concat (pending (source w))) Hiv') as Hlen.
  fold L in Hlen.
  split; [|split; [exact Hlen|]].
  - rewrite encryptedLength_returns by (rewrite ?Hc; assumption).
    now rewrite Hlen.
  - intros H0. rewrite Hlen, H0. reflexivity.
Qed.

(** C2: two runs in good conditions, of encrypters in the same state, over
    sources that deliver the same bytes cut into chunks in any two ways, and
    with any two buffer sizes that pass the test, both return and add the
    same bytes to their sinks. *)
Theorem streamEncrypt_chunking (blockCipher : list byte -> N -> N)
    (hmacFn : list byte -> list byte -> N) (maxLen : Z)
    (bufferSize1 bufferSize2 : option number) (w1 w2 : World) :
  live (encrypter w1) = true ->
  encrypter w1 = encrypter w2 ->
  concat (pending (source w1)) = concat (pending (source w2)) ->
  ready w1 = true -> ready w2 = true ->
  fits maxLen bufferSize1 = true -> fits maxLen bufferSize2 = true ->
  exists w1' w2' out,
    streamEncrypt (platform := cbcPlatform blockCipher hmacFn maxLen)
      bufferSize1 w1 = (Returned tt, w1') /\
    streamEncrypt (platform := cbcPlatform blockCipher hmacFn maxLen)
      bufferSize2 w2 = (Returned tt, w2') /\
    written (dst w1') = written (dst w1) ++ out /\
    written (dst w2') = written (dst w2) ++ out.
Proof.
  intros Hlive He Hp Hr1 Hr2 Hf1 Hf2.
  destruct (streamEncrypt_sealed blockCipher hmacFn maxLen bufferSize1 w1)
    as (w1' & Hrun1 & Hw1 & _); try assumption.
  destruct (streamEncrypt_sealed blockCipher hmacFn maxLen bufferSize2 w2)
    as (w2' & Hrun2 & Hw2 & _); try assumption.
  { now rewrite <- He. }
  rewrite <- He, <- Hp in Hw2.
  exists w1', w2'. eexists.
  split; [exact Hrun1|]. split; [exact Hrun2|]. split; [exact Hw1 | exact Hw2].
Qed.

(** * Runs on concrete inputs

    A block cipher and a keyed hash small enough to run, and a world to run
    the code in. *)

Module Sample.

Definition cipher (key : list byte) (x : N) : N :=
  (N.lxor x (NOfBytes key) + 1)%N.

Definition keyedHash (key msg : list byte) : N :=
  (NOfBytes key + 3 * NOfBytes msg + N.of_nat (length msg))%N.

Definition platform : Platform := cbcPlatform cipher keyedHash 4096.

Definition ivBytes : list byte := repeat x01 16.
Definition macKey : list byte := repeat x02 32.
Definition cipherKey : list byte := repeat x03 32.

Definition sink : Sink := mkSink [] Writable false 0 None false.

Definition theEncrypter : Encrypter :=
  mkEncrypter (mkHmac macKey [] false) ivBytes (mkCryptoKey cipherKey).

Definition world (sourceChunks : list (list byte)) : World :=
  mkWorld theEncrypter (mkSource sourceChunks false 0) sink 0.

(** A platform whose primitive returns nothing. *)
Definition broken : Platform :=
  {| aesCbc := fun _ _ _ => []; hmacSha256 := keyedHash; maxByteLength := 4096 |}.

End Sample.

Lemma encrypt_unaligned_atomic_witness :
  encrypt (platform := Sample.platform) [x41] (Sample.world [])
  = (Thrown (AlignmentError NonFinalBlock), Sample.world []).
Proof. apply encrypt_unaligned_atomic. vm_compute. lia. Defined.

Lemma encrypt_nonfinal_witness :
  fst (encrypt (platform := Sample.platform) [x41] (Sample.world []))
  = Thrown (AlignmentError NonFinalBlock)
  /\ fst (encrypt (platform := Sample.broken) (repeat x41 16) (Sample.world []))
     = Thrown IntegrityError
  /\ chunks (dst (snd (encrypt (platform := Sample.platform) (repeat x41 16)
                         (Sample.world []))))
     = [firstn 16 (aesCbcEncrypt Sample.cipher Sample.cipherKey Sample.ivBytes
                     (repeat x41 16))].
Proof.
  split; [|split].
  - apply (encrypt_nonfinal (platform := Sample.platform) [x41]
             (Sample.world [])); [reflexivity | vm_compute; lia].
  - apply (encrypt_nonfinal (platform := Sample.broken) (repeat x41 16)
             (Sample.world [])); [reflexivity | reflexivity | vm_compute; lia].
  - apply (encrypt_nonfinal (platform := Sample.platform) (repeat x41 16)
             (Sample.world [])); reflexivity.
Defined.

Lemma streamEncrypt_bufferSize_rejected_witness :
  streamEncrypt (platform := Sample.platform) (Some (Int 100))
    (Sample.world [[x41]])
  = (Thrown (AlignmentError BufferSize), Sample.world [[x41]]).
Proof.
  destruct (streamEncrypt_bufferSize_rejected (platform := Sample.platform)
              (Sample.world [[x41]])) as (_ & H & _).
  apply H. vm_compute. lia.
Defined.

Lemma encryptedLength_guard_witness :
  encryptedLength Sample.theEncrypter 17 = Returned (16 + 16 * ceilDiv 18 16 + 32)
  /\ encryptedLength Sample.theEncrypter 17 = Returned 80.
Proof.
  split; [|reflexivity].
  destruct (encryptedLength_guard Sample.theEncrypter 17) as (_ & H & _);
    [reflexivity|].
  apply H. vm_compute. discriminate.
Defined.

Lemma session_tag_witness :
  exists cts tag,
    chunks (dst (snd (session (platform := Sample.platform)
                        [repeat x41 16] [x42] (Sample.world []))))
    = chunks (dst (Sample.world [])) ++ [Sample.ivBytes] ++ cts ++ [tag] /\
    length cts = 2%nat /\
    tag = bytesOfN 32 (Sample.keyedHash Sample.macKey
                         (Sample.ivBytes ++ concat cts)) /\
    length tag = 32%nat /\
    skipn (length (written (dst (snd (session (platform := Sample.platform)
                     [repeat x41 16] [x42] (Sample.world []))))) - 32)
      (written (dst (snd (session (platform := Sample.platform)
                     [repeat x41 16] [x42] (Sample.world [])))))
    = tag.
Proof.
  apply (session_tag (platform := Sample.platform) Sample.ivBytes Sample.macKey
           Sample.cipherKey Sample.theEncrypter [repeat x41 16] [x42]
           (Sample.world [])); reflexivity.
Defined.

(** The chaining value after a non-final call with an empty plaintext: the
    call returns, the ciphertext it emitted is empty, and the chaining value
    is still the 16 bytes it was, not the last bytes of that ciphertext. *)
Lemma chaining_value_empty_call :
  let r := encrypt (platform := Sample.platform) [] (Sample.world []) in
  fst r = Returned tt /\
  chunks (dst (snd r)) = chunks (dst (Sample.world [])) ++ [[]] /\
  iv (encrypter (snd r)) <> lastBlock [] /\
  iv (encrypter (snd r)) <> skipn (length (@nil byte) - 16) [] /\
  iv (encrypter (snd r)) = Sample.ivBytes.
Proof. vm_compute. repeat split; discriminate. Qed.

Lemma chaining_value_invariant_witness :
  exists cts tag,
    chunks (dst (snd (session (platform := Sample.platform)
                        [repeat x41 16; []; repeat x43 32] [x42]
                        (Sample.world []))))
    = chunks (dst (Sample.world [])) ++ [Sample.ivBytes] ++ cts ++ [tag] /\
    length cts = 4%nat /\
    concat cts
    = aesCbcEncrypt Sample.cipher Sample.cipherKey Sample.ivBytes
        (concat [repeat x41 16; []; repeat x43 32] ++ [x42]).
Proof.
  destruct (chaining_value_invariant Sample.cipher Sample.keyedHash 4096)
    as (_ & _ & H).
  apply (H Sample.ivBytes Sample.macKey Sample.cipherKey Sample.theEncrypter
           [repeat x41 16; []; repeat x43 32] [x42] (Sample.world []));
    vm_compute; reflexivity.
Defined.

Lemma streamEncrypt_length_witness :
  exists w' out,
    streamEncrypt (platform := cbcPlatform Sample.cipher Sample.keyedHash 4096)
      (Some (Int 16)) (Sample.world [repeat x41 7; []; repeat x42 10])
    = (Returned tt, w') /\
    written (dst w')
    = written (dst (Sample.world [repeat x41 7; []; repeat x42 10])) ++ out /\
    encryptedLength Sample.theEncrypter
      (len (concat (pending (source
              (Sample.world [repeat x41 7; []; repeat x42 10])))))
    = Returned (len out) /\
    len out
    = 16 + 16 * ceilDiv
               (len (concat (pending (source
                       (Sample.world [repeat x41 7; []; repeat x42 10])))) + 1)
               16 + 32 /\
    (len (concat (pending (source
            (Sample.world [repeat x41 7; []; repeat x42 10])))) = 0 ->
     len out = 64).
Proof.
  apply (streamEncrypt_length Sample.cipher Sample.keyedHash 4096
           Sample.ivBytes Sample.macKey Sample.cipherKey Sample.theEncrypter
           (Some (Int 16)) (Sample.world [repeat x41 7; []; repeat x42 10]));
    try reflexivity.
  vm_compute. discriminate.
Defined.

Lemma streamEncrypt_chunking_witness :
  exists w1' w2' out,
    streamEncrypt (platform := cbcPlatform Sample.cipher Sample.keyedHash 4096)
      (Some (Int 16)) (Sample.world [repeat x41 7; []; repeat x42 10])
    = (Returned tt, w1') /\
    streamEncrypt (platform := cbcPlatform Sample.cipher Sample.keyedHash 4096)
      (Some (Int 32)) (Sample.world [repeat x41 7 ++ repeat x42 10])
    = (Returned tt, w2') /\
    written (dst w1')
    = written (dst (Sample.world [repeat x41 7; []; repeat x42 10])) ++ out /\
    written (dst w2')
    = written (dst (Sample.world [repeat x41 7 ++ repeat x42 10])) ++ out.
Proof.
  apply (streamEncrypt_chunking Sample.cipher Sample.keyedHash 4096
           (Some (Int 16)) (Some (Int 32))
           (Sample.world [repeat x41 7; []; repeat x42 10])
           (Sample.world [repeat x41 7 ++ repeat x42 10]));
    reflexivity.
Defined.


(** * Further properties of [encrypt.ts] *)

(** ** The length law, as a caller sees it *)

(** X1: the length that [encryptedLength] returns is a whole number of blocks;
    it exceeds the plaintext by 49 to 64 bytes, by 64 exactly for a plaintext of
    whole blocks; and 16 more bytes of plaintext always give 16 more bytes of
    output. *)
Theorem encryptedLength_overhead (e : Encrypter) (L r : Z) :
  len (iv e) = 16 -> 0 <= L ->
  encryptedLength e L = Returned r ->
  r mod 16 = 0 /\
  L + 49 <= r <= L + 64 /\
  (r = L + 64 <-> L mod 16 = 0) /\
  (L + 16 <= MAX_PLAINTEXT_LENGTH ->
   encryptedLength e (L + 16) = Returned (r + 16)).
Proof.
  intros Hiv HL H.
  destruct (Z.gtb_spec L MAX_PLAINTEXT_LENGTH) as [Hgt|Hle].
  - unfold encryptedLength in H.
    destruct (L >? MAX_PLAINTEXT_LENGTH) eqn:E; [discriminate|].
    destruct (Z.gtb_spec L MAX_PLAINTEXT_LENGTH); [discriminate | lia].
  - destruct MAX_PLAINTEXT_LENGTH_value as (_ & Hv).
    rewrite encryptedLength_returns in H by lia.
    assert (Hr : r = 16 + 16 * ceilDiv (L + 1) 16 + 32) by congruence.
    clear H. subst r. rewrite ceilDiv16_succ.
    split; [lia|]. split; [lia|]. split; [lia|].
    intros H16. rewrite encryptedLength_returns by lia.
    rewrite ceilDiv16_succ. f_equal. lia.
Qed.

(** X2: a longer plaintext never has a shorter encryption. *)
Theorem encryptedLength_monotone (e : Encrypter) (L1 L2 r1 r2 : Z) :
  len (iv e) = 16 -> 0 <= L1 <= L2 ->
  encryptedLength e L1 = Returned r1 ->
  encryptedLength e L2 = Returned r2 ->
  r1 <= r2.
Proof.
  intros Hiv HL H1 H2.
  assert (Hb : forall L r, encryptedLength e L = Returned r ->
               L <= MAX_SAFE_INTEGER - 64).
  { intros L r H. unfold encryptedLength in H.
    destruct (Z.gtb_spec L MAX_PLAINTEXT_LENGTH); [discriminate|].
    destruct MAX_PLAINTEXT_LENGTH_value as (_ & Hv). lia. }
  pose proof (Hb _ _ H1). pose proof (Hb _ _ H2).
  rewrite encryptedLength_returns in H1, H2 by assumption.
  assert (Hr1 : r1 = 16 + 16 * ceilDiv (L1 + 1) 16 + 32) by congruence.
  assert (Hr2 : r2 = 16 + 16 * ceilDiv (L2 + 1) 16 + 32) by congruence.
  rewrite Hr1, Hr2, !ceilDiv16_succ. lia.
Qed.

Lemma encryptedLength_overhead_witness :
  80 mod 16 = 0 /\
  17 + 49 <= 80 <= 17 + 64 /\
  (80 = 17 + 64 <-> 17 mod 16 = 0) /\
  (17 + 16 <= MAX_PLAINTEXT_LENGTH ->
   encryptedLength Sample.theEncrypter (17 + 16) = Returned (80 + 16)).
Proof.
  apply (encryptedLength_overhead Sample.theEncrypter 17 80);
    [reflexivity | lia | reflexivity].
Defined.

Lemma encryptedLength_monotone_witness : 64 <= 80.
Proof.
  apply (encryptedLength_monotone Sample.theEncrypter 15 16 64 80);
    [reflexivity | lia | reflexivity | reflexivity].
Defined.

(** ** What no call changes *)

(** [m] relates the world it leaves to the one it found by [R], on every
    path. *)
Definition keeps {A} (R : World -> World -> Prop) (m : M A) : Prop :=
  forall w, R w (snd (m w)).

Section Keeps.

Variable R : World -> World -> Prop.
Hypothesis R_refl : forall w, R w w.
Hypothesis R_trans : forall w1 w2 w3, R w1 w2 -> R w2 w3 -> R w1 w3.

Lemma keeps_ret {A} (a : A) : keeps R (ret a).
Proof. intros w. apply R_refl. Qed.

Lemma keeps_throw {A} (e : error) : keeps R (@throw A e).
Proof. intros w. apply R_refl. Qed.

Lemma keeps_diverge {A} : keeps R (@diverge A).
Proof. intros w. apply R_refl. Qed.

Lemma keeps_bind {A B} (m : M A) (k : A -> M B) :
  keeps R m -> (forall a, keeps R (k a)) -> keeps R (bind m k).
Proof.
  intros Hm Hk w. unfold bind. specialize (Hm w).
  destruct (m w) as [[a| |] w1]; simpl in *; try assumption.
  eapply R_trans; [exact Hm | apply Hk].
Qed.

Lemma keeps_tryFinally {A} (body : M A) (fin : M unit) :
  keeps R body -> keeps R fin -> keeps R (tryFinally body fin).
Proof.
  intros Hb Hf w. unfold tryFinally. specialize (Hb w).
  destruct (body w) as [[a| |] w1]; simpl in *; try assumption;
    specialize (Hf w1); destruct (fin w1) as [[u| |] w2]; simpl in *;
    eapply R_trans; eassumption.
Qed.

End Keeps.

(** The session of [w'] is the session of [w], further on: the same keys, a
    chaining value of the same length, an HMAC that has been fed what it had
    been fed and possibly more, and that is still finalised if it was. *)
Definition sameSession (w w' : World) : Prop :=
  let e := encrypter w in
  let e' := encrypter w' in
  aesKey e' = aesKey e /\
  hmacKey (hmac e') = hmacKey (hmac e) /\
  len (iv e') = len (iv e) /\
  (exists more, message (hmac e') = message (hmac e) ++ more) /\
  (finalized (hmac e) = true -> finalized (hmac e') = true).

Lemma sameSession_refl (w : World) : sameSession w w.
Proof.
  unfold sameSession. cbv zeta. repeat split; try reflexivity; auto.
  exists []. now rewrite app_nil_r.
Qed.

Lemma sameSession_trans (w1 w2 w3 : World) :
  sameSession w1 w2 -> sameSession w2 w3 -> sameSession w1 w3.
Proof.
  unfold sameSession. cbv zeta.
  intros (Ha & Hk & Hl & (m & Hm) & Hf) (Ha' & Hk' & Hl' & (m' & Hm') & Hf').
  split; [congruence|]. split; [congruence|]. split; [congruence|].
  split; [exists (m ++ m'); rewrite Hm', Hm; now rewrite app_assoc | auto].
Qed.

Lemma sameSession_same (w w' : World) :
  encrypter w' = encrypter w -> sameSession w w'.
Proof.
  intros H. unfold sameSession. cbv zeta. rewrite H.
  repeat split; try reflexivity; auto. exists []. now rewrite app_nil_r.
Qed.

Section KeepsSession.

Context {platform : Platform}.

Ltac world w :=
  destruct w as [[[? ? ?] ? ?] [? ? ?] [? ? ? ? ? ?] ?]; simpl in *.

Lemma keeps_write (chunk : list byte) : keeps sameSession (write chunk).
Proof.
  intros w. apply sameSession_same. world w.
  destruct state0; [destruct budget0 as [[|n]|] | |]; reflexivity.
Qed.

Lemma keeps_close : keeps sameSession close.
Proof.
  intros w. apply sameSession_same. world w.
  destruct state0; [destruct closeFails0 | |]; reflexivity.
Qed.

Lemma keeps_getWriter : keeps sameSession getWriter.
Proof.
  intros w. apply sameSession_same. world w. destruct locked0; reflexivity.
Qed.

Lemma keeps_next : keeps sameSession next.
Proof.
  intros w. apply sameSession_same. unfold next.
  destruct (pending (source w)); [destruct (failsAtEnd (source w))|];
    reflexivity.
Qed.

Lemma keeps_getSource : keeps sameSession getSource.
Proof. intros w. apply sameSession_refl. Qed.

Lemma keeps_getEncrypter : keeps sameSession getEncrypter.
Proof. intros w. apply sameSession_refl. Qed.

Lemma keeps_newUint8Array (length : Z) :
  keeps sameSession (newUint8Array length).
Proof.
  intros w. unfold newUint8Array.
  destruct ((length <? 0) || (maxByteLength <? length));
    apply sameSession_refl.
Qed.

Lemma keeps_subtleEncrypt (iv_ : list byte) (key : CryptoKey)
    (data : option (list byte)) :
  keeps sameSession (subtleEncrypt iv_ key data).
Proof.
  intros w. apply sameSession_same. unfold subtleEncrypt.
  destruct data; [destruct (len iv_ =? 16)|]; reflexivity.
Qed.

Lemma keeps_hmacUpdate (data : list byte) :
  keeps sameSession (hmacUpdate data).
Proof.
  intros w. world w. destruct finalized0; simpl.
  - apply sameSession_refl.
  - unfold sameSession. simpl. repeat split; try discriminate.
    now exists data.
Qed.

Lemma keeps_hmacDigest : keeps sameSession hmacDigest.
Proof.
  intros w. world w. destruct finalized0; simpl.
  - apply sameSession_refl.
  - unfold sameSession. simpl. repeat split.
    exists []. now rewrite app_nil_r.
Qed.

Lemma keeps_ivSet (src : list byte) : keeps sameSession (ivSet src).
Proof.
  intros w. unfold ivSet, bind, getEncrypter.
  destruct (set (iv (encrypter w)) src 0) as [iv'|] eqn:E; simpl.
  - apply len_set in E. unfold sameSession. simpl.
    repeat split; auto. exists []. now rewrite app_nil_r.
  - apply sameSession_refl.
Qed.

Create HintDb session.

Local Hint Resolve sameSession_refl keeps_write keeps_close keeps_getWriter
  keeps_next keeps_getSource keeps_getEncrypter keeps_newUint8Array
  keeps_subtleEncrypt keeps_hmacUpdate keeps_hmacDigest keeps_ivSet : session.

Ltac session :=
  repeat first
    [ solve [auto with session]
    | apply keeps_ret; apply sameSession_refl
    | apply keeps_throw; apply sameSession_refl
    | apply keeps_diverge; apply sameSession_refl
    | apply keeps_bind; [apply sameSession_trans | | intros ?] ].

Lemma keeps_init : keeps sameSession init.
Proof. unfold init. session. Qed.

Lemma keeps_encrypt (plaintext : list byte) :
  keeps sameSession (encrypt plaintext).
Proof.
  unfold encrypt.
  destruct (negb (Z.rem (len plaintext) 16 =? 0)); [session|].
  apply keeps_bind; [apply sameSession_trans | session |]. intros e.
  apply keeps_bind; [apply sameSession_trans | session |]. intros raw.
  destruct (negb (len raw =? len plaintext + 16)); session.
Qed.

Lemma keeps_finish (plaintext : option (list byte)) :
  keeps sameSession (finish plaintext).
Proof. unfold finish. session. Qed.

Lemma keeps_doWhile (fuel : nat) :
  forall chunk plaintext offset,
  keeps sameSession (doWhile fuel chunk plaintext offset).
Proof.
  induction fuel as [|fuel IH]; intros chunk buf off; cbn [doWhile].
  - session.
  - cbv zeta.
    destruct (set buf _ off) as [buf1|]; [|session].
    apply keeps_bind; [apply sameSession_trans | |].
    + destruct (_ =? _); [|session].
      apply keeps_bind; [apply sameSession_trans | apply keeps_encrypt |].
      intros ?. session.
    + intros off'. destruct (_ <? _); [apply IH | session].
Qed.

Lemma keeps_forAwait (fuel : nat) :
  forall plaintext offset, keeps sameSession (forAwait fuel plaintext offset).
Proof.
  induction fuel as [|fuel IH]; intros buf off; cbn [forAwait].
  - session.
  - apply keeps_bind; [apply sameSession_trans | session |].
    intros [chunk|]; [|session].
    apply keeps_bind; [apply sameSession_trans | apply keeps_doWhile |].
    intros st. apply IH.
Qed.

(** X3: whatever its outcome, a call of [init], [encrypt], [finish] or
    [streamEncrypt] leaves the keys of the session as they were and the
    chaining value as long as it was, only ever appends to what the HMAC has
    been fed, and never brings a finalised HMAC back to life. *)
Theorem session_kept (w : World) :
  sameSession w (snd (init w)) /\
  (forall plaintext, sameSession w (snd (encrypt plaintext w))) /\
  (forall plaintext, sameSession w (snd (finish plaintext w))) /\
  (forall bufferSize, sameSession w (snd (streamEncrypt bufferSize w))).
Proof.
  split; [apply keeps_init|]. split; [intros p; apply keeps_encrypt|].
  split; [intros p; apply keeps_finish|].
  intros b. revert w.
  change (keeps sameSession (streamEncrypt b)).
  unfold streamEncrypt. cbv zeta.
  destruct (notMultipleOf16 (orDefault b)); [session|].
  apply keeps_bind; [apply sameSession_trans | session |]. intros _.
  apply keeps_tryFinally; [apply sameSession_trans | | session].
  unfold tryBlock.
  apply keeps_bind; [apply sameSession_trans | apply keeps_init |]. intros _.
  apply keeps_bind; [apply sameSession_trans | |].
  { destruct (orDefault b); session. }
  intros buf.
  apply keeps_bind; [apply sameSession_trans | session |]. intros src.
  apply keeps_bind; [apply sameSession_trans | apply keeps_forAwait |].
  intros st. apply keeps_finish.
Qed.

End KeepsSession.

(** ** After [finish], and after a failed write *)

Section SingleUse.

Context {platform : Platform}.

Ltac world w :=
  destruct w as [[[? ? ?] ? ?] [? ? ?] [? ? ? ? ? ?] ?]; simpl in *.

Lemma tryFinally_returned {A} (body : M A) (fin : M unit) (w w' : World)
    (a : A) :
  tryFinally body fin w = (Returned a, w') ->
  exists w1, body w = (Returned a, w1) /\ fin w1 = (Returned tt, w').
Proof.
  unfold tryFinally.
  destruct (body w) as [[b|e|] w1]; [| |discriminate];
    destruct (fin w1) as [[[]|e'|] w2] eqn:Hfin; intros H; try discriminate.
  injection H as <- <-. exists w1. split; [reflexivity | assumption].
Qed.

Lemma init_returned_live (w w' : World) (r : unit) :
  init w = (Returned r, w') -> finalized (hmac (encrypter w)) = false.
Proof.
  unfold init. intros H.
  apply bind_returned in H as (e & w1 & He & H). injection He as <- <-.
  apply bind_returned in H as (? & w2 & Hw & H).
  apply write_returned in Hw as (He & _).
  apply hmacUpdate_returned in H as (Hf & _). now rewrite He in Hf.
Qed.

Lemma encrypt_returned_live (plaintext : list byte) (w w' : World) (r : unit) :
  encrypt plaintext w = (Returned r, w') ->
  finalized (hmac (encrypter w)) = false.
Proof.
  unfold encrypt. intros H.
  destruct (negb (Z.rem (len plaintext) 16 =? 0)); [discriminate|].
  apply bind_returned in H as (e & w1 & He & H). injection He as <- <-.
  apply bind_returned in H as (raw & w2 & Hraw & H).
  assert (He2 : encrypter w2 = encrypter w).
  { unfold subtleEncrypt in Hraw.
    destruct (len (iv (encrypter w)) =? 16); [|discriminate].
    injection Hraw as _ <-. reflexivity. }
  destruct (negb (len raw =? len plaintext + 16)); [discriminate|].
  apply bind_returned in H as (? & w3 & Hset & H).
  assert (He3 : hmac (encrypter w3) = hmac (encrypter w2)).
  { unfold ivSet, bind, getEncrypter in Hset.
    destruct (set (iv (encrypter w2)) _ 0); [|discriminate].
    injection Hset as _ <-. reflexivity. }
  apply bind_returned in H as (? & w4 & Hw & H).
  apply write_returned in Hw as (He4 & _).
  apply hmacUpdate_returned in H as (Hf & _).
  now rewrite He4, He3, He2 in Hf.
Qed.

Lemma finish_returned_live (plaintext : option (list byte)) (w w' : World)
    (r : unit) :
  finish plaintext w = (Returned r, w') ->
  finalized (hmac (encrypter w)) = false /\
  finalized (hmac (encrypter w')) = true.
Proof.
  unfold finish. intros H.
  apply bind_returned in H as (e & w1 & He & H). injection He as <- <-.
  apply bind_returned in H as (raw & w2 & Hraw & H).
  assert (He2 : encrypter w2 = encrypter w).
  { unfold subtleEncrypt in Hraw. destruct plaintext; [|discriminate].
    destruct (len (iv (encrypter w)) =? 16); [|discriminate].
    injection Hraw as _ <-. reflexivity. }
  apply bind_returned in H as (? & w3 & Hw & H).
  apply write_returned in Hw as (He3 & _).
  apply bind_returned in H as (? & w4 & Hu & H).
  apply hmacUpdate_returned in Hu as (Hf & ->).
  apply bind_returned in H as (tag & w5 & Hd & H).
  apply hmacDigest_returned in Hd as (_ & ->).
  apply write_returned in H as (He6 & _).
  split; [now rewrite He3, He2 in Hf|].
  rewrite He6. reflexivity.
Qed.

(** X4: a session is used once: when [finish] has returned the HMAC is
    finalised, and on an encrypter whose HMAC is finalised no call of [init],
    [encrypt], [finish] or [streamEncrypt] returns. *)
Theorem session_single_use (plaintexts : list (list byte)) (tail : list byte)
    (w w' : World) :
  session plaintexts tail w = (Returned tt, w') ->
  finalized (hmac (encrypter w')) = true /\
  fst (init w') <> Returned tt /\
  (forall plaintext, fst (encrypt plaintext w') <> Returned tt) /\
  (forall plaintext, fst (finish plaintext w') <> Returned tt) /\
  (forall bufferSize, fst (streamEncrypt bufferSize w') <> Returned tt).
Proof.
  unfold session. intros H.
  apply bind_returned in H as (? & w1 & _ & H).
  apply bind_returned in H as (? & w2 & _ & H).
  apply finish_returned_live in H as (_ & Hf).
  split; [assumption|]. split; [|split; [|split]].
  - intros H. destruct (init w') as [o w3] eqn:E. simpl in H. subst o.
    apply init_returned_live in E. congruence.
  - intros p H. destruct (encrypt p w') as [o w3] eqn:E. simpl in H. subst o.
    apply encrypt_returned_live in E. congruence.
  - intros p H. destruct (finish p w') as [o w3] eqn:E. simpl in H. subst o.
    apply finish_returned_live in E as (E & _). congruence.
  - intros b H. destruct (streamEncrypt b w') as [o w3] eqn:E. simpl in H.
    subst o. unfold streamEncrypt in E. cbv zeta in E.
    destruct (notMultipleOf16 (orDefault b)); [discriminate|].
    apply bind_returned in E as (? & w4 & Hg & E).
    assert (He4 : encrypter w4 = encrypter w').
    { unfold getWriter, bind, getSink in Hg.
      destruct (locked (dst w')); [discriminate|].
      injection Hg as _ <-. reflexivity. }
    apply tryFinally_returned in E as (w5 & E & _).
    unfold tryBlock in E. apply bind_returned in E as (? & w6 & E & _).
    apply init_returned_live in E. congruence.
Qed.

(** X5: a call on an encrypter whose HMAC is finalised has already called the
    cipher primitive and written its ciphertext to the sink when it throws:
    on a sink that takes the write, [encrypt] and [finish] throw the error of
    the finalised HMAC and leave one more chunk in the sink, and no tag. *)
Theorem use_after_finish_writes (plaintext : list byte) (w : World) :
  let e := encrypter w in
  finalized (hmac e) = true ->
  len (iv e) = 16 ->
  state (dst w) = Writable -> budget (dst w) = None ->
  (let r := finish (Some plaintext) w in
   fst r = Thrown HashFinalized /\
   chunks (dst (snd r))
   = chunks (dst w) ++ [aesCbc (rawKey (aesKey e)) (iv e) plaintext] /\
   subtleCalls (snd r) = S (subtleCalls w)) /\
  (aligned16 plaintext ->
   len (aesCbc (rawKey (aesKey e)) (iv e) plaintext) = len plaintext + 16 ->
   let r := encrypt plaintext w in
   fst r = Thrown HashFinalized /\
   chunks (dst (snd r)) = chunks (dst w) ++ [truncated e plaintext] /\
   subtleCalls (snd r) = S (subtleCalls w)).
Proof.
  intros e Hf Hiv Hs Hb. subst e. split.
  - intros r.
    assert (E : r = finish (Some plaintext) w) by reflexivity. clearbody r.
    unfold finish, bind at 1, getEncrypter, bind at 1, subtleEncrypt in E.
    rewrite Hiv in E. cbn [Z.eqb Pos.eqb] in E. unfold bind at 1 in E.
    rewrite write_healthy in E by assumption.
    world w. subst. repeat split; reflexivity.
  - intros Ha Hraw r.
    assert (E : r = encrypt plaintext w) by reflexivity. clearbody r.
    unfold encrypt in E. apply rem_aligned in Ha. rewrite Ha in E.
    clear Ha. cbn [Z.eqb negb] in E.
    unfold bind at 1, getEncrypter, bind at 1, subtleEncrypt in E.
    rewrite Hiv in E. cbn [Z.eqb Pos.eqb] in E.
    rewrite Hraw, Z.eqb_refl in E. cbn [negb] in E.
    replace (len plaintext + 16 - 16) with (len plaintext) in E by lia.
    rewrite subarray_prefix in E by (pose proof (len_nonneg plaintext); lia).
    assert (Hl : Z.to_nat (len plaintext) = length plaintext)
      by apply Nat2Z.id.
    rewrite Hl in E. fold (truncated (encrypter w) plaintext) in E.
    fold (lastBlock (truncated (encrypter w) plaintext)) in E.
    unfold bind at 1 in E. rewrite ivSet_fits in E.
    2:{ cbn [encrypter]. rewrite Hiv. unfold len.
        pose proof (length_lastBlock (truncated (encrypter w) plaintext)).
        lia. }
    unfold bind at 1 in E. rewrite write_healthy in E by assumption.
    revert E.
    generalize (truncated (encrypter w) plaintext) as ct. intros ct.
    generalize (overwrite (iv (encrypter w)) (lastBlock ct)) as iv'.
    intros iv' E. world w. subst. repeat split; reflexivity.
Qed.

(** X6: when the sink rejects the write of a non-final call, the call throws the
    error of the sink with nothing added to the sink and nothing fed to the
    HMAC, but the chaining value has already moved on and the cipher
    primitive has been called: the session cannot retry the buffer. *)
Theorem encrypt_write_rejected (plaintext : list byte) (w : World)
    (err : error) :
  let e := encrypter w in
  let ct := truncated e plaintext in
  aligned16 plaintext -> len (iv e) = 16 ->
  len (aesCbc (rawKey (aesKey e)) (iv e) plaintext) = len plaintext + 16 ->
  fst (write ct w) = Thrown err ->
  let r := encrypt plaintext w in
  fst r = Thrown err /\
  chunks (dst (snd r)) = chunks (dst w) /\
  hmac (encrypter (snd r)) = hmac e /\
  iv (encrypter (snd r)) = overwrite (iv e) (lastBlock ct) /\
  subtleCalls (snd r) = S (subtleCalls w).
Proof.
  intros e ct Ha Hiv Hraw Hw r. subst e ct.
  assert (E : r = encrypt plaintext w) by reflexivity. clearbody r.
  unfold encrypt in E. apply rem_aligned in Ha. rewrite Ha in E. clear Ha.
  cbn [Z.eqb negb] in E.
  unfold bind at 1, getEncrypter, bind at 1, subtleEncrypt in E.
  rewrite Hiv in E. cbn [Z.eqb Pos.eqb] in E.
  rewrite Hraw, Z.eqb_refl in E. cbn [negb] in E.
  replace (len plaintext + 16 - 16) with (len plaintext) in E by lia.
  rewrite subarray_prefix in E by (pose proof (len_nonneg plaintext); lia).
  assert (Hl : Z.to_nat (len plaintext) = length plaintext)
    by apply Nat2Z.id.
  rewrite Hl in E. fold (truncated (encrypter w) plaintext) in E.
  fold (lastBlock (truncated (encrypter w) plaintext)) in E.
  unfold bind at 1 in E. rewrite ivSet_fits in E.
  2:{ cbn [encrypter]. rewrite Hiv. unfold len.
      pose proof (length_lastBlock (truncated (encrypter w) plaintext)).
      lia. }
  cbn [encrypter] in E. revert Hw E.
  generalize (truncated (encrypter w) plaintext) as ct. intros ct.
  generalize (overwrite (iv (encrypter w)) (lastBlock ct)) as iv'.
  intros iv' Hw E. world w.
  destruct state0; [destruct budget0 as [[|n]|] | |]; simpl in *;
    try discriminate; injection Hw as <-; subst r; repeat split; reflexivity.
Qed.

End SingleUse.

Module Spent.

(** A world whose encrypter has been through [finish]. *)
Definition world : World :=
  mkWorld
    (mkEncrypter (mkHmac Sample.macKey [] true) Sample.ivBytes
       (mkCryptoKey Sample.cipherKey))
    (mkSource [] false 0) Sample.sink 0.

(** A world whose sink rejects the next write. *)
Definition full : World :=
  mkWorld Sample.theEncrypter (mkSource [] false 0)
    (mkSink [] Writable false 0 (Some 0%nat) false) 0.

End Spent.

Lemma session_single_use_witness :
  let w' := snd (session (platform := Sample.platform) [repeat x41 16] [x42]
                   (Sample.world [])) in
  finalized (hmac (encrypter w')) = true /\
  fst (init w') <> Returned tt /\
  (forall plaintext,
     fst (encrypt (platform := Sample.platform) plaintext w') <> Returned tt) /\
  (forall plaintext,
     fst (finish (platform := Sample.platform) plaintext w') <> Returned tt) /\
  (forall bufferSize,
     fst (streamEncrypt (platform := Sample.platform) bufferSize w')
     <> Returned tt).
Proof.
  apply (session_single_use (platform := Sample.platform) [repeat x41 16] [x42]
           (Sample.world [])).
  vm_compute. reflexivity.
Defined.

Lemma use_after_finish_writes_witness :
  fst (finish (platform := Sample.platform) (Some [x42]) Spent.world)
  = Thrown HashFinalized /\
  chunks (dst (snd (finish (platform := Sample.platform) (Some [x42])
                      Spent.world)))
  = chunks (dst Spent.world)
    ++ [aesCbc (Platform := Sample.platform) Sample.cipherKey Sample.ivBytes
          [x42]] /\
  subtleCalls (snd (finish (platform := Sample.platform) (Some [x42])
                      Spent.world))
  = S (subtleCalls Spent.world).
Proof.
  apply (use_after_finish_writes (platform := Sample.platform) [x42]
           Spent.world); reflexivity.
Defined.

Lemma encrypt_write_rejected_witness :
  let r := encrypt (platform := Sample.platform) (repeat x41 16) Spent.full in
  fst r = Thrown SinkFailure /\
  chunks (dst (snd r)) = chunks (dst Spent.full) /\
  hmac (encrypter (snd r)) = hmac (encrypter Spent.full) /\
  iv (encrypter (snd r))
  = overwrite (iv (encrypter Spent.full))
      (lastBlock (truncated (platform := Sample.platform)
                    (encrypter Spent.full) (repeat x41 16))) /\
  subtleCalls (snd r) = S (subtleCalls Spent.full).
Proof.
  apply (encrypt_write_rejected (platform := Sample.platform) (repeat x41 16)
           Spent.full SinkFailure); reflexivity.
Defined.

(** ** The writes and the calls of a run that returned *)

(** From [w] to [w'] the cipher primitive was called [n] times and the sink
    accepted the chunks [cs], and the source was not read. *)
Definition did (n : nat) (cs : list (list byte)) (w w' : World) : Prop :=
  subtleCalls w' = (subtleCalls w + n)%nat /\
  chunks (dst w') = chunks (dst w) ++ cs /\
  source w' = source w.

Lemma did_nothing (w w' : World) :
  subtleCalls w' = subtleCalls w -> dst w' = dst w -> source w' = source w ->
  did 0 [] w w'.
Proof.
  intros Hc Hd Hs. unfold did. rewrite Hc, Hd, Hs, app_nil_r.
  repeat split. lia.
Qed.

Lemma did_then (n m : nat) (cs ds : list (list byte)) (w1 w2 w3 : World) :
  did n cs w1 w2 -> did m ds w2 w3 -> did (n + m) (cs ++ ds) w1 w3.
Proof.
  intros (Hc & Hw & Hs) (Hc' & Hw' & Hs'). unfold did.
  rewrite Hc', Hc, Hw', Hw, Hs', Hs, app_assoc. repeat split. lia.
Qed.

Section Writes.

Context {platform : Platform}.

Ltac world w :=
  destruct w as [[[? ? ?] ? ?] [? ? ?] [? ? ? ? ? ?] ?]; simpl in *.

Lemma write_did (chunk : list byte) (w w' : World) (r : unit) :
  write chunk w = (Returned r, w') -> did 0 [chunk] w w'.
Proof.
  intros H. world w. unfold write, bind, getSink in H. simpl in H.
  destruct state0; try discriminate.
  destruct budget0 as [[|n]|]; simpl in H; try discriminate;
    injection H as _ <-; unfold did; simpl; repeat split; lia.
Qed.

Lemma init_did (w w' : World) (r : unit) :
  init w = (Returned r, w') -> did 0 [iv (encrypter w)] w w'.
Proof.
  unfold init. intros H.
  apply bind_returned in H as (e & w1 & He & H). injection He as <- <-.
  apply bind_returned in H as (? & w2 & Hw & H).
  apply write_did in Hw.
  apply hmacUpdate_returned in H as (_ & ->).
  apply (did_then 0 0 [_] [] w w2); [assumption|].
  apply did_nothing; reflexivity.
Qed.

Lemma encrypt_did (plaintext : list byte) (w w' : World) (r : unit) :
  encrypt plaintext w = (Returned r, w') ->
  exists ct, did 1 [ct] w w' /\ len ct = len plaintext.
Proof.
  unfold encrypt. intros H.
  destruct (negb (Z.rem (len plaintext) 16 =? 0)); [discriminate|].
  apply bind_returned in H as (e & w1 & He & H). injection He as <- <-.
  apply bind_returned in H as (raw & w2 & Hraw & H).
  assert (Hd2 : did 1 [] w w2).
  { unfold subtleEncrypt in Hraw.
    destruct (len (iv (encrypter w)) =? 16); [|discriminate].
    injection Hraw as _ <-. unfold did. simpl. rewrite app_nil_r.
    repeat split. lia. }
  destruct (len raw =? len plaintext + 16) eqn:Hl; [|discriminate].
  apply Z.eqb_eq in Hl. cbn [negb] in H.
  apply bind_returned in H as (? & w3 & Hset & H).
  assert (Hd3 : did 0 [] w2 w3).
  { unfold ivSet, bind, getEncrypter in Hset.
    destruct (set (iv (encrypter w2)) _ 0); [|discriminate].
    injection Hset as _ <-. apply did_nothing; reflexivity. }
  apply bind_returned in H as (? & w4 & Hw & H).
  apply write_did in Hw.
  apply hmacUpdate_returned in H as (_ & ->).
  eexists. split.
  - apply (did_then 1 0 [] [_] w w2); [assumption|].
    apply (did_then 0 0 [] [_] w2 w3); [assumption|].
    apply (did_then 0 0 [_] [] w3 w4); [exact Hw|].
    apply did_nothing; reflexivity.
  - rewrite Hl.
    replace (len plaintext + 16 - 16) with (len plaintext) by lia.
    rewrite subarray_prefix by (pose proof (len_nonneg plaintext); lia).
    apply len_firstn. pose proof (len_nonneg plaintext). lia.
Qed.

Lemma finish_did (tail : list byte) (w w' : World) (r : unit) :
  finish (Some tail) w = (Returned r, w') ->
  exists tag,
    did 1 [aesCbc (rawKey (aesKey (encrypter w))) (iv (encrypter w)) tail; tag]
      w w' /\
    len tag = 32.
Proof.
  unfold finish. intros H.
  apply bind_returned in H as (e & w1 & He & H). injection He as <- <-.
  apply bind_returned in H as (raw & w2 & Hraw & H).
  assert (Hd2 : did 1 [] w w2 /\
                raw = aesCbc (rawKey (aesKey (encrypter w)))
                        (iv (encrypter w)) tail).
  { unfold subtleEncrypt in Hraw.
    destruct (len (iv (encrypter w)) =? 16); [|discriminate].
    injection Hraw as <- <-. split; [|reflexivity].
    unfold did. simpl. rewrite app_nil_r. repeat split. lia. }
  destruct Hd2 as (Hd2 & ->).
  apply bind_returned in H as (? & w3 & Hw & H).
  apply write_did in Hw.
  apply bind_returned in H as (? & w4 & Hu & H).
  apply hmacUpdate_returned in Hu as (_ & ->).
  apply bind_returned in H as (tag & w5 & Hd & H).
  apply hmacDigest_returned in Hd as (-> & ->).
  apply write_did in H.
  eexists. split.
  - destruct Hd2 as (Hc2 & Hw2 & Hs2), Hw as (Hc3 & Hw3 & Hs3),
      H as (Hc5 & Hw5 & Hs5).
    cbn [digested fed subtleCalls dst source] in Hc5, Hw5, Hs5.
    unfold did. rewrite Hc5, Hc3, Hc2, Hw5, Hw3, Hw2, Hs5, Hs3, Hs2.
    rewrite app_nil_r, <- app_assoc. repeat split. lia.
  - unfold tagOf, len. now rewrite length_bytesOfN.
Qed.

(* Quotients by the buffer size are taken as they are. *)
Ltac Zify.zify_post_hook ::= idtac.

Lemma div_mod_flush (B off amt x : Z) :
  0 < B -> off + amt = B -> 0 <= x ->
  (off + (amt + x)) / B = 1 + x / B /\ (off + (amt + x)) mod B = x mod B.
Proof.
  intros HB Hfull Hx.
  replace (off + (amt + x)) with (1 * B + x) by lia.
  rewrite Z.div_add_l by lia.
  replace (1 * B + x) with (x + 1 * B) by lia.
  now rewrite Z.mod_add by lia.
Qed.

(** The loop over one chunk, when it returns, has encrypted one whole buffer
    for each time the bytes staged and the bytes of the chunk fill the
    buffer, and stages the rest. *)
Lemma doWhile_did (fuel : nat) :
  forall (chunk buf : list byte) (off : Z) (w w' : World)
         (st : list byte * Z),
  doWhile fuel chunk buf off w = (Returned st, w') ->
  0 <= off < len buf ->
  exists cts,
    did (length cts) cts w w' /\
    Forall (fun c => len c = len buf) cts /\
    Z.of_nat (length cts) = (off + len chunk) / len buf /\
    snd st = (off + len chunk) mod len buf /\
    len (fst st) = len buf.
Proof.
  induction fuel as [|fuel IH]; intros chunk buf off w w' st H Ho;
    [discriminate|].
  cbn [doWhile] in H. cbv zeta in H.
  pose proof (len_nonneg chunk) as Hc.
  set (amt := Z.min (len buf - off) (len chunk)) in H.
  assert (Ha : 0 <= amt <= len chunk /\ off + amt <= len buf) by lia.
  rewrite subarray_prefix in H by lia.
  destruct (set buf (firstn (Z.to_nat amt) chunk) off) as [buf1|] eqn:Hset;
    [|discriminate].
  apply len_set in Hset.
  apply bind_returned in H as (off1 & w1 & Hstep & H).
  destruct (off + amt =? len buf1) eqn:Hfull.
  - apply Z.eqb_eq in Hfull. rewrite Hset in Hfull.
    apply bind_returned in Hstep as (? & w2 & He & Hr).
    injection Hr as <- <-.
    apply encrypt_did in He as (ct & Hd & Hl).
    destruct (amt <? len chunk) eqn:Hmore.
    + apply Z.ltb_lt in Hmore.
      rewrite subarrayFrom_suffix in H by lia.
      apply IH in H as (cts & Hd' & Hall & Hn & Hst & Hlb); [|lia].
      rewrite len_skipn in Hn, Hst by lia. rewrite Hset in *.
      destruct (div_mod_flush (len buf) off amt (len chunk - amt))
        as (Hdiv & Hmod); [lia | assumption | lia |].
      replace (off + (amt + (len chunk - amt))) with (off + len chunk)
        in Hdiv, Hmod by lia.
      rewrite Z.add_0_l in Hn, Hst.
      exists (ct :: cts).
      split; [exact (did_then 1 (length cts) [ct] cts w w2 w' Hd Hd')|].
      split; [constructor; assumption|].
      rewrite Hdiv, Hmod, <- Hn, <- Hst. clear Hdiv Hmod Hn Hst.
      split; [cbn [length]; lia|]. split; [reflexivity | assumption].
    + apply Z.ltb_ge in Hmore. injection H as <- <-.
      assert (Hamt : amt = len chunk) by lia.
      exists [ct]. rewrite Hset in Hl.
      split; [exact Hd|]. split; [constructor; [assumption | constructor]|].
      cbn [length fst snd].
      replace (off + len chunk) with (1 * len buf + 0) by lia.
      rewrite Z.div_add_l, Z.div_0_l by lia.
      replace (1 * len buf + 0) with (0 + 1 * len buf) by lia.
      rewrite Z.mod_add, Z.mod_0_l by lia.
      split; [reflexivity|]. split; [reflexivity | assumption].
  - apply Z.eqb_neq in Hfull. rewrite Hset in Hfull.
    injection Hstep as <- <-.
    destruct (amt <? len chunk) eqn:Hmore.
    + apply Z.ltb_lt in Hmore. lia.
    + apply Z.ltb_ge in Hmore. injection H as <- <-.
      assert (Hamt : amt = len chunk) by lia.
      exists [].
      split; [apply did_nothing; reflexivity|]. split; [constructor|].
      cbn [length fst snd].
      rewrite Z.div_small, Z.mod_small by lia.
      split; [reflexivity|]. split; [lia | assumption].
Qed.

(** The loop over the source, when it returns, has read the source to its
    end and encrypted one whole buffer for each time the plaintext filled
    the buffer. *)
Lemma forAwait_did (fuel : nat) :
  forall (buf : list byte) (off : Z) (w w' : World) (st : list byte * Z),
  forAwait fuel buf off w = (Returned st, w') ->
  0 <= off < len buf ->
  let L := len (concat (pending (source w))) in
  exists cts,
    subtleCalls w' = (subtleCalls w + length cts)%nat /\
    chunks (dst w') = chunks (dst w) ++ cts /\
    Forall (fun c => len c = len buf) cts /\
    Z.of_nat (length cts) = (off + L) / len buf /\
    snd st = (off + L) mod len buf /\
    len (fst st) = len buf /\
    pending (source w') = [] /\
    reads (source w')
    = (reads (source w) + length (pending (source w)) + 1)%nat.
Proof.
  induction fuel as [|fuel IH]; intros buf off w w' st H Ho;
    [discriminate|].
  cbn [forAwait] in H.
  apply bind_returned in H as (r & w1 & Hnext & H).
  unfold next in Hnext.
  destruct (pending (source w)) as [|chunk rest] eqn:Hp.
  - destruct (failsAtEnd (source w)); [discriminate|].
    injection Hnext as <- <-. injection H as <- <-.
    exists []. cbn. rewrite app_nil_r, Z.add_0_r.
    rewrite Z.div_small, Z.mod_small by lia.
    repeat split; try reflexivity; try lia. constructor.
  - injection Hnext as <- <-.
    apply bind_returned in H as (st1 & w2 & Hdo & H).
    apply doWhile_did in Hdo as (cts1 & (Hc1 & Hw1 & Hs1) & Hall1 & Hn1
                                   & Hst1 & Hl1); [|assumption].
    cbn [subtleCalls dst source] in Hc1, Hw1, Hs1.
    apply IH in H; [|rewrite Hl1, Hst1; apply Z.mod_pos_bound; lia].
    cbv zeta in H. rewrite Hs1 in H. cbn [pending reads] in H.
    destruct H as (cts2 & Hc2 & Hw2 & Hall2 & Hn2 & Hst2 & Hl2 & Hp2 & Hr2).
    rewrite Hl1 in *.
    set (L2 := len (concat rest)) in *.
    assert (HL2 : 0 <= L2) by apply len_nonneg.
    pose proof (len_nonneg chunk) as Hch.
    assert (Hsplit : (off + (len chunk + L2)) / len buf
                     = (off + len chunk) / len buf
                       + ((off + len chunk) mod len buf + L2) / len buf
                     /\ (off + (len chunk + L2)) mod len buf
                        = ((off + len chunk) mod len buf + L2) mod len buf).
    { pose proof (Z.div_mod (off + len chunk) (len buf)) as Hdm.
      set (q := (off + len chunk) / len buf) in *.
      set (m := (off + len chunk) mod len buf) in *.
      replace (off + (len chunk + L2)) with (q * len buf + (m + L2)) by lia.
      rewrite Z.div_add_l by lia.
      replace (q * len buf + (m + L2)) with ((m + L2) + q * len buf) by lia.
      rewrite Z.mod_add by lia. split; reflexivity. }
    destruct Hsplit as (Hdiv & Hmod).
    exists (cts1 ++ cts2). cbn [concat]. rewrite len_app. fold L2.
    rewrite length_app, Hdiv, Hmod, <- Hst1.
    split; [clear - Hc1 Hc2; lia|].
    split; [rewrite Hw2, Hw1; now rewrite app_assoc|].
    split; [apply Forall_app; split; assumption|].
    split; [rewrite Nat2Z.inj_add, Hn1, Hn2; reflexivity|].
    split; [assumption|]. split; [assumption|].
    split; [assumption|]. cbn [length]. clear - Hr2. lia.
Qed.

(** *** What the loops have encrypted *)

Lemma emittedBy_app (key : list byte) (a b : list (list byte)) :
  forall iv_ : list byte,
  emittedBy key iv_ (a ++ b)
  = (fst (emittedBy key iv_ a)
     ++ fst (emittedBy key (snd (emittedBy key iv_ a)) b),
     snd (emittedBy key (snd (emittedBy key iv_ a)) b)).
Proof.
  induction a as [|p a IH]; intros iv_.
  - cbn [app emittedBy fst snd]. now destruct (emittedBy key iv_ b).
  - cbn [app emittedBy fst snd]. rewrite IH. reflexivity.
Qed.

(** Between [w] and [w'] the non-final calls for [buffers] have returned, in
    order, and nothing else has touched the encrypter, the sink or the
    primitive. *)
Definition ran (buffers : list (list byte)) (w w' : World) : Prop :=
  let e := encrypter w in
  let res := emittedBy (rawKey (aesKey e)) (iv e) buffers in
  chunks (dst w') = chunks (dst w) ++ fst res /\
  encrypter w'
  = mkEncrypter
      (mkHmac (hmacKey (hmac e)) (message (hmac e) ++ concat (fst res))
         (finalized (hmac e)))
      (snd res) (aesKey e) /\
  subtleCalls w' = (subtleCalls w + length buffers)%nat /\
  Forall2 (fun p c => len c = len p) buffers (fst res).

Lemma ran_nothing (w w' : World) :
  encrypter w' = encrypter w -> chunks (dst w') = chunks (dst w) ->
  subtleCalls w' = subtleCalls w ->
  ran [] w w'.
Proof.
  intros He Hc Hn. unfold ran. cbn [emittedBy fst snd concat length].
  rewrite He, Hc, Hn, !app_nil_r, Nat.add_0_r.
  destruct (encrypter w) as [[hk msg fin] iv_ k]. cbn.
  split; [reflexivity|]. split; [reflexivity|]. split; [reflexivity|].
  constructor.
Qed.

Lemma ran_from (buffers : list (list byte)) (w0 w w' : World) :
  encrypter w = encrypter w0 -> chunks (dst w) = chunks (dst w0) ->
  subtleCalls w = subtleCalls w0 ->
  ran buffers w w' -> ran buffers w0 w'.
Proof. unfold ran. intros He Hc Hn. rewrite He, Hc, Hn. auto. Qed.

Lemma ran_then (a b : list (list byte)) (w w1 w2 : World) :
  ran a w w1 -> ran b w1 w2 -> ran (a ++ b) w w2.
Proof.
  unfold ran. cbv zeta. intros (Hc & He & Hn & Hl) (Hc' & He' & Hn' & Hl').
  rewrite He in Hc', He', Hl'.
  cbn [aesKey rawKey iv hmac hmacKey message finalized] in Hc', He', Hl'.
  rewrite emittedBy_app. cbn [fst snd].
  split; [rewrite Hc', Hc; now rewrite app_assoc|].
  split; [rewrite He', concat_app, app_assoc; reflexivity|].
  split; [rewrite Hn', Hn, length_app; symmetry; apply Nat.add_assoc|].
  now apply Forall2_app.
Qed.

Lemma ran_encrypt (plaintext : list byte) (w w' : World) (r : unit) :
  encrypt plaintext w = (Returned r, w') ->
  ran [plaintext] w w' /\ source w' = source w.
Proof.
  intros H.
  pose proof (encrypt_returned _ _ _ _ H) as (_ & _ & Hraw & _ & _).
  pose proof (encrypt_did _ _ _ _ H) as (ct & (Hn & _ & Hs) & _).
  assert (Hall : encryptAll [plaintext] w = (Returned tt, w')).
  { cbn [encryptAll]. unfold bind. rewrite H. reflexivity. }
  apply encryptAll_returned in Hall as (_ & _ & Hc & He).
  cbv zeta in Hc, He.
  split; [|exact Hs]. unfold ran. cbv zeta.
  split; [exact Hc|]. split; [exact He|]. split; [exact Hn|].
  cbn [emittedBy fst]. constructor; [|constructor].
  unfold len in *. rewrite length_firstn. lia.
Qed.

Lemma doWhile_ran (fuel : nat) :
  forall (chunk buf : list byte) (off : Z) (w w' : World)
         (st : list byte * Z),
  doWhile fuel chunk buf off w = (Returned st, w') ->
  0 <= off < len buf ->
  exists buffers : list (list byte),
    ran buffers w w' /\
    Forall (fun b => len b = len buf) buffers /\
    firstn (Z.to_nat off) buf ++ chunk
    = concat buffers ++ firstn (Z.to_nat (snd st)) (fst st) /\
    len (fst st) = len buf /\ 0 <= snd st < len buf /\
    source w' = source w.
Proof.
  induction fuel as [|fuel IH]; intros chunk buf off w w' st H Ho;
    [discriminate|].
  cbn [doWhile] in H. cbv zeta in H.
  pose proof (len_nonneg chunk) as Hc.
  set (amt := Z.min (len buf - off) (len chunk)) in H.
  assert (Ha : 0 <= amt <= len chunk /\ off + amt <= len buf) by lia.
  rewrite subarray_prefix in H by lia.
  assert (Hla : len (firstn (Z.to_nat amt) chunk) = amt)
    by (apply len_firstn; lia).
  destruct (set_staged buf (firstn (Z.to_nat amt) chunk) off)
    as (buf1 & Hset & Hl1 & Hst & Hfl); [lia | lia |].
  rewrite Hset in H. rewrite Hla in Hst, Hfl. clear Hset.
  apply bind_returned in H as (off1 & w1 & Hstep & H).
  destruct (off + amt =? len buf1) eqn:Hfull.
  - apply Z.eqb_eq in Hfull. rewrite Hl1 in Hfull. specialize (Hfl Hfull).
    apply bind_returned in Hstep as (? & w2 & He & Hr).
    injection Hr as <- <-.
    apply ran_encrypt in He as (Hran & Hs2).
    destruct (amt <? len chunk) eqn:Hmore.
    + apply Z.ltb_lt in Hmore.
      rewrite subarrayFrom_suffix in H by lia.
      apply IH in H as (buffers & Hran' & Hall & Hx & Hlb & Hoff & Hs');
        [|lia].
      rewrite Hl1 in Hall, Hlb, Hoff. cbn [Z.to_nat firstn app] in Hx.
      exists (buf1 :: buffers).
      split; [exact (ran_then [buf1] buffers w w2 w' Hran Hran')|].
      split; [constructor; assumption|].
      split; [|split; [assumption|split; [assumption | congruence]]].
      cbn [concat]. rewrite <- app_assoc, <- Hx, Hfl, <- app_assoc.
      now rewrite firstn_skipn.
    + apply Z.ltb_ge in Hmore. injection H as <- <-.
      assert (Hamt : amt = len chunk) by lia.
      exists [buf1]. cbn [fst snd concat Z.to_nat firstn].
      split; [exact Hran|].
      split; [constructor; [assumption | constructor]|].
      split; [|split; [assumption|split; [lia | assumption]]].
      rewrite !app_nil_r, Hfl. f_equal.
      symmetry. apply firstn_all2. unfold len in *. lia.
  - apply Z.eqb_neq in Hfull. rewrite Hl1 in Hfull.
    injection Hstep as <- <-.
    destruct (amt <? len chunk) eqn:Hmore.
    + apply Z.ltb_lt in Hmore. lia.
    + apply Z.ltb_ge in Hmore. injection H as <- <-.
      assert (Hamt : amt = len chunk) by lia.
      exists []. cbn [fst snd concat app].
      split; [apply ran_nothing; reflexivity|].
      split; [constructor|].
      split; [|split; [assumption|split; [lia | reflexivity]]].
      rewrite Hst. f_equal.
      symmetry. apply firstn_all2. unfold len in *. lia.
Qed.

Lemma forAwait_ran (fuel : nat) :
  forall (buf : list byte) (off : Z) (w w' : World) (st : list byte * Z),
  forAwait fuel buf off w = (Returned st, w') ->
  0 <= off < len buf ->
  exists buffers : list (list byte),
    ran buffers w w' /\
    Forall (fun b => len b = len buf) buffers /\
    firstn (Z.to_nat off) buf ++ concat (pending (source w))
    = concat buffers ++ firstn (Z.to_nat (snd st)) (fst st) /\
    len (fst st) = len buf /\ 0 <= snd st < len buf.
Proof.
  induction fuel as [|fuel IH]; intros buf off w w' st H Ho;
    [discriminate|].
  cbn [forAwait] in H.
  apply bind_returned in H as (r & w1 & Hnext & H).
  unfold next in Hnext.
  destruct (pending (source w)) as [|chunk rest] eqn:Hp.
  - destruct (failsAtEnd (source w)); [discriminate|].
    injection Hnext as <- <-. injection H as <- <-.
    exists []. cbn [fst snd concat app].
    split; [apply ran_nothing; reflexivity|]. split; [constructor|].
    split; [apply app_nil_r|]. split; [reflexivity | assumption].
  - injection Hnext as <- <-.
    apply bind_returned in H as (st1 & w2 & Hdo & H).
    apply doWhile_ran in Hdo as (b1 & Hran1 & Hall1 & Hx1 & Hl1 & Ho1 & Hs1);
      [|assumption].
    apply IH in H as (b2 & Hran2 & Hall2 & Hx2 & Hl2 & Ho2);
      [|rewrite Hl1; assumption].
    rewrite Hl1 in Hall2, Hl2, Ho2.
    rewrite Hs1 in Hx2. cbn [source pending] in Hx2.
    exists (b1 ++ b2).
    split.
    { eapply ran_then; [|exact Hran2].
      eapply ran_from; [| | |exact Hran1]; reflexivity. }
    split; [apply Forall_app; split; assumption|].
    split; [|split; assumption].
    cbn [concat]. rewrite concat_app, app_assoc, Hx1, <- !app_assoc.
    now rewrite Hx2.
Qed.

Lemma ran_lengths (B : Z) (buffers cts : list (list byte)) :
  Forall (fun b => len b = B) buffers ->
  Forall2 (fun p c => len c = len p) buffers cts ->
  Forall (fun c => len c = B) cts.
Proof.
  intros Hb Hl. induction Hl as [|p c ps cs Hpc _ IH]; [constructor|].
  inversion Hb; subst. constructor; [congruence | auto].
Qed.

Lemma len_concat_uniform (B : Z) (buffers : list (list byte)) :
  Forall (fun b => len b = B) buffers ->
  len (concat buffers) = B * Z.of_nat (length buffers).
Proof.
  induction 1 as [|b bs Hb _ IH]; [cbn; lia|].
  cbn [concat length]. rewrite len_app, IH, Hb. lia.
Qed.

(** What a run of [streamEncrypt] that returned has done, on any platform:
    it has cut the plaintext of the source into buffers of [bufferSize] bytes
    and a shorter rest, and made the calls of a session over them. *)
Lemma streamEncrypt_returned (bufferSize : option number) (B : Z)
    (w w' : World) :
  orDefault bufferSize = Int B ->
  streamEncrypt bufferSize w = (Returned tt, w') ->
  let e := encrypter w in
  exists (buffers : list (list byte)) (tail : list byte),
    concat (pending (source w)) = concat buffers ++ tail /\
    Forall (fun b => len b = B) buffers /\
    0 <= len tail < B /\
    let res := emittedBy (rawKey (aesKey e)) (iv e) buffers in
    let cts := fst res in
    let final := aesCbc (rawKey (aesKey e)) (snd res) tail in
    let tag := bytesOfN 32
                 (hmacSha256 (hmacKey (hmac e))
                    (message (hmac e) ++ iv e ++ concat cts ++ final)) in
    chunks (dst w') = chunks (dst w) ++ [iv e] ++ cts ++ [final; tag] /\
    Forall (fun c => len c = B) cts /\
    subtleCalls w' = (subtleCalls w + length buffers + 1)%nat /\
    pending (source w') = [] /\
    reads (source w')
    = (reads (source w) + length (pending (source w)) + 1)%nat.
Proof.
  intros HB H e. subst e. unfold streamEncrypt in H. cbv zeta in H.
  rewrite HB in H.
  destruct (notMultipleOf16 (Int B)); [discriminate|].
  apply bind_returned in H as (? & w1 & Hg & H).
  assert (Hw1 : subtleCalls w1 = subtleCalls w /\
                chunks (dst w1) = chunks (dst w) /\
                source w1 = source w /\ encrypter w1 = encrypter w).
  { unfold getWriter, bind, getSink in Hg.
    destruct (locked (dst w)); [discriminate|].
    injection Hg as _ <-. repeat split. }
  destruct Hw1 as (Hc1 & Hch1 & Hs1 & He1).
  apply tryFinally_returned in H as (w5 & H & Hclose).
  assert (Hw5 : subtleCalls w' = subtleCalls w5 /\
                chunks (dst w') = chunks (dst w5) /\
                source w' = source w5).
  { unfold close, bind, getSink in Hclose.
    destruct (state (dst w5)); [destruct (closeFails (dst w5))| |];
      try discriminate.
    injection Hclose as <-. repeat split. }
  destruct Hw5 as (Hc5 & Hch5 & Hs5).
  unfold tryBlock in H.
  apply bind_returned in H as (? & w2 & Hi & H).
  pose proof (init_returned _ _ _ Hi) as (He2 & _).
  apply init_did in Hi as (Hc2 & Hch2 & Hs2).
  apply bind_returned in H as (buf & w3 & Hn & H).
  unfold newUint8Array in Hn.
  destruct ((B <? 0) || (maxByteLength <? B)) eqn:Hz; [discriminate|].
  injection Hn as <- <-.
  apply orb_false_iff in Hz as (Hz & _). apply Z.ltb_ge in Hz.
  pose proof (orDefault_nonzero bufferSize B HB) as Hnz.
  set (buf := repeat x00 (Z.to_nat B)) in H.
  assert (Hlb : len buf = B)
    by (subst buf; unfold len; rewrite repeat_length; lia).
  apply bind_returned in H as (src & w4 & Hsrc & H).
  injection Hsrc as <- <-.
  apply bind_returned in H as (st & w4 & Hf & H).
  pose proof (forAwait_ran _ _ _ _ _ _ Hf) as Hran.
  destruct Hran as (buffers & (Hch4 & He4 & Hc4 & Hl4) & Hall & Hx & Hlst
                    & Host); [lia|].
  apply forAwait_did in Hf; [|lia]. cbv zeta in Hf.
  destruct Hf as (_ & _ & _ & _ & _ & _ & _ & Hp4 & Hr4).
  rewrite Hlb in Hall, Hlst, Host.
  cbn [Z.to_nat firstn app] in Hx.
  rewrite subarray_prefix in H by lia.
  set (tail := firstn (Z.to_nat (snd st)) (fst st)) in *.
  pose proof (finish_returned _ _ _ _ H) as (_ & Hch6).
  apply finish_did in H as (tag & (Hc6 & _ & Hs6) & _).
  cbv zeta in Hch6. unfold tagOf in Hch6.
  cbn [fed encrypter hmac hmacKey message aesKey rawKey iv] in Hch6.
  rewrite He4 in Hch6.
  cbn [hmac hmacKey message aesKey rawKey iv] in Hch6.
  rewrite He2 in Hch4, Hch6, Hl4.
  cbn [fed encrypter hmac hmacKey message finalized aesKey rawKey iv]
    in Hch4, Hch6, Hl4.
  rewrite He1 in Hch4, Hch6, Hl4.
  exists buffers, tail. cbv zeta.
  split; [rewrite <- Hx, Hs2, Hs1; reflexivity|].
  split; [assumption|].
  split; [subst tail; rewrite len_firstn by lia; assumption|].
  split.
  { rewrite Hch5, Hch6, Hch4, Hch2, Hch1, He1, <- !app_assoc. reflexivity. }
  split; [exact (ran_lengths B buffers _ Hall Hl4)|].
  split; [rewrite Hc5, Hc6, Hc4, Hc2, Hc1; clear; lia|].
  rewrite Hs5, Hs6. split; [assumption|].
  rewrite Hr4, Hs2, Hs1. reflexivity.
Qed.

(** X7: when [streamEncrypt] returns, on any platform, the plaintext of the
    source is some buffers of exactly [bufferSize] bytes followed by a rest of
    fewer than [bufferSize] bytes, and the sink has accepted, in this order
    and nothing else: the initialisation vector; for each buffer, the output
    of the primitive on that buffer under the chaining value the buffers
    before it have left, without its padding block; the output of the
    primitive on the rest under the last chaining value; and the 32-byte
    HMAC of all of these after what the HMAC had been fed.  The primitive was
    called once per chunk of ciphertext, and the source was read once per
    chunk it held and once more to find its end. *)
Theorem streamEncrypt_writes (bufferSize : option number) (B : Z)
    (w w' : World) :
  orDefault bufferSize = Int B ->
  streamEncrypt bufferSize w = (Returned tt, w') ->
  let e := encrypter w in
  let plaintext := concat (pending (source w)) in
  let L := len plaintext in
  exists (buffers : list (list byte)) (tail : list byte),
    plaintext = concat buffers ++ tail /\
    Forall (fun b => len b = B) buffers /\
    Z.of_nat (length buffers) = L / B /\
    len tail = L mod B /\ 0 <= len tail < B /\
    let res := emittedBy (rawKey (aesKey e)) (iv e) buffers in
    let cts := fst res in
    let final := aesCbc (rawKey (aesKey e)) (snd res) tail in
    let tag := bytesOfN 32
                 (hmacSha256 (hmacKey (hmac e))
                    (message (hmac e) ++ iv e ++ concat cts ++ final)) in
    chunks (dst w') = chunks (dst w) ++ [iv e] ++ cts ++ [final; tag] /\
    Forall (fun c => len c = B) cts /\
    Z.of_nat (length cts) = L / B /\
    len tag = 32 /\
    Z.of_nat (subtleCalls w') = Z.of_nat (subtleCalls w) + L / B + 1 /\
    pending (source w') = [] /\
    reads (source w')
    = (reads (source w) + length (pending (source w)) + 1)%nat.
Proof.
  intros HB H e plaintext L.
  destruct (streamEncrypt_returned bufferSize B w w' HB H)
    as (buffers & tail & Hx & Hall & Ht & Hch & Hcts & Hn & Hp & Hr).
  cbv zeta in Hch, Hcts.
  assert (HL : L = B * Z.of_nat (length buffers) + len tail).
  { subst L plaintext. rewrite Hx, len_app.
    now rewrite (len_concat_uniform B). }
  assert (Hdiv : Z.of_nat (length buffers) = L / B)
    by (apply (Z.div_unique L B _ (len tail)); [left|]; assumption).
  assert (Hmod : len tail = L mod B)
    by (apply (Z.mod_unique L B (Z.of_nat (length buffers)));
        [left|]; assumption).
  exists buffers, tail. cbv zeta.
  split; [exact Hx|]. split; [exact Hall|]. split; [exact Hdiv|].
  split; [exact Hmod|]. split; [exact Ht|]. split; [exact Hch|].
  split; [exact Hcts|].
  split; [rewrite length_emittedBy; exact Hdiv|].
  split; [unfold len; rewrite length_bytesOfN; reflexivity|].
  split; [rewrite Hn, <- Hdiv; clear; lia|].
  split; [exact Hp | exact Hr].
Qed.

Ltac Zify.zify_post_hook ::= Z.to_euclidean_division_equations.

End Writes.

Lemma streamEncrypt_writes_witness :
  let w := Sample.world [repeat x41 7; []; repeat x42 30] in
  let w' :=
    snd (streamEncrypt (platform := Sample.platform) (Some (Int 16)) w) in
  let e := encrypter w in
  let plaintext := concat (pending (source w)) in
  let L := len plaintext in
  exists (buffers : list (list byte)) (tail : list byte),
    plaintext = concat buffers ++ tail /\
    Forall (fun b => len b = 16) buffers /\
    Z.of_nat (length buffers) = L / 16 /\
    len tail = L mod 16 /\ 0 <= len tail < 16 /\
    let res :=
      emittedBy (platform := Sample.platform) (rawKey (aesKey e)) (iv e)
        buffers in
    let cts := fst res in
    let final :=
      aesCbc (Platform := Sample.platform) (rawKey (aesKey e)) (snd res)
        tail in
    let tag := bytesOfN 32
                 (hmacSha256 (Platform := Sample.platform) (hmacKey (hmac e))
                    (message (hmac e) ++ iv e ++ concat cts ++ final)) in
    chunks (dst w') = chunks (dst w) ++ [iv e] ++ cts ++ [final; tag] /\
    Forall (fun c => len c = 16) cts /\
    Z.of_nat (length cts) = L / 16 /\
    len tag = 32 /\
    Z.of_nat (subtleCalls w') = Z.of_nat (subtleCalls w) + L / 16 + 1 /\
    pending (source w') = [] /\
    reads (source w')
    = (reads (source w) + length (pending (source w)) + 1)%nat.
Proof.
  apply (streamEncrypt_writes (platform := Sample.platform) (Some (Int 16)) 16
           (Sample.world [repeat x41 7; []; repeat x42 30])).
  - reflexivity.
  - vm_compute. reflexivity.
Defined.

(** *** A buffer size of 0 *)

(** C9: a buffer size of 0 passes the alignment test and runs the call that
    leaving the buffer size out runs, which is the one with a staging buffer
    of 1048576 bytes.  In good conditions, on a runtime that allocates that
    many bytes, the call returns, and the staging buffer shows in what it
    has done: the plaintext of the source went to the primitive in buffers
    of exactly 1048576 bytes, each written as a chunk of 1048576 bytes of
    ciphertext, and a rest of fewer than 1048576 bytes, encrypted last; the
    primitive was called once for each. *)
Theorem streamEncrypt_zero_bufferSize (blockCipher : list byte -> N -> N)
    (hmacFn : list byte -> list byte -> N) (maxLen : Z) (w : World) :
  let cbc := cbcPlatform blockCipher hmacFn maxLen in
  let run := streamEncrypt (platform := cbc) in
  orDefault (Some (Int 0)) = Int 1048576 /\
  notMultipleOf16 (orDefault (Some (Int 0))) = false /\
  run (Some (Int 0)) w = run None w /\
  run (Some (Int 0)) w = run (Some (Int 1048576)) w /\
  run (Some (Int 0)) w
  = (getWriter ;;
     tryFinally (tryBlock (platform := cbc) (Int 1048576)) close) w /\
  (1048576 <= maxLen -> live (encrypter w) = true -> ready w = true ->
   let e := encrypter w in
   let L := len (concat (pending (source w))) in
   exists (w' : World) (buffers : list (list byte)) (tail : list byte),
     run (Some (Int 0)) w = (Returned tt, w') /\
     concat (pending (source w)) = concat buffers ++ tail /\
     Forall (fun b => len b = 1048576) buffers /\
     Z.of_nat (length buffers) = L / 1048576 /\
     0 <= len tail < 1048576 /\
     let res := emittedBy (platform := cbc) (rawKey (aesKey e)) (iv e)
                  buffers in
     let cts := fst res in
     let final := aesCbcEncrypt blockCipher (rawKey (aesKey e)) (snd res)
                    tail in
     let tag := bytesOfN 32
                  (hmacFn (hmacKey (hmac e))
                     (message (hmac e) ++ iv e ++ concat cts ++ final)) in
     chunks (dst w') = chunks (dst w) ++ [iv e] ++ cts ++ [final; tag] /\
     Forall (fun c => len c = 1048576) cts /\
     Z.of_nat (subtleCalls w')
     = Z.of_nat (subtleCalls w) + L / 1048576 + 1).
Proof.
  intros cbc run. subst run.
  split; [reflexivity|]. split; [reflexivity|]. split; [reflexivity|].
  split; [reflexivity|]. split; [reflexivity|].
  intros Hmax Hlive Hready e L.
  destruct (streamEncrypt_sealed blockCipher hmacFn maxLen (Some (Int 0)) w)
    as (w' & Hrun & _); try assumption.
  { unfold fits. simpl. apply Z.leb_le in Hmax. rewrite Hmax. reflexivity. }
  destruct (streamEncrypt_returned (platform := cbc) (Some (Int 0)) 1048576
              w w' eq_refl Hrun)
    as (buffers & tail & Hx & Hall & Ht & Hch & Hcts & Hn & _).
  cbv zeta in Hch, Hcts.
  assert (HL : L = 1048576 * Z.of_nat (length buffers) + len tail).
  { subst L. rewrite Hx, len_app.
    now rewrite (len_concat_uniform 1048576). }
  assert (Hdiv : Z.of_nat (length buffers) = L / 1048576)
    by (apply (Z.div_unique L 1048576 _ (len tail)); [left|]; assumption).
  exists w', buffers, tail. cbv zeta.
  split; [exact Hrun|]. split; [exact Hx|]. split; [exact Hall|].
  split; [exact Hdiv|]. split; [exact Ht|]. split; [exact Hch|].
  split; [exact Hcts|].
  rewrite Hn, <- Hdiv. clear. lia.
Qed.

Lemma streamEncrypt_zero_bufferSize_witness :
  let cbc := cbcPlatform Sample.cipher Sample.keyedHash 2097152 in
  let w := Sample.world [repeat x41 7] in
  let e := encrypter w in
  let L := len (concat (pending (source w))) in
  exists (w' : World) (buffers : list (list byte)) (tail : list byte),
    streamEncrypt (platform := cbc) (Some (Int 0)) w = (Returned tt, w') /\
    concat (pending (source w)) = concat buffers ++ tail /\
    Forall (fun b => len b = 1048576) buffers /\
    Z.of_nat (length buffers) = L / 1048576 /\
    0 <= len tail < 1048576 /\
    let res := emittedBy (platform := cbc) (rawKey (aesKey e)) (iv e)
                 buffers in
    let cts := fst res in
    let final := aesCbcEncrypt Sample.cipher (rawKey (aesKey e)) (snd res)
                   tail in
    let tag := bytesOfN 32
                 (Sample.keyedHash (hmacKey (hmac e))
                    (message (hmac e) ++ iv e ++ concat cts ++ final)) in
    chunks (dst w') = chunks (dst w) ++ [iv e] ++ cts ++ [final; tag] /\
    Forall (fun c => len c = 1048576) cts /\
    Z.of_nat (subtleCalls w')
    = Z.of_nat (subtleCalls w) + L / 1048576 + 1.
Proof.
  destruct (streamEncrypt_zero_bufferSize Sample.cipher Sample.keyedHash
              2097152 (Sample.world [repeat x41 7])) as (_ & _ & _ & _ & _ & H).
  apply H; [vm_compute; discriminate | reflexivity | reflexivity].
Defined.

(** * The test utilities (workers/src/testutil.ts)

    ** Bytes and numbers *)

Lemma byteOfN_to_N (b : byte) (r : N) : byteOfN (Byte.to_N b + 256 * r) = b.
Proof.
  unfold byteOfN. pose proof (Byte.to_N_bounded b) as Hb.
  replace ((Byte.to_N b + 256 * r) mod 256)%N with (Byte.to_N b)
    by (rewrite N.mul_comm, N.Div0.mod_add, N.mod_small; lia).
  now rewrite Byte.of_to_N.
Qed.

Lemma to_N_byteOfN (x : N) : Byte.to_N (byteOfN x) = (x mod 256)%N.
Proof.
  unfold byteOfN. destruct (Byte.of_N (x mod 256)) as [b|] eqn:E.
  - now apply Byte.to_of_N.
  - pose proof (Byte.to_of_N_option_map (x mod 256)) as H.
    rewrite E in H. simpl in H.
    assert (x mod 256 < 256)%N by (apply N.mod_lt; discriminate).
    destruct (N.leb_spec (x mod 256) 255); [discriminate | lia].
Qed.

Lemma bytesOfN_NOfBytes (a : list byte) : bytesOfN (length a) (NOfBytes a) = a.
Proof.
  induction a as [|b a IH]; [reflexivity|].
  cbn [length NOfBytes]. unfold bytesOfN. fold bytesOfN.
  rewrite byteOfN_to_N. f_equal.
  pose proof (Byte.to_N_bounded b) as Hb.
  replace ((Byte.to_N b + 256 * NOfBytes a) / 256)%N with (NOfBytes a);
    [exact IH|].
  rewrite N.add_comm, N.mul_comm, N.div_add_l by discriminate.
  rewrite (N.div_small (Byte.to_N b)) by lia. lia.
Qed.

Lemma NOfBytes_bytesOfN (n : nat) :
  forall x, NOfBytes (bytesOfN n x) = (x mod 256 ^ N.of_nat n)%N.
Proof.
  induction n as [|n IH]; intros x.
  - cbn. now rewrite N.mod_1_r.
  - unfold bytesOfN. fold bytesOfN. cbn [NOfBytes].
    rewrite IH, to_N_byteOfN, Nat2N.inj_succ, N.pow_succ_r'.
    now rewrite N.Div0.mod_mul_r.
Qed.

Lemma NOfBytes_bound (a : list byte) :
  (NOfBytes a < 256 ^ N.of_nat (length a))%N.
Proof.
  induction a as [|b a IH].
  - cbn. lia.
  - cbn [length NOfBytes]. rewrite Nat2N.inj_succ, N.pow_succ_r'.
    pose proof (Byte.to_N_bounded b). lia.
Qed.

Lemma lxor_bound (a b n : N) :
  (a < 2 ^ n)%N -> (b < 2 ^ n)%N -> (N.lxor a b < 2 ^ n)%N.
Proof.
  intros Ha Hb.
  destruct (N.eq_dec (N.lxor a b) 0) as [E|E];
    [rewrite E; apply N.neq_0_lt_0, N.pow_nonzero; discriminate|].
  apply N.log2_lt_pow2; [lia|].
  eapply N.le_lt_trans; [apply N.log2_lxor|].
  destruct (N.eq_dec a 0) as [Ea|Ea], (N.eq_dec b 0) as [Eb|Eb]; subst.
  - rewrite N.lxor_0_l in E. congruence.
  - rewrite N.max_r by (apply N.log2_le_mono; lia).
    apply N.log2_lt_pow2; lia.
  - rewrite N.max_l by (apply N.log2_le_mono; lia).
    apply N.log2_lt_pow2; lia.
  - apply N.max_lub_lt; apply N.log2_lt_pow2; lia.
Qed.

Lemma lxor_cancel (a b : N) : N.lxor (N.lxor a b) a = b.
Proof.
  now rewrite (N.lxor_comm a b), N.lxor_assoc, N.lxor_nilpotent, N.lxor_0_r.
Qed.

(** ** AES-CBC decryption, one-shot

    [subtle.decrypt({name: 'AES-CBC', iv}, key, data)] of the runtime, over
    the inverse of the block cipher: the data must be a whole, positive
    number of blocks and end in a PKCS#7 padding, which is taken off. *)

Section AesCbcDecrypt.

Variable blockDecipher : list byte -> N -> N.

Definition decryptBlock (key prev block : list byte) : list byte :=
  bytesOfN 16 (N.lxor (blockDecipher key (NOfBytes block)) (NOfBytes prev)).

Definition cbcUnabsorb (key : list byte) (st : cbcState) (b : byte)
    : cbcState :=
  let '(prev, cur, out) := st in
  let cur' := cur ++ [b] in
  if Nat.eqb (length cur') 16
  then (cur', [], out ++ decryptBlock key prev cur')
  else (prev, cur', out).

Definition unpad (data : list byte) : option (list byte) :=
  let pad := last data x00 in
  let n := N.to_nat (Byte.to_N pad) in
  if (1 <=? n)%nat && (n <=? 16)%nat && (n <=? length data)%nat
     && forallb (Byte.eqb pad) (skipn (length data - n) data)
  then Some (firstn (length data - n) data)
  else None.

Definition aesCbcDecrypt (key iv_ data : list byte) : option (list byte) :=
  if Nat.eqb (length data) 0 || negb (Nat.eqb (length data mod 16) 0)
  then None
  else unpad (outOf (fold_left (cbcUnabsorb key) data (iv_, [], []))).

End AesCbcDecrypt.

Section CbcRoundTrip.

Variables blockCipher blockDecipher : list byte -> N -> N.
Variable key : list byte.

(** The decipher undoes the cipher on 128-bit blocks. *)
Hypothesis decipher_cipher :
  forall x, (x < 2 ^ 128)%N ->
  blockDecipher key (blockCipher key x mod 2 ^ 128) = x.

Lemma NOfBytes_16 (a : list byte) :
  length a = 16%nat -> (NOfBytes a < 2 ^ 128)%N.
Proof.
  intros H. pose proof (NOfBytes_bound a) as Hb. rewrite H in Hb.
  exact Hb.
Qed.

Lemma decryptBlock_encryptBlock (prev block : list byte) :
  length prev = 16%nat -> length block = 16%nat ->
  decryptBlock blockDecipher key prev
    (encryptBlock blockCipher key prev block)
  = block.
Proof.
  intros Hp Hb. unfold decryptBlock, encryptBlock.
  rewrite (NOfBytes_bytesOfN 16).
  change (256 ^ N.of_nat 16)%N with (2 ^ 128)%N.
  rewrite decipher_cipher
    by (apply lxor_bound; apply NOfBytes_16; assumption).
  rewrite lxor_cancel, <- Hb. apply bytesOfN_NOfBytes.
Qed.

Lemma unabsorb_out_prefix (data prev cur out : list byte) :
  fold_left (cbcUnabsorb blockDecipher key) data (prev, cur, out)
  = let st := fold_left (cbcUnabsorb blockDecipher key) data (prev, cur, [])
    in (fst (fst st), snd (fst st), out ++ snd st).
Proof.
  revert prev cur out.
  induction data as [|b data IH]; intros prev cur out; simpl.
  - now rewrite app_nil_r.
  - destruct (Nat.eqb (length (cur ++ [b])) 16).
    + rewrite IH.
      rewrite (IH _ _ (decryptBlock blockDecipher key prev (cur ++ [b]))).
      cbv zeta. simpl. now rewrite <- app_assoc.
    + apply IH.
Qed.

Lemma unabsorb_block (data prev cur out : list byte) :
  data <> [] -> (length cur + length data = 16)%nat ->
  fold_left (cbcUnabsorb blockDecipher key) data (prev, cur, out)
  = (cur ++ data, [],
     out ++ decryptBlock blockDecipher key prev (cur ++ data)).
Proof.
  revert cur. induction data as [|b data IH]; intros cur Hne H;
    [congruence|]. simpl in *.
  destruct data as [|b' data].
  - simpl.
    assert (E : Nat.eqb (length (cur ++ [b])) 16 = true)
      by (apply Nat.eqb_eq; rewrite length_app; simpl in *; lia).
    now rewrite E.
  - assert (E : Nat.eqb (length (cur ++ [b])) 16 = false)
      by (apply Nat.eqb_neq; rewrite length_app; simpl in *; lia).
    rewrite E, IH; [|discriminate|rewrite length_app; simpl in *; lia].
    now rewrite <- app_assoc.
Qed.

(** Decrypting the ciphertext of a run in progress gives back the plaintext
    of the blocks that were encrypted. *)
Lemma unrun_run (iv_ data : list byte) :
  length iv_ = 16%nat ->
  let st := cbcRun blockCipher key iv_ data in
  let cur := snd (fst st) in
  (length (outOf st) + length cur = length data)%nat /\
  (length cur < 16)%nat /\
  cur = skipn (length (outOf st)) data /\
  length (chainOf st) = 16%nat /\
  fold_left (cbcUnabsorb blockDecipher key) (outOf st) (iv_, [], [])
  = (chainOf st, [], firstn (length (outOf st)) data).
Proof.
  intros Hiv. unfold cbcRun, chainOf, outOf.
  induction data as [|b data IH] using rev_ind.
  - simpl. repeat split; [lia | assumption].
  - rewrite fold_left_app. cbn [fold_left].
    destruct (fold_left (cbcAbsorb blockCipher key) data (iv_, [], []))
      as [[prev cur] out].
    cbn [fst snd] in IH. destruct IH as (Hl & Hc & Hs & Hp & Hd).
    unfold cbcAbsorb.
    destruct (Nat.eqb (length (cur ++ [b])) 16) eqn:E; cbn [fst snd];
      [apply Nat.eqb_eq in E | apply Nat.eqb_neq in E];
      rewrite length_app in E; cbn [length] in E.
    + assert (Hblk : length (cur ++ [b]) = 16%nat)
        by (rewrite length_app; simpl; lia).
      rewrite !length_app, length_encryptBlock. cbn [length].
      split; [lia|]. split; [lia|]. split.
      { rewrite skipn_all2; [reflexivity|]. rewrite length_app. simpl. lia. }
      split; [reflexivity|].
      rewrite fold_left_app, Hd.
      rewrite unabsorb_block;
        [|intros Hn; apply (f_equal (@length byte)) in Hn;
          rewrite length_encryptBlock in Hn; discriminate
         |rewrite length_encryptBlock; reflexivity].
      cbn [app]. rewrite decryptBlock_encryptBlock by assumption.
      f_equal.
      rewrite (firstn_all2 (n := (length out + 16)%nat))
        by (rewrite length_app; simpl; lia).
      rewrite <- (firstn_skipn (length out) data) at 2.
      rewrite <- Hs, <- app_assoc. reflexivity.
    + rewrite !length_app. cbn [length].
      split; [lia|]. split; [lia|]. split.
      { rewrite skipn_app, <- Hs.
        replace (length out - length data)%nat with 0%nat by lia.
        reflexivity. }
      split; [assumption|].
      rewrite Hd. f_equal. rewrite firstn_app.
      replace (length out - length data)%nat with 0%nat by lia.
      simpl. now rewrite app_nil_r.
Qed.

Lemma unpad_pkcs7 (data : list byte) : unpad (data ++ pkcs7 data) = Some data.
Proof.
  unfold unpad, pkcs7.
  set (n := (16 - length data mod 16)%nat).
  assert (Hn : (1 <= n <= 16)%nat) by (subst n; lia).
  set (pad := byteOfN (N.of_nat n)).
  assert (Hlast : last (data ++ repeat pad n) x00 = pad).
  { destruct n as [|n]; [lia|].
    replace (repeat pad (S n)) with (repeat pad n ++ [pad])
      by (rewrite <- repeat_cons; reflexivity).
    rewrite app_assoc. apply last_last. }
  rewrite Hlast.
  assert (Hpad : N.to_nat (Byte.to_N pad) = n).
  { subst pad. rewrite to_N_byteOfN, N.mod_small by lia. lia. }
  rewrite Hpad, length_app, repeat_length.
  replace (length data + n - n)%nat with (length data) by lia.
  rewrite skipn_app, skipn_all, Nat.sub_diag, firstn_app, firstn_all,
    Nat.sub_diag.
  cbn [skipn firstn app]. rewrite app_nil_r.
  assert (Hall : forallb (Byte.eqb pad) (repeat pad n) = true).
  { apply forallb_forall. intros x Hx. apply repeat_spec in Hx. subst x.
    now apply Byte.byte_dec_lb. }
  rewrite Hall.
  destruct (Nat.leb_spec 1 n); [|lia].
  destruct (Nat.leb_spec n 16); [|lia].
  destruct (Nat.leb_spec n (length data + n)); [|lia].
  reflexivity.
Qed.

(** One-shot decryption undoes one-shot encryption. *)
Lemma aesCbcDecrypt_aesCbcEncrypt (iv_ plaintext : list byte) :
  length iv_ = 16%nat ->
  aesCbcDecrypt blockDecipher key iv_
    (aesCbcEncrypt blockCipher key iv_ plaintext)
  = Some plaintext.
Proof.
  intros Hiv. unfold aesCbcDecrypt.
  pose proof (length_aesCbc blockCipher key iv_ plaintext Hiv) as Hlen.
  destruct (Nat.eqb_spec (length (aesCbcEncrypt blockCipher key iv_ plaintext))
              0) as [E|E]; [lia|].
  destruct (Nat.eqb_spec
              (length (aesCbcEncrypt blockCipher key iv_ plaintext) mod 16) 0)
    as [E'|E']; [|lia].
  cbn [orb negb]. unfold aesCbcEncrypt in *.
  pose proof (unrun_run iv_ (plaintext ++ pkcs7 plaintext) Hiv) as H.
  cbv zeta in H. destruct H as (Hl & Hc & _ & _ & Hd).
  rewrite Hd. unfold outOf at 1. cbn [snd].
  assert (Hfull : length (outOf (cbcRun blockCipher key iv_
                                   (plaintext ++ pkcs7 plaintext)))
                  = length (plaintext ++ pkcs7 plaintext)).
  { rewrite length_app in *. unfold pkcs7 in *. rewrite repeat_length in *.
    lia. }
  rewrite Hfull, firstn_all. apply unpad_pkcs7.
Qed.

End CbcRoundTrip.

(** ** The utilities

    The helpers the tests read an encrypted object back with.  They keep no
    state: each is a function of its arguments to the value it resolves to, a
    failed [expect], or an exception of the runtime. *)

Module Testutil.

Inductive failure :=
| AssertionError              (* a failed [expect] *)
| Raised (e : error).         (* an exception of the runtime *)

Inductive result (A : Type) :=
| Ok (a : A)
| Failed (f : failure)
| Pending.                    (* a promise that never settles *)

Arguments Ok {A} a.
Arguments Failed {A} f.
Arguments Pending {A}.

Definition andThen {A B} (m : result A) (k : A -> result B) : result B :=
  match m with
  | Ok a => k a
  | Failed f => Failed f
  | Pending => Pending
  end.

Notation "x <-- m ;; k" := (andThen m (fun x => k))
  (at level 100, m at next level, right associativity).
Notation "m ;;; k" := (andThen m (fun _ => k))
  (at level 100, right associativity).

(** [await] of a call of the code under test. *)
Definition await {A} (o : outcome A) : result A :=
  match o with
  | Returned a => Ok a
  | Thrown e => Failed (Raised e)
  | Diverged => Pending
  end.

(** [expect(actual).toBe(true)], [expect(actual).toEqual(expected)] with the
    comparison already made. *)
Definition expect (holds : bool) : result unit :=
  if holds then Ok tt else Failed AssertionError.

(** Equality of the contents of two typed arrays, as [toEqual] and
    [subtle.verify] decide it. *)
Definition sameBytes (a b : list byte) : bool :=
  if list_eq_dec Byte.byte_eq_dec a b then true else false.

Section Utilities.

Context {platform : Platform}.

(** The inverse of the block cipher, under [subtle.decrypt]. *)
Variable blockDecipher : list byte -> N -> N.

(** [new Uint8Array(length)] *)
Definition allocate (length : Z) : result (list byte) :=
  if (length <? 0) || (maxByteLength <? length) then Failed (Raised RangeError)
  else Ok (repeat x00 (Z.to_nat length)).

(** The loop of [concat]: [ret.set(arr, offset); offset += arr.length]. *)
Fixpoint concatLoop (data : list (list byte)) (ret : list byte) (offset : Z)
    : result (list byte) :=
  match data with
  | [] => Ok ret
  | arr :: data' =>
      match set ret arr offset with
      | None => Failed (Raised RangeError)
      | Some ret' => concatLoop data' ret' (offset + len arr)
      end
  end.

(** [concat(data)] *)
Definition concat (data : list (list byte)) : result (list byte) :=
  let size := fold_left (fun len_ nxt => len_ + len nxt) data 0 in
  ret <-- allocate size ;;
  concatLoop data ret 0.

(** [subtle.importKey('raw', key, {name: 'hmac', hash: 'SHA-256'}, false,
    ['verify'])]: WebCrypto refuses a key of no bytes. *)
Definition importHmacKey (key : list byte) : result (list byte) :=
  if len key =? 0 then Failed (Raised DataError) else Ok key.

(** [subtle.verify({name: 'hmac', hash: 'SHA-256'}, key, signature, data)] *)
Definition subtleVerify (key signature data : list byte) : bool :=
  sameBytes signature (bytesOfN 32 (hmacSha256 key data)).

(** [hmacVerify(hmac, key, ...data)] *)
Definition hmacVerify (hmac key : list byte) (data : list (list byte))
    : result bool :=
  k <-- importHmacKey key ;;
  message <-- concat data ;;
  Ok (subtleVerify k hmac message).

(** [aesKey(keyBytes)] *)
Definition aesKey (keyBytes : list byte) : result CryptoKey :=
  await (importKey keyBytes).

(** [subtle.decrypt({ name: 'AES-CBC', iv }, key, data)] *)
Definition subtleDecrypt (iv : list byte) (key : CryptoKey) (data : list byte)
    : result (list byte) :=
  if negb (len iv =? 16) then Failed (Raised OperationError)
  else
    match aesCbcDecrypt blockDecipher (rawKey key) iv data with
    | Some plaintext => Ok plaintext
    | None => Failed (Raised OperationError)
    end.

(** [decrypt(iv, key, data)] *)
Definition decrypt (iv key data : list byte) : result (list byte) :=
  k <-- aesKey key ;;
  subtleDecrypt iv k data.

(** [authenticateAndDecryptWithIv(iv, key, hmacKey, ciphertext)] *)
Definition authenticateAndDecryptWithIv (iv key hmacKey ciphertext : list byte)
    : result (list byte) :=
  expect (sameBytes (subarray ciphertext 0 16) iv) ;;;
  let encrypted := subarray ciphertext 16 (len ciphertext - 32) in
  let hmac := subarray ciphertext (len ciphertext - 32) (len ciphertext) in
  verified <-- hmacVerify hmac hmacKey
                 [subarray ciphertext 0 (len ciphertext - 32)] ;;
  expect (Bool.eqb verified true) ;;;
  decrypt iv key encrypted.

(** [authenticateAndDecrypt(key, hmacKey, ciphertext)] *)
Definition authenticateAndDecrypt (key hmacKey ciphertext : list byte)
    : result (list byte) :=
  authenticateAndDecryptWithIv (subarray ciphertext 0 16) key hmacKey
    ciphertext.

End Utilities.

(** [a[i] !== b[j]] for elements that may be [undefined]. *)
Definition differ (x y : option byte) : bool :=
  match x, y with
  | Some a, Some b => negb (Byte.eqb a b)
  | None, None => false
  | _, _ => true
  end.

(** The loop of [arrayEquals] from index [i], with [steps] indices left
    below [a1.length]. *)
Fixpoint arrayEqualsFrom (a1 a2 : list byte) (i steps : nat) : bool :=
  match steps with
  | O => true
  | S steps' =>
      if differ (nth_error a1 i) (nth_error a2 i) then false
      else arrayEqualsFrom a1 a2 (S i) steps'
  end.

(** [arrayEquals(a1, a2)] *)
Definition arrayEquals (a1 a2 : list byte) : bool :=
  if negb (len a1 =? len a2) then false
  else arrayEqualsFrom a1 a2 0 (length a1).

End Testutil.

(** ** [concat] and [arrayEquals] *)

Lemma sum_lengths (data : list (list byte)) (a : Z) :
  fold_left (fun len_ nxt => len_ + len nxt) data a
  = a + len (List.concat data).
Proof.
  revert a. induction data as [|arr data IH]; intros a; simpl.
  - rewrite len_nil. lia.
  - rewrite IH, len_app. lia.
Qed.

Lemma concatLoop_fills (data : list (list byte)) :
  forall (ret : list byte) (offset : Z),
  0 <= offset -> offset + len (List.concat data) <= len ret ->
  Testutil.concatLoop data ret offset
  = Testutil.Ok
      (firstn (Z.to_nat offset) ret ++ List.concat data
       ++ skipn (Z.to_nat (offset + len (List.concat data))) ret).
Proof.
  induction data as [|arr data IH]; intros ret offset H0 H1.
  - cbn [Testutil.concatLoop List.concat app]. rewrite len_nil, Z.add_0_r.
    now rewrite firstn_skipn.
  - cbn [Testutil.concatLoop List.concat] in *. rewrite len_app in *.
    pose proof (len_nonneg arr) as Ha.
    pose proof (len_nonneg (List.concat data)) as Hd.
    rewrite set_fits by lia.
    set (A := firstn (Z.to_nat offset) ret).
    set (B := skipn (Z.to_nat (offset + len arr)) ret).
    assert (HA : len A = offset) by (subst A; apply len_firstn; lia).
    assert (HB : len B = len ret - (offset + len arr))
      by (subst B; apply len_skipn; lia).
    rewrite IH by (rewrite ?len_app; lia).
    f_equal.
    replace (Z.to_nat (offset + len arr)) with (length (A ++ arr))
      by (rewrite length_app; unfold len in *; lia).
    rewrite (app_assoc A arr B), firstn_app, firstn_all, Nat.sub_diag.
    cbn [firstn]. rewrite app_nil_r, <- !app_assoc. do 3 f_equal.
    replace (Z.to_nat (offset + len arr + len (List.concat data)))
      with (length (A ++ arr) + Z.to_nat (len (List.concat data)))%nat
      by (rewrite length_app; unfold len in *; lia).
    rewrite (app_assoc A arr B), skipn_app, skipn_all2 by lia.
    replace (length (A ++ arr) + Z.to_nat (len (List.concat data))
             - length (A ++ arr))%nat
      with (Z.to_nat (len (List.concat data))) by lia.
    cbn [app]. subst B. rewrite skipn_skipn. f_equal. lia.
Qed.

Lemma allocate_size {platform : Platform} (data : list (list byte)) :
  Testutil.concat data
  = Testutil.andThen (Testutil.allocate (len (List.concat data)))
      (fun ret => Testutil.concatLoop data ret 0).
Proof.
  unfold Testutil.concat. cbv zeta. now rewrite sum_lengths, Z.add_0_l.
Qed.

Lemma concat_fits {platform : Platform} (data : list (list byte)) :
  len (List.concat data) <= maxByteLength ->
  Testutil.concat data = Testutil.Ok (List.concat data).
Proof.
  intros Hfit. rewrite allocate_size. unfold Testutil.allocate.
  pose proof (len_nonneg (List.concat data)) as Hd.
  destruct (len (List.concat data) <? 0) eqn:E; [apply Z.ltb_lt in E; lia|].
  destruct (maxByteLength <? len (List.concat data)) eqn:E';
    [apply Z.ltb_lt in E'; lia|].
  cbn [orb Testutil.andThen].
  rewrite concatLoop_fills;
    [|lia|unfold len in *; rewrite repeat_length; lia].
  cbn [Z.to_nat firstn app]. f_equal.
  rewrite skipn_all2 by (rewrite repeat_length; lia).
  apply app_nil_r.
Qed.

(** X8: [concat] returns its arrays joined in order, unless their lengths add up
    to more than the runtime allocates; [ret.set] never raises. *)
Theorem concat_flattens {platform : Platform} (data : list (list byte)) :
  Testutil.concat data
  = if maxByteLength <? len (List.concat data)
    then Testutil.Failed (Testutil.Raised RangeError)
    else Testutil.Ok (List.concat data).
Proof.
  destruct (maxByteLength <? len (List.concat data)) eqn:E.
  - rewrite allocate_size. unfold Testutil.allocate. rewrite E.
    now rewrite orb_true_r.
  - apply Z.ltb_ge in E. now apply concat_fits.
Qed.

Lemma skipn_nth (a : list byte) :
  forall (i : nat) (x : byte),
  nth_error a i = Some x -> skipn i a = x :: skipn (S i) a.
Proof.
  induction a as [|y a IH]; intros [|i] x H; try discriminate.
  - injection H as ->. reflexivity.
  - cbn [nth_error] in H. cbn [skipn]. now apply IH.
Qed.

Lemma arrayEqualsFrom_suffix (a1 a2 : list byte) (steps : nat) :
  forall i : nat,
  (i + steps = length a1)%nat -> length a1 = length a2 ->
  Testutil.arrayEqualsFrom a1 a2 i steps = true <-> skipn i a1 = skipn i a2.
Proof.
  induction steps as [|steps IH]; intros i Hi Hlen.
  - cbn. rewrite !skipn_all2 by lia. tauto.
  - cbn [Testutil.arrayEqualsFrom].
    destruct (nth_error a1 i) as [x|] eqn:E1;
      [|apply nth_error_None in E1; lia].
    destruct (nth_error a2 i) as [y|] eqn:E2;
      [|apply nth_error_None in E2; lia].
    rewrite (skipn_nth a1 i x E1), (skipn_nth a2 i y E2).
    cbn [Testutil.differ].
    destruct (Byte.eqb x y) eqn:E; cbn [negb].
    + apply Byte.byte_dec_bl in E. subst y.
      rewrite IH by lia. split; intros H; [now rewrite H | now injection H].
    + split; [discriminate|]. intros H. injection H as H _.
      apply Byte.byte_dec_lb in H. congruence.
Qed.

(** X9: [arrayEquals] returns [true] exactly for two arrays of the same
    contents. *)
Theorem arrayEquals_decides (a1 a2 : list byte) :
  Testutil.arrayEquals a1 a2 = true <-> a1 = a2.
Proof.
  unfold Testutil.arrayEquals.
  destruct (len a1 =? len a2) eqn:E; cbn [negb].
  - apply Z.eqb_eq in E. unfold len in E.
    rewrite arrayEqualsFrom_suffix by lia. reflexivity.
  - apply Z.eqb_neq in E. split; [discriminate|]. intros ->. congruence.
Qed.

(** ** Reading an encrypted object back *)

Lemma relativeIndex_range (n i : Z) :
  0 <= n -> 0 <= relativeIndex n i <= n.
Proof.
  intros Hn. unfold relativeIndex.
  destruct (i <? 0) eqn:E; [apply Z.ltb_lt in E | apply Z.ltb_ge in E]; lia.
Qed.

Lemma len_subarray (a : list byte) (b e : Z) :
  len (subarray a b e)
  = Z.max (relativeIndex (len a) e - relativeIndex (len a) b) 0.
Proof.
  pose proof (len_nonneg a) as Ha.
  pose proof (relativeIndex_range (len a) b Ha) as Hb.
  pose proof (relativeIndex_range (len a) e Ha) as He.
  unfold subarray. cbv zeta.
  set (from := relativeIndex (len a) b) in *.
  set (to := relativeIndex (len a) e) in *.
  unfold len in *. rewrite length_firstn, length_skipn. lia.
Qed.

Lemma subarray_middle (a : list byte) (b e : Z) :
  0 <= b <= e -> e <= len a ->
  subarray a b e = firstn (Z.to_nat (e - b)) (skipn (Z.to_nat b) a).
Proof.
  intros Hb He. unfold subarray, relativeIndex.
  destruct (b <? 0) eqn:E1; [apply Z.ltb_lt in E1; lia|].
  destruct (e <? 0) eqn:E2; [apply Z.ltb_lt in E2; lia|].
  cbv zeta.
  replace (Z.min b (len a)) with b by lia.
  replace (Z.min e (len a)) with e by lia.
  now replace (Z.max (e - b) 0) with (e - b) by lia.
Qed.

Lemma andThen_ok {A B} (m : Testutil.result A) (k : A -> Testutil.result B)
    (b : B) :
  Testutil.andThen m k = Testutil.Ok b ->
  exists a, m = Testutil.Ok a /\ k a = Testutil.Ok b.
Proof. destruct m; simpl; intros H; try discriminate. eauto. Qed.

Lemma sameBytes_eq (a b : list byte) :
  Testutil.sameBytes a b = true <-> a = b.
Proof.
  unfold Testutil.sameBytes.
  destruct (list_eq_dec Byte.byte_eq_dec a b); split; congruence.
Qed.

Lemma sameBytes_refl (a : list byte) : Testutil.sameBytes a a = true.
Proof. now apply sameBytes_eq. Qed.

Section ReadBack.

Context {platform : Platform}.
Variable blockDecipher : list byte -> N -> N.

(** The checks a sealed object goes through, part by part. *)
Definition opened (key hk iv_ body tag : list byte)
    : Testutil.result (list byte) :=
  Testutil.andThen (Testutil.hmacVerify tag hk [iv_ ++ body])
    (fun verified =>
       Testutil.andThen (Testutil.expect (Bool.eqb verified true))
         (fun _ => Testutil.decrypt blockDecipher iv_ key body)).

Lemma authenticateAndDecrypt_parts (key hk iv_ body tag : list byte) :
  length iv_ = 16%nat -> length tag = 32%nat ->
  Testutil.authenticateAndDecrypt blockDecipher key hk (iv_ ++ body ++ tag)
  = opened key hk iv_ body tag.
Proof.
  intros Hiv Htag.
  unfold Testutil.authenticateAndDecrypt,
    Testutil.authenticateAndDecryptWithIv.
  cbv zeta. set (ct := iv_ ++ body ++ tag).
  assert (Hn : len ct = 16 + len body + 32)
    by (subst ct; rewrite !len_app; unfold len; lia).
  pose proof (len_nonneg body) as Hb.
  assert (E1 : subarray ct 0 16 = iv_).
  { rewrite subarray_prefix by lia. subst ct.
    change (Z.to_nat 16) with 16%nat. rewrite <- Hiv.
    rewrite firstn_app, firstn_all, Nat.sub_diag. cbn [firstn].
    apply app_nil_r. }
  assert (E2 : subarray ct 16 (len ct - 32) = body).
  { rewrite subarray_middle by lia. subst ct.
    change (Z.to_nat 16) with 16%nat. rewrite <- Hiv.
    rewrite skipn_app, skipn_all, Nat.sub_diag. cbn [skipn app].
    replace (Z.to_nat (len (iv_ ++ body ++ tag) - 32 - 16))
      with (length body) by (unfold len in *; lia).
    rewrite firstn_app, firstn_all, Nat.sub_diag. cbn [firstn].
    apply app_nil_r. }
  assert (E3 : subarray ct (len ct - 32) (len ct) = tag).
  { rewrite subarray_middle by lia.
    replace (Z.to_nat (len ct - 32)) with (length (iv_ ++ body))
      by (rewrite length_app; unfold len in *; lia).
    replace (Z.to_nat (len ct - (len ct - 32))) with (length tag) by lia.
    subst ct. rewrite app_assoc, skipn_app, skipn_all, Nat.sub_diag.
    cbn [skipn app]. apply firstn_all. }
  assert (E4 : subarray ct 0 (len ct - 32) = iv_ ++ body).
  { rewrite subarray_prefix by lia. subst ct.
    replace (Z.to_nat (len (iv_ ++ body ++ tag) - 32))
      with (length (iv_ ++ body))
      by (rewrite length_app; unfold len in *; lia).
    rewrite app_assoc, firstn_app, firstn_all, Nat.sub_diag. cbn [firstn].
    apply app_nil_r. }
  rewrite E1, E2, E3, E4, sameBytes_refl. reflexivity.
Qed.

End ReadBack.

Section Accepted.

Context {platform : Platform}.
Variable blockDecipher : list byte -> N -> N.

Lemma unabsorb_lengths (key data : list byte) :
  forall prev cur out : list byte,
  (length cur < 16)%nat ->
  let st := fold_left (cbcUnabsorb blockDecipher key) data (prev, cur, out) in
  (length (snd (fst st)) < 16)%nat /\
  exists k : nat,
    length (outOf st) = (length out + 16 * k)%nat /\
    (16 * k + length (snd (fst st)) = length cur + length data)%nat.
Proof.
  induction data as [|b data IH]; intros prev cur out Hc; cbv zeta.
  - cbn. split; [assumption|]. exists 0%nat. lia.
  - cbn [fold_left].
    assert (Hstep : cbcUnabsorb blockDecipher key (prev, cur, out) b
                    = if Nat.eqb (length (cur ++ [b])) 16
                      then (cur ++ [b], [],
                            out ++ decryptBlock blockDecipher key prev
                                     (cur ++ [b]))
                      else (prev, cur ++ [b], out)) by reflexivity.
    rewrite Hstep. clear Hstep.
    destruct (Nat.eqb (length (cur ++ [b])) 16) eqn:E;
      [apply Nat.eqb_eq in E | apply Nat.eqb_neq in E];
      rewrite length_app in E; cbn [length] in E.
    + destruct (IH (cur ++ [b]) []
                  (out ++ decryptBlock blockDecipher key prev (cur ++ [b])))
        as (H1 & k & H2 & H3); [cbn; lia|].
      cbv zeta in H1, H2, H3. split; [exact H1|]. exists (S k).
      rewrite H2, length_app. unfold decryptBlock at 1.
      rewrite length_bytesOfN. cbn [length] in *. lia.
    + destruct (IH prev (cur ++ [b]) out) as (H1 & k & H2 & H3);
        [rewrite length_app; cbn [length]; lia|].
      cbv zeta in H1, H2, H3. split; [exact H1|]. exists k.
      rewrite length_app in H3. cbn [length] in *. lia.
Qed.

Lemma aesCbcDecrypt_some (key iv_ data plaintext : list byte) :
  aesCbcDecrypt blockDecipher key iv_ data = Some plaintext ->
  (16 <= length data)%nat /\ (length data mod 16 = 0)%nat /\
  (length data - 16 <= length plaintext < length data)%nat.
Proof.
  unfold aesCbcDecrypt. intros H.
  destruct (Nat.eqb_spec (length data) 0) as [E|E]; [discriminate|].
  destruct (Nat.eqb_spec (length data mod 16) 0) as [E'|E'];
    [|discriminate].
  cbn [orb negb] in H.
  destruct (unabsorb_lengths key data iv_ [] []) as (H1 & k & H2 & H3);
    [cbn; lia|].
  cbv zeta in H1, H2, H3. cbn [length] in H2, H3.
  set (out := outOf _) in *.
  assert (Hout : length out = length data) by lia.
  unfold unpad in H.
  set (n := N.to_nat (Byte.to_N (last out x00))) in *.
  destruct (Nat.leb_spec 1 n); [|discriminate].
  destruct (Nat.leb_spec n 16); [|discriminate].
  destruct (Nat.leb_spec n (length out)); [|discriminate].
  cbn [andb] in H.
  destruct (forallb _ _); [|discriminate].
  injection H as <-. rewrite length_firstn. lia.
Qed.

Lemma decrypt_ok (iv_ key data plaintext : list byte) :
  Testutil.decrypt blockDecipher iv_ key data = Testutil.Ok plaintext ->
  importKey key = Returned (mkCryptoKey key) /\ len iv_ = 16 /\
  aesCbcDecrypt blockDecipher key iv_ data = Some plaintext.
Proof.
  unfold Testutil.decrypt, Testutil.aesKey, importKey. intros H.
  destruct ((len key =? 16) || (len key =? 24) || (len key =? 32));
    [|discriminate].
  cbn [Testutil.await Testutil.andThen] in H.
  unfold Testutil.subtleDecrypt in H. cbn [rawKey] in H.
  destruct (len iv_ =? 16) eqn:E; [|discriminate]. cbn [negb] in H.
  apply Z.eqb_eq in E.
  destruct (aesCbcDecrypt blockDecipher key iv_ data); [|discriminate].
  injection H as <-. auto.
Qed.

Lemma hmacVerify_ok (tag hk message : list byte) (verified : bool) :
  Testutil.hmacVerify tag hk [message] = Testutil.Ok verified ->
  hk <> [] /\ len message <= maxByteLength /\
  (verified = true <-> tag = bytesOfN 32 (hmacSha256 hk message)).
Proof.
  unfold Testutil.hmacVerify, Testutil.importHmacKey. intros H.
  destruct (len hk =? 0) eqn:E; [discriminate|]. apply Z.eqb_neq in E.
  cbn [Testutil.andThen] in H.
  assert (Hm : List.concat [message] = message) by apply app_nil_r.
  destruct (maxByteLength <? len message) eqn:E'.
  - rewrite allocate_size in H. unfold Testutil.allocate in H.
    rewrite Hm, E', orb_true_r in H. discriminate.
  - apply Z.ltb_ge in E'.
    rewrite concat_fits, Hm in H by (rewrite Hm; assumption).
    cbn [Testutil.andThen] in H. injection H as <-.
    split; [intros ->; apply E; reflexivity|].
    split; [assumption|]. apply sameBytes_eq.
Qed.

Lemma opened_ok (key hk iv_ body tag plaintext : list byte) :
  opened blockDecipher key hk iv_ body tag = Testutil.Ok plaintext ->
  hk <> [] /\ len (iv_ ++ body) <= maxByteLength /\
  tag = bytesOfN 32 (hmacSha256 hk (iv_ ++ body)) /\
  importKey key = Returned (mkCryptoKey key) /\ len iv_ = 16 /\
  aesCbcDecrypt blockDecipher key iv_ body = Some plaintext.
Proof.
  unfold opened. intros H.
  apply andThen_ok in H as (verified & Hv & H).
  apply andThen_ok in H as ([] & He & H).
  apply hmacVerify_ok in Hv as (Hk & Hm & Hv).
  apply decrypt_ok in H as (Hi & Hiv & Hd).
  destruct verified; [|discriminate].
  repeat (split; [assumption|]).
  split; [now apply Hv|]. auto.
Qed.

(** An object shorter than the 64 bytes of an empty sealed object is never
    opened. *)
Lemma authenticateAndDecrypt_long (key hk ciphertext plaintext : list byte) :
  Testutil.authenticateAndDecrypt blockDecipher key hk ciphertext
  = Testutil.Ok plaintext ->
  64 <= len ciphertext.
Proof.
  unfold Testutil.authenticateAndDecrypt,
    Testutil.authenticateAndDecryptWithIv.
  cbv zeta. intros H.
  apply andThen_ok in H as (_ & _ & H).
  apply andThen_ok in H as (verified & _ & H).
  apply andThen_ok in H as (_ & _ & H).
  apply decrypt_ok in H as (_ & _ & H).
  apply aesCbcDecrypt_some in H as (H & _ & _).
  assert (Hl : 16 <= len (subarray ciphertext 16 (len ciphertext - 32)))
    by (unfold len at 1; lia).
  rewrite len_subarray in Hl. unfold relativeIndex in Hl.
  pose proof (len_nonneg ciphertext) as Hn.
  destruct (16 <? 0) eqn:E1; [discriminate|].
  destruct (len ciphertext - 32 <? 0) eqn:E2;
    [apply Z.ltb_lt in E2 | apply Z.ltb_ge in E2]; lia.
Qed.

End Accepted.

(** X10: what [authenticateAndDecrypt] returns, it returns for an object of an
    initialisation vector, a body and a tag: the MAC key is not empty, the
    tag is the HMAC of vector and body, the cipher key is one AES takes, the
    body is a positive number of blocks, and the result is its decryption
    under the vector, shorter than the body by a padding of 1 to 16 bytes. *)
Theorem authenticateAndDecrypt_accepts {platform : Platform}
    (blockDecipher : list byte -> N -> N)
    (key hk ciphertext plaintext : list byte) :
  Testutil.authenticateAndDecrypt blockDecipher key hk ciphertext
  = Testutil.Ok plaintext ->
  exists iv_ body tag : list byte,
    ciphertext = iv_ ++ body ++ tag /\
    length iv_ = 16%nat /\ length tag = 32%nat /\
    hk <> [] /\
    tag = bytesOfN 32 (hmacSha256 hk (iv_ ++ body)) /\
    importKey key = Returned (mkCryptoKey key) /\
    aesCbcDecrypt blockDecipher key iv_ body = Some plaintext /\
    (16 <= length body)%nat /\ (length body mod 16 = 0)%nat /\
    (length body - 16 <= length plaintext < length body)%nat.
Proof.
  intros H.
  pose proof (authenticateAndDecrypt_long blockDecipher _ _ _ _ H) as Hn.
  set (n := length ciphertext) in *.
  set (rest := skipn 16 ciphertext).
  exists (firstn 16 ciphertext), (firstn (n - 48) rest), (skipn (n - 48) rest).
  assert (Hct : ciphertext
                = firstn 16 ciphertext
                  ++ firstn (n - 48) rest ++ skipn (n - 48) rest)
    by (subst rest; now rewrite !firstn_skipn).
  assert (Hiv : length (firstn 16 ciphertext) = 16%nat)
    by (rewrite length_firstn; unfold len in Hn; lia).
  assert (Htag : length (skipn (n - 48) rest) = 32%nat)
    by (subst rest; rewrite !length_skipn; unfold len in Hn; lia).
  rewrite Hct, authenticateAndDecrypt_parts in H by assumption.
  apply opened_ok in H as (Hk & _ & Ht & Hi & _ & Hd).
  pose proof (aesCbcDecrypt_some blockDecipher _ _ _ _ Hd) as (H1 & H2 & H3).
  auto 10.
Qed.

(** ** Round trip *)

Lemma opened_sealed (blockCipher blockDecipher : list byte -> N -> N)
    (hmacFn : list byte -> list byte -> N) (maxLen : Z)
    (key hk iv_ plaintext : list byte) :
  (forall x : N, (x < 2 ^ 128)%N ->
     blockDecipher key (blockCipher key x mod 2 ^ 128)%N = x) ->
  importKey key = Returned (mkCryptoKey key) ->
  length iv_ = 16%nat -> hk <> [] ->
  len plaintext + 64 <= maxLen ->
  Testutil.authenticateAndDecrypt
    (platform := cbcPlatform blockCipher hmacFn maxLen) blockDecipher key hk
    (sealed blockCipher hmacFn key hk iv_ [] plaintext)
  = Testutil.Ok plaintext.
Proof.
  intros Hinv Hkey Hiv Hk HL. unfold sealed. cbv zeta. cbn [app].
  set (body := aesCbcEncrypt blockCipher key iv_ plaintext).
  rewrite authenticateAndDecrypt_parts
    by (assumption || apply length_bytesOfN).
  unfold opened, Testutil.hmacVerify, Testutil.importHmacKey.
  destruct (len hk =? 0) eqn:E.
  { apply Z.eqb_eq in E. destruct hk; [congruence | discriminate]. }
  cbn [Testutil.andThen].
  assert (Hbody : len body <= len plaintext + 16).
  { subst body. unfold len. rewrite length_aesCbc by assumption. lia. }
  rewrite concat_fits
    by (cbn [List.concat maxByteLength cbcPlatform];
        rewrite app_nil_r, len_app; unfold len in *; lia).
  cbn [Testutil.andThen List.concat]. rewrite app_nil_r.
  unfold Testutil.subtleVerify. cbn [hmacSha256 cbcPlatform].
  rewrite sameBytes_refl. cbn [Bool.eqb Testutil.expect Testutil.andThen].
  unfold Testutil.decrypt, Testutil.aesKey. rewrite Hkey.
  cbn [Testutil.await Testutil.andThen]. unfold Testutil.subtleDecrypt.
  replace (len iv_ =? 16) with true
    by (symmetry; apply Z.eqb_eq; unfold len; lia).
  cbn [negb rawKey]. subst body.
  now rewrite (aesCbcDecrypt_aesCbcEncrypt blockCipher blockDecipher key Hinv).
Qed.

(** X11: what [streamEncrypt] writes in good conditions, joined by [concat] and
    read back by [authenticateAndDecrypt] with the keys the encrypter was
    created with, is the plaintext of the source. *)
Theorem streamEncrypt_round_trip
    (blockCipher blockDecipher : list byte -> N -> N)
    (hmacFn : list byte -> list byte -> N) (maxLen : Z)
    (iv_ hmacKey_ aesKey_ : list byte) (e : Encrypter)
    (bufferSize : option number) (w : World) :
  (forall x : N, (x < 2 ^ 128)%N ->
     blockDecipher aesKey_ (blockCipher aesKey_ x mod 2 ^ 128)%N = x) ->
  Encrypter_create iv_ hmacKey_ aesKey_ = Returned e ->
  encrypter w = e ->
  ready w = true ->
  fits maxLen bufferSize = true ->
  chunks (dst w) = [] ->
  hmacKey_ <> [] ->
  len (concat (pending (source w))) + 64 <= maxLen ->
  exists (w' : World) (ciphertext : list byte),
    streamEncrypt (platform := cbcPlatform blockCipher hmacFn maxLen)
      bufferSize w = (Returned tt, w') /\
    Testutil.concat (platform := cbcPlatform blockCipher hmacFn maxLen)
      (chunks (dst w')) = Testutil.Ok ciphertext /\
    Testutil.authenticateAndDecrypt
      (platform := cbcPlatform blockCipher hmacFn maxLen) blockDecipher
      aesKey_ hmacKey_ ciphertext
    = Testutil.Ok (concat (pending (source w))).
Proof.
  intros Hinv Hc He Hready Hfits Hch Hk HL.
  pose proof (create_returned _ _ _ _ Hc) as (Hiv & Ee).
  assert (Hkey : importKey aesKey_ = Returned (mkCryptoKey aesKey_)).
  { unfold Encrypter_create, importKey in *.
    destruct ((len aesKey_ =? 16) || (len aesKey_ =? 24)
              || (len aesKey_ =? 32)); [reflexivity | discriminate]. }
  assert (Hiv' : length iv_ = 16%nat) by (unfold len in Hiv; lia).
  assert (Hlive : live (encrypter w) = true).
  { rewrite He, Ee. unfold live. cbn [iv hmac finalized]. now rewrite Hiv. }
  destruct (streamEncrypt_sealed blockCipher hmacFn maxLen bufferSize w
              Hlive Hready Hfits) as (w' & Hrun & Hw & _).
  rewrite He, Ee in Hw. cbn [aesKey rawKey hmac hmacKey iv message] in Hw.
  unfold written in Hw. rewrite Hch in Hw. cbn [concat app] in Hw.
  set (plaintext := concat (pending (source w))) in *.
  exists w', (sealed blockCipher hmacFn aesKey_ hmacKey_ iv_ [] plaintext).
  split; [exact Hrun|]. split.
  - rewrite concat_fits; [now rewrite Hw|].
    rewrite Hw, length_sealed, ceilDiv16_succ by assumption.
    cbn [maxByteLength cbcPlatform]. lia.
  - now apply opened_sealed.
Qed.

(** A block cipher with an inverse, to run the round trip on: exclusive-or
    with an AES-128 key. *)
Module Xor.

Definition cipher (key : list byte) (x : N) : N := N.lxor x (NOfBytes key).

Definition decipher (key : list byte) (y : N) : N := N.lxor y (NOfBytes key).

Definition platform : Platform := cbcPlatform cipher Sample.keyedHash 4096.

Definition cipherKey : list byte := repeat x03 16.

Definition theEncrypter : Encrypter :=
  mkEncrypter (mkHmac Sample.macKey [] false) Sample.ivBytes
    (mkCryptoKey cipherKey).

Definition world (sourceChunks : list (list byte)) : World :=
  mkWorld theEncrypter (mkSource sourceChunks false 0) Sample.sink 0.

End Xor.

Lemma xor_decipher_cipher (x : N) :
  (x < 2 ^ 128)%N ->
  Xor.decipher Xor.cipherKey (Xor.cipher Xor.cipherKey x mod 2 ^ 128)%N = x.
Proof.
  intros Hx. unfold Xor.decipher, Xor.cipher.
  assert (Hk : (NOfBytes Xor.cipherKey < 2 ^ 128)%N)
    by (apply NOfBytes_16; reflexivity).
  rewrite N.mod_small by (apply lxor_bound; assumption).
  now rewrite N.lxor_assoc, N.lxor_nilpotent, N.lxor_0_r.
Qed.

Lemma authenticateAndDecrypt_accepts_witness :
  let ciphertext :=
    sealed Xor.cipher Sample.keyedHash Xor.cipherKey Sample.macKey
      Sample.ivBytes [] (repeat x41 20) in
  exists iv_ body tag : list byte,
    ciphertext = iv_ ++ body ++ tag /\
    length iv_ = 16%nat /\ length tag = 32%nat /\
    Sample.macKey <> [] /\
    tag = bytesOfN 32
            (hmacSha256 (Platform := Xor.platform) Sample.macKey
               (iv_ ++ body)) /\
    importKey Xor.cipherKey = Returned (mkCryptoKey Xor.cipherKey) /\
    aesCbcDecrypt Xor.decipher Xor.cipherKey iv_ body
    = Some (repeat x41 20) /\
    (16 <= length body)%nat /\ (length body mod 16 = 0)%nat /\
    (length body - 16 <= length (repeat x41 20) < length body)%nat.
Proof.
  apply (authenticateAndDecrypt_accepts (platform := Xor.platform)
           Xor.decipher Xor.cipherKey Sample.macKey
           (sealed Xor.cipher Sample.keyedHash Xor.cipherKey Sample.macKey
              Sample.ivBytes [] (repeat x41 20))
           (repeat x41 20)).
  vm_compute. reflexivity.
Defined.

Lemma streamEncrypt_round_trip_witness :
  let w := Xor.world [repeat x41 7; []; repeat x42 30] in
  exists (w' : World) (ciphertext : list byte),
    streamEncrypt (platform := Xor.platform) (Some (Int 16)) w
    = (Returned tt, w') /\
    Testutil.concat (platform := Xor.platform) (chunks (dst w'))
    = Testutil.Ok ciphertext /\
    Testutil.authenticateAndDecrypt (platform := Xor.platform) Xor.decipher
      Xor.cipherKey Sample.macKey ciphertext
    = Testutil.Ok (concat (pending (source w))).
Proof.
  apply (streamEncrypt_round_trip Xor.cipher Xor.decipher Sample.keyedHash
           4096 Sample.ivBytes Sample.macKey Xor.cipherKey Xor.theEncrypter
           (Some (Int 16)) (Xor.world [repeat x41 7; []; repeat x42 30])).
  - exact xor_decipher_cipher.
  - reflexivity.
  - reflexivity.
  - reflexivity.
  - reflexivity.
  - reflexivity.
  - discriminate.
  - vm_compute. discriminate.
Defined.

(** * A source that fails

    [streamEncrypt] over a source whose iteration ends in an error, on a sink
    that takes every write. *)

Section Interrupted.

Variable blockCipher : list byte -> N -> N.
Variable hmacFn : list byte -> list byte -> N.
Variable maxLen : Z.

Local Abbreviation cbc := (cbcPlatform blockCipher hmacFn maxLen).
Local Abbreviation run := (cbcRun blockCipher).

Variables (key hk iv0 msg0 wr0 : list byte).
Hypothesis iv0_length : length iv0 = 16%nat.

Local Abbreviation chainedAt' := (chainedAt blockCipher key hk iv0 msg0 wr0).

Lemma forAwait_interrupted (fuel : nat) :
  forall (buf : list byte) (off : Z) (w : World) (X : list byte),
  (length (pending (source w)) < fuel)%nat ->
  failsAtEnd (source w) = true ->
  chainedAt' X w -> 0 <= off < len buf -> aligned16 buf ->
  exists buf' off' w' X',
    forAwait (platform := cbc) fuel buf off w = (Thrown SourceFailure, w') /\
    chainedAt' X' w' /\
    0 <= off' < len buf' /\ len buf' = len buf /\
    X' ++ firstn (Z.to_nat off') buf'
    = X ++ firstn (Z.to_nat off) buf ++ concat (pending (source w)) /\
    closeFails (dst w') = closeFails (dst w).
Proof.
  induction fuel as [|fuel IH]; intros buf off w X Hf Hend Hch Ho Hb; [lia|].
  cbn [forAwait]. unfold bind at 1. unfold next. rewrite Hend.
  destruct (pending (source w)) as [|chunk rest] eqn:Hp.
  - exists buf, off. eexists. exists X.
    split; [reflexivity|].
    split; [eapply chainedAt_same; [| |exact Hch]; reflexivity|].
    split; [lia|]. split; [reflexivity|]. split; [|reflexivity].
    simpl. now rewrite app_nil_r.
  - set (w1 := mkWorld _ _ _ _).
    assert (Hch1 : chainedAt' X w1)
      by (eapply chainedAt_same; [| |exact Hch]; reflexivity).
    destruct (doWhile_chained blockCipher hmacFn maxLen key hk iv0 msg0 wr0
                iv0_length (S (length chunk)) chunk buf off w1 X)
      as (buf2 & off2 & w2 & X2 & Hrun & Hch2 & Ho2 & Hl2 & Hx2 & Hs2 & Hc2);
      [lia | assumption | assumption | assumption |].
    unfold bind at 1. rewrite Hrun. cbn [fst snd].
    destruct (IH buf2 off2 w2 X2)
      as (buf' & off' & w' & X' & Hrun' & Hch' & Ho' & Hl' & Hx' & Hc');
      [rewrite Hs2; subst w1; simpl in *; lia
      | rewrite Hs2; subst w1; simpl; first [assumption | reflexivity]
      | assumption | assumption
      | unfold aligned16, len in *; replace (length buf2) with (length buf)
          by lia; assumption |].
    exists buf', off', w', X'.
    split; [assumption|]. split; [assumption|]. split; [assumption|].
    split; [congruence|].
    split; [|rewrite Hc', Hc2; reflexivity].
    rewrite Hx', app_assoc, Hx2, Hs2. subst w1. cbn [source pending concat].
    now rewrite <- !app_assoc.
Qed.

(** X12: when the source fails at its end, [streamEncrypt] throws the error of
    the source after closing the sink.  The sink has the initialisation vector
    and the ciphertext of the plaintext up to the last whole buffer, without
    a padding block and without a tag; the HMAC has been fed as much and is
    not finalized. *)
Theorem streamEncrypt_source_failure (bufferSize : option number) (b : Z)
    (w : World) :
  orDefault bufferSize = Int b -> Z.rem b 16 = 0 -> 0 <= b <= maxLen ->
  encrypter w = mkEncrypter (mkHmac hk msg0 false) iv0 (mkCryptoKey key) ->
  written (dst w) = wr0 ->
  state (dst w) = Writable -> budget (dst w) = None ->
  locked (dst w) = false -> closeFails (dst w) = false ->
  failsAtEnd (source w) = true ->
  let plaintext := concat (pending (source w)) in
  exists (w' : World) (done : nat),
    streamEncrypt (platform := cbc) bufferSize w
    = (Thrown SourceFailure, w') /\
    (done mod 16 = 0)%nat /\
    0 <= len plaintext - Z.of_nat done < b /\
    written (dst w')
    = wr0 ++ iv0 ++ outOf (run key iv0 (firstn done plaintext)) /\
    len (written (dst w')) = len wr0 + 16 + Z.of_nat done /\
    state (dst w') = Closed /\
    closeCalls (dst w') = S (closeCalls (dst w)) /\
    message (hmac (encrypter w'))
    = msg0 ++ iv0 ++ outOf (run key iv0 (firstn done plaintext)) /\
    finalized (hmac (encrypter w')) = false.
Proof.
  intros Hb Hrem Hrange He Hw Hs Hbud Hl Hcf Hend plaintext.
  pose proof (orDefault_nonzero bufferSize b Hb) as Hnz.
  unfold streamEncrypt. cbv zeta. rewrite Hb.
  cbn [notMultipleOf16]. rewrite Hrem. cbn [Z.eqb negb].
  unfold bind at 1, getWriter, bind at 1, getSink. rewrite Hl.
  cbn [putSink]. unfold tryFinally, tryBlock.
  set (w1 := mkWorld _ _ _ _).
  unfold bind at 1. rewrite init_healthy by (subst w1; simpl; rewrite ?He; auto).
  set (w2 := fed _ _).
  assert (Hch2 : chainedAt' [] w2).
  { subst w2 w1. unfold chainedAt, written in *. simpl. rewrite He. simpl.
    split; [reflexivity|]. rewrite !app_nil_r.
    split; [reflexivity|]. split; [|auto].
    rewrite concat_app, Hw. simpl. now rewrite app_nil_r. }
  unfold bind at 1, newUint8Array.
  destruct ((b <? 0) || (maxByteLength <? b)) eqn:Hz.
  { apply orb_true_iff in Hz as [Hz|Hz]; apply Z.ltb_lt in Hz; simpl in Hz; lia. }
  cbn [ret]. set (buf := repeat x00 (Z.to_nat b)).
  assert (Hlb : len buf = b)
    by (subst buf; unfold len; rewrite repeat_length; lia).
  unfold bind at 1, getSource. unfold bind at 1.
  destruct (forAwait_interrupted (S (length (pending (source w2)))) buf 0 w2 [])
    as (buf' & off' & w3 & X' & Hrun & Hch3 & Ho' & Hl' & Hx & Hcf3);
    [lia | subst w2 w1; simpl; assumption | assumption | lia
    | subst buf; apply rem16_aligned_repeat; lia |].
  rewrite Hrun.
  destruct Hch3 as (HX & He3 & Hw3 & Hs3 & Hb3).
  assert (HP : plaintext = X' ++ firstn (Z.to_nat off') buf')
    by (rewrite Hx; subst plaintext w2 w1; reflexivity).
  assert (Hcf3' : closeFails (dst w3) = false)
    by (rewrite Hcf3; subst w2 w1; simpl; assumption).
  assert (Hcc : closeCalls (dst w3) = closeCalls (dst w)).
  { pose proof (forAwait_total (platform := cbc)
                  (S (length (pending (source w2)))) buf 0 w2) as Ht.
    cbv zeta in Ht. destruct Ht as (_ & (Hcc & _) & _); [lia | lia |].
    rewrite Hrun in Hcc. cbn [snd] in Hcc. rewrite Hcc. subst w2 w1.
    reflexivity. }
  assert (Hclose : close w3
                   = (Returned tt,
                      mkWorld (encrypter w3) (source w3)
                        (mkSink (chunks (dst w3)) Closed (locked (dst w3))
                           (S (closeCalls (dst w3))) (budget (dst w3))
                           (closeFails (dst w3)))
                        (subtleCalls w3))).
  { unfold close, bind, getSink. rewrite Hs3, Hcf3'. reflexivity. }
  rewrite Hclose.
  eexists. exists (length X'). split; [reflexivity|].
  cbn [dst encrypter state closeCalls].
  assert (Hfirst : firstn (length X') plaintext = X').
  { rewrite HP, firstn_app, firstn_all, Nat.sub_diag. cbn [firstn].
    apply app_nil_r. }
  rewrite Hfirst.
  destruct (run_aligned blockCipher key iv0 X' iv0_length HX) as (_ & Hlo & _).
  split; [exact HX|]. split.
  { rewrite HP, len_app, len_firstn by (clear - Ho'; lia).
    clear - Ho' Hl' Hlb. unfold len in *. lia. }
  split; [exact Hw3|]. split.
  { unfold written in Hw3. unfold written. cbn [chunks]. rewrite Hw3.
    rewrite !len_app. unfold len. rewrite Hlo, iv0_length.
    clear. lia. }
  split; [reflexivity|]. split; [now rewrite Hcc|].
  rewrite He3. split; reflexivity.
Qed.

End Interrupted.

Lemma streamEncrypt_source_failure_witness :
  let w := mkWorld Sample.theEncrypter
             (mkSource [repeat x41 7; repeat x42 30] true 0) Sample.sink 0 in
  let plaintext := concat (pending (source w)) in
  exists (w' : World) (done : nat),
    streamEncrypt (platform := Sample.platform) (Some (Int 16)) w
    = (Thrown SourceFailure, w') /\
    (done mod 16 = 0)%nat /\
    0 <= len plaintext - Z.of_nat done < 16 /\
    written (dst w')
    = [] ++ Sample.ivBytes
      ++ outOf (cbcRun Sample.cipher Sample.cipherKey Sample.ivBytes
                  (firstn done plaintext)) /\
    len (written (dst w')) = len [] + 16 + Z.of_nat done /\
    state (dst w') = Closed /\
    closeCalls (dst w') = S (closeCalls (dst w)) /\
    message (hmac (encrypter w'))
    = [] ++ Sample.ivBytes
      ++ outOf (cbcRun Sample.cipher Sample.cipherKey Sample.ivBytes
                  (firstn done plaintext)) /\
    finalized (hmac (encrypter w')) = false.
Proof.
  apply (streamEncrypt_source_failure Sample.cipher Sample.keyedHash 4096
           Sample.cipherKey Sample.macKey Sample.ivBytes [] [] eq_refl
           (Some (Int 16)) 16
           (mkWorld Sample.theEncrypter
              (mkSource [repeat x41 7; repeat x42 30] true 0) Sample.sink 0)).
  - reflexivity.
  - reflexivity.
  - lia.
  - reflexivity.
  - reflexivity.
  - reflexivity.
  - reflexivity.
  - reflexivity.
  - reflexivity.
  - reflexivity.
Defined.

(** * Edges of [encrypt.ts] *)

Section Edges.

Context {platform : Platform}.

(** X13: [create] fails on the key before it looks at the initialisation vector;
    when both have a length that is accepted, it returns an encrypter with a
    fresh HMAC and a copy of the vector: [this.iv.set(iv)] never raises. *)
Theorem Encrypter_create_cases (iv_ hmacKey_ aesKey_ : list byte) :
  Encrypter_create iv_ hmacKey_ aesKey_
  = if negb ((len aesKey_ =? 16) || (len aesKey_ =? 24) || (len aesKey_ =? 32))
    then Thrown DataError
    else if negb (len iv_ =? 16) then Thrown InvalidParameter
    else Returned (mkEncrypter (mkHmac hmacKey_ [] false) iv_
                     (mkCryptoKey aesKey_)).
Proof.
  unfold Encrypter_create, importKey, Encrypter_new, createHmac.
  destruct ((len aesKey_ =? 16) || (len aesKey_ =? 24) || (len aesKey_ =? 32));
    [|reflexivity].
  cbn [negb]. destruct (len iv_ =? 16) eqn:E; [|reflexivity].
  apply Z.eqb_eq in E. cbn [negb].
  now rewrite set_whole by (rewrite E; reflexivity).
Qed.

(** X14: on a sink that is locked, [streamEncrypt] with a buffer size that
    passes the test throws the TypeError of [getWriter] and the world is as
    it was: the [try] statement is not entered, so [close] is not called. *)
Theorem streamEncrypt_locked (bufferSize : option number) (w : World) :
  notMultipleOf16 (orDefault bufferSize) = false ->
  locked (dst w) = true ->
  streamEncrypt bufferSize w = (Thrown TypeError, w).
Proof.
  intros Hb Hl. unfold streamEncrypt. cbv zeta. rewrite Hb.
  unfold bind at 1, getWriter, bind at 1, getSink. now rewrite Hl.
Qed.

(** X15: a buffer size that is a multiple of 16 but that the runtime does not
    allocate (a negative one, or one too large) passes the test: the
    initialisation vector is written and fed to the HMAC, then the allocation
    throws a RangeError and the sink is closed.  The source has not been
    read and the primitive has not been called. *)
Theorem streamEncrypt_unallocatable (bufferSize : option number) (b : Z)
    (w : World) :
  orDefault bufferSize = Int b -> Z.rem b 16 = 0 ->
  b < 0 \/ maxByteLength < b ->
  finalized (hmac (encrypter w)) = false ->
  state (dst w) = Writable -> budget (dst w) = None ->
  locked (dst w) = false -> closeFails (dst w) = false ->
  exists w' : World,
    streamEncrypt bufferSize w = (Thrown RangeError, w') /\
    chunks (dst w') = chunks (dst w) ++ [iv (encrypter w)] /\
    state (dst w') = Closed /\
    closeCalls (dst w') = S (closeCalls (dst w)) /\
    source w' = source w /\ subtleCalls w' = subtleCalls w /\
    message (hmac (encrypter w'))
    = message (hmac (encrypter w)) ++ iv (encrypter w) /\
    finalized (hmac (encrypter w')) = false.
Proof.
  intros Hb Hrem Hbad Hf Hs Hbud Hl Hcf.
  unfold streamEncrypt. cbv zeta. rewrite Hb.
  cbn [notMultipleOf16]. rewrite Hrem. cbn [Z.eqb negb].
  unfold bind at 1, getWriter, bind at 1, getSink. rewrite Hl.
  cbn [putSink]. unfold tryFinally, tryBlock.
  set (w1 := mkWorld _ _ _ _).
  unfold bind at 1. rewrite init_healthy by (subst w1; simpl; auto).
  unfold bind at 1, newUint8Array.
  assert (Hz : (b <? 0) || (maxByteLength <? b) = true).
  { apply orb_true_iff. clear - Hbad.
    destruct Hbad; [left | right]; now apply Z.ltb_lt. }
  rewrite Hz. cbn [throw].
  set (w2 := fed _ _).
  assert (Hclose : close w2
                   = (Returned tt,
                      mkWorld (encrypter w2) (source w2)
                        (mkSink (chunks (dst w2)) Closed (locked (dst w2))
                           (S (closeCalls (dst w2))) (budget (dst w2))
                           (closeFails (dst w2)))
                        (subtleCalls w2))).
  { unfold close, bind, getSink. subst w2 w1. cbn. rewrite Hs, Hcf.
    reflexivity. }
  rewrite Hclose. eexists. split; [reflexivity|].
  subst w2 w1. cbn. rewrite Hf. repeat split.
Qed.

End Edges.

Lemma streamEncrypt_locked_witness :
  let w := mkWorld Sample.theEncrypter (mkSource [repeat x41 7] false 0)
             (mkSink [] Writable true 0 None false) 0 in
  streamEncrypt (platform := Sample.platform) None w = (Thrown TypeError, w).
Proof.
  apply (streamEncrypt_locked (platform := Sample.platform) None
           (mkWorld Sample.theEncrypter (mkSource [repeat x41 7] false 0)
              (mkSink [] Writable true 0 None false) 0)).
  - reflexivity.
  - reflexivity.
Defined.

Lemma streamEncrypt_unallocatable_witness :
  let w := Sample.world [repeat x41 7] in
  exists w' : World,
    streamEncrypt (platform := Sample.platform) (Some (Int (-16))) w
    = (Thrown RangeError, w') /\
    chunks (dst w') = chunks (dst w) ++ [iv (encrypter w)] /\
    state (dst w') = Closed /\
    closeCalls (dst w') = S (closeCalls (dst w)) /\
    source w' = source w /\ subtleCalls w' = subtleCalls w /\
    message (hmac (encrypter w'))
    = message (hmac (encrypter w)) ++ iv (encrypter w) /\
    finalized (hmac (encrypter w')) = false.
Proof.
  apply (streamEncrypt_unallocatable (platform := Sample.platform)
           (Some (Int (-16))) (-16) (Sample.world [repeat x41 7])).
  - reflexivity.
  - reflexivity.
  - left. lia.
  - reflexivity.
  - reflexivity.
  - reflexivity.
  - reflexivity.
  - reflexivity.
Defined.

(** * [randomishBytes] (workers/src/testutil.ts) *)

Section Randomish.

Context {platform : Platform}.

(** SHA-256 as a 256-bit number. *)
Variable sha256 : list byte -> N.

(** [new Uint8Array(await crypto.subtle.digest('SHA-256', data))] *)
Definition digest (data : list byte) : list byte := bytesOfN 32 (sha256 data).

(** The [for] loop of [randomishBytes], for an integer [n].  [offset] grows
    by 32 each turn, so [fuel] turns are enough when [n - offset + 32] is at
    most [32 * fuel]. *)
Fixpoint randomishLoop (fuel : nat) (n : Z) (curr arr : list byte) (offset : Z)
    : Testutil.result (list byte) :=
  match fuel with
  | O => Testutil.Pending
  | S fuel' =>
      if offset <? n then
        let curr := digest curr in
        match set arr (subarray curr 0 (n - offset)) offset with
        | None => Testutil.Failed (Testutil.Raised RangeError)
        | Some arr => randomishLoop fuel' n curr arr (offset + 32)
        end
      else Testutil.Ok arr
  end.

(** [randomishBytes(n)] *)
Definition randomishBytes (n : Z) : Testutil.result (list byte) :=
  Testutil.andThen (Testutil.allocate 32) (fun curr =>
  Testutil.andThen (Testutil.allocate n) (fun arr =>
  randomishLoop (S (Z.to_nat n)) n curr arr 0)).

(** [k] digests, each of the one before, starting from the digest of
    [curr]. *)
Fixpoint digests (k : nat) (curr : list byte) : list byte :=
  match k with
  | O => []
  | S k' => digest curr ++ digests k' (digest curr)
  end.

Lemma subarray_clamped (a : list byte) (e : Z) :
  0 <= e -> subarray a 0 e = firstn (Z.to_nat e) a.
Proof.
  intros He. unfold subarray, relativeIndex.
  pose proof (len_nonneg a) as Ha.
  destruct (e <? 0) eqn:E; [apply Z.ltb_lt in E; lia|].
  change (0 <? 0) with false. cbv zeta.
  replace (Z.min 0 (len a)) with 0 by lia. cbn [Z.to_nat skipn].
  rewrite Z.sub_0_r.
  destruct (Z.le_gt_cases e (len a)) as [H|H].
  - now replace (Z.max (Z.min e (len a)) 0) with e by lia.
  - replace (Z.max (Z.min e (len a)) 0) with (len a) by lia.
    unfold len in *. rewrite Nat2Z.id, firstn_all.
    symmetry. apply firstn_all2. lia.
Qed.

Lemma randomishLoop_fills (fuel : nat) :
  forall (n : Z) (curr arr : list byte) (offset : Z) (k : nat),
  0 <= offset < n + 32 -> len arr = n ->
  n - offset + 32 <= 32 * Z.of_nat fuel -> n - offset <= 32 * Z.of_nat k ->
  randomishLoop fuel n curr arr offset
  = Testutil.Ok (firstn (Z.to_nat offset) arr
                 ++ firstn (Z.to_nat (n - offset)) (digests k curr)).
Proof.
  induction fuel as [|fuel IH]; intros n curr arr offset k H0 Hn Hfuel Hk.
  - lia.
  - cbn [randomishLoop].
    destruct (offset <? n) eqn:E;
      [apply Z.ltb_lt in E | apply Z.ltb_ge in E].
    + cbv zeta. set (d := digest curr).
      assert (Hd : length d = 32%nat) by apply length_bytesOfN.
      destruct k as [|k]; [lia|].
      rewrite subarray_clamped by lia.
      set (r := Z.to_nat (n - offset)).
      set (sub := firstn r d).
      assert (Hsub : length sub = Nat.min r 32)
        by (subst sub; rewrite length_firstn, Hd; reflexivity).
      rewrite set_fits by (unfold len in *; lia).
      set (A := firstn (Z.to_nat offset) arr).
      set (B := skipn (Z.to_nat (offset + len sub)) arr).
      assert (HA : length A = Z.to_nat offset)
        by (subst A; rewrite length_firstn; unfold len in *; lia).
      assert (HB : (r < 32 -> B = [])%nat).
      { intros Hr. subst B. apply skipn_all2. unfold len in *. lia. }
      rewrite (IH n d (A ++ sub ++ B) (offset + 32) k);
        [|lia
         |subst B; rewrite !len_app; unfold len in *;
          rewrite length_skipn; lia
         |lia|lia].
      f_equal. cbn [digests]. fold d.
      replace (Z.to_nat (offset + 32)) with (length A + 32)%nat by lia.
      rewrite firstn_app_2, (firstn_app r d), Hd, <- app_assoc.
      fold sub. f_equal.
      replace (Z.to_nat (n - (offset + 32))) with (r - 32)%nat by lia.
      rewrite firstn_app, (firstn_all2 (n := 32%nat)), <- app_assoc by lia.
      f_equal.
      destruct (Nat.lt_ge_cases r 32) as [Hr|Hr].
      * rewrite (HB Hr), firstn_nil.
        replace (r - 32)%nat with 0%nat by lia. reflexivity.
      * replace (32 - length sub)%nat with 0%nat by lia. reflexivity.
    + replace (Z.to_nat (n - offset)) with 0%nat by lia.
      cbn [firstn]. rewrite app_nil_r, firstn_all2 by (unfold len in *; lia).
      reflexivity.
Qed.

(** X16: [randomishBytes(n)] returns, for every length that the runtime
    allocates: its result is the first [n] bytes of the chain of SHA-256
    digests that starts from 32 zero bytes, so it has [n] bytes and is the
    same on every call.  The last, partial copy never raises. *)
Theorem randomishBytes_chain (n : Z) :
  32 <= maxByteLength -> 0 <= n <= maxByteLength ->
  randomishBytes n
  = Testutil.Ok (firstn (Z.to_nat n)
                   (digests (Z.to_nat (ceilDiv n 32)) (repeat x00 32))) /\
  forall r, randomishBytes n = Testutil.Ok r -> len r = n.
Proof.
  intros H32 Hn.
  assert (Hrun : randomishBytes n
                 = Testutil.Ok (firstn (Z.to_nat n)
                                  (digests (Z.to_nat (ceilDiv n 32))
                                     (repeat x00 32)))).
  { unfold randomishBytes, Testutil.allocate.
    destruct (maxByteLength <? 32) eqn:E1; [apply Z.ltb_lt in E1; lia|].
    destruct (n <? 0) eqn:E2; [apply Z.ltb_lt in E2; lia|].
    destruct (maxByteLength <? n) eqn:E3; [apply Z.ltb_lt in E3; lia|].
    cbn [Z.ltb Z.compare orb Testutil.andThen].
    rewrite (randomishLoop_fills _ n _ _ 0 (Z.to_nat (ceilDiv n 32)));
      [ cbn [Z.to_nat firstn app]; now rewrite Z.sub_0_r
      | lia
      | unfold len; rewrite repeat_length; lia
      | lia
      | unfold ceilDiv; lia ]. }
  split; [exact Hrun|]. intros r Hr. rewrite Hrun in Hr.
  injection Hr as <-.
  unfold len. rewrite length_firstn.
  assert (Hlen : forall k curr, length (digests k curr) = (32 * k)%nat).
  { induction k as [|k IHk]; intros curr; cbn [digests]; [reflexivity|].
    rewrite length_app, IHk. unfold digest. rewrite length_bytesOfN. lia. }
  rewrite Hlen. unfold ceilDiv. lia.
Qed.

End Randomish.

Lemma randomishBytes_chain_witness :
  randomishBytes (platform := Sample.platform) (Sample.keyedHash []) 40
  = Testutil.Ok (firstn (Z.to_nat 40)
                   (digests (Sample.keyedHash []) (Z.to_nat (ceilDiv 40 32))
                      (repeat x00 32))) /\
  forall r,
    randomishBytes (platform := Sample.platform) (Sample.keyedHash []) 40
    = Testutil.Ok r ->
    len r = 40.
Proof.
  apply (randomishBytes_chain (platform := Sample.platform)
           (Sample.keyedHash []) 40).
  - vm_compute. discriminate.
  - split; vm_compute; discriminate.
Defined.
